(** * Bounded producer/consumer rings: [core_ring] and [skb_ring]

    A shallow embedding of the two ring buffers of the repository,

    - [include/linux/core_ring.h]: the index-based ring, whose slots are
      reached through a table of callbacks ([seek_fn], [zero_fn],
      [valid_fn], [copy_fn]), and
    - [include/linux/skb_ring.h] with its implementation file: the packet
      ring of [{skb, len}] descriptors indexed by [head] and [tail],

    followed by the properties of the specification proved (or refuted)
    about them.  C [int] is a 32-bit two's complement integer and
    [unsigned long] a 64-bit one; both are carried by [Z] with the
    wrap-around written out.  Pointers are addresses in [Z], [NULL] is 0. *)

From stdpp Require Import base option list gmap strings.
From Stdlib Require Import ZArith Lia.

Open Scope Z_scope.

(** ** Machine integers and constants *)

Definition INT_MAX : Z := 2 ^ 31 - 1.
Definition ULONG_MOD : Z := 2 ^ 64.

(** Conversion to [int]. *)
Definition wrap_int (z : Z) : Z := (z + 2 ^ 31) mod 2 ^ 32 - 2 ^ 31.

(** Conversion to [unsigned long]. *)
Definition wrap_ulong (z : Z) : Z := z mod ULONG_MOD.

Definition NULL : Z := 0.

(** Modelled from the spec: the errno numbers of [<asm/errno.h>] are not
    part of the sources at hand; the specification calls them [Full]
    ([ENOSPC] for the index-based ring, [EFAULT] for the packet ring),
    [OutOfMemory] ([ENOMEM]) and [InvalidArgument] ([EINVAL]).  The Linux
    numbers are used. *)
Definition ENOMEM : Z := 12.
Definition EFAULT : Z := 14.
Definition EINVAL : Z := 22.
Definition ENOSPC : Z := 28.

(** Modelled from the spec: [VLAN_HLEN] of [<linux/if_vlan.h>], the "known
    encapsulation overhead" added to the cached length of a tagged packet. *)
Definition VLAN_HLEN : Z := 4.

(** A [spinlock_t] as far as a sequential run can observe it. *)
Inductive spinlock : Set :=
| LockUninit
| Unlocked
| Locked.

Definition spin_lock_init (_ : spinlock) : spinlock := Unlocked.

(** * The index-based ring *)

Module CoreRing.

(** The data fields of [struct core_ring]. *)
Record core_ring : Set := mk_core_ring {
  producer : Z;
  producer_lock : spinlock;
  consumer : Z;
  consumer_lock : spinlock;
  size : Z;
  entry_size : Z;
}.

(** The callbacks of [struct core_ring].  Each one receives the ring only
    to find the slot storage, so it is given the storage [M] itself:
    [seek_fn] returns the address of slot [i], [valid_fn] tells whether
    slot [i] is occupied, [zero_fn] clears slot [i] and [copy_fn] copies one
    entry from address [src] to address [dst] (the calls in the header pass
    [r, dst, src]). *)
Record ring_fns (M : Type) : Type := mk_ring_fns {
  seek_fn : M -> Z -> Z;
  zero_fn : M -> Z -> M;
  valid_fn : M -> Z -> bool;
  copy_fn : M -> Z -> Z -> M;
}.
Arguments seek_fn {M}.
Arguments zero_fn {M}.
Arguments valid_fn {M}.
Arguments copy_fn {M}.

(** A callback invocation, as recorded in the call log. *)
Inductive call : Set :=
| CallValid (i : Z)
| CallSeek (i : Z)
| CallCopy (dst src : Z)
| CallZero (i : Z).

(** What a run acts on: the ring structure, the memory reached through the
    callbacks, and the log of the callbacks invoked so far. *)
Record state (M : Type) : Type := mk_state {
  ring : core_ring;
  mem : M;
  calls : list call;
}.
Arguments mk_state {M}.
Arguments ring {M}.
Arguments mem {M}.
Arguments calls {M}.

Definition set_producer (r : core_ring) (v : Z) : core_ring :=
  mk_core_ring v (producer_lock r) (consumer r) (consumer_lock r)
               (size r) (entry_size r).

Definition set_consumer (r : core_ring) (v : Z) : core_ring :=
  mk_core_ring (producer r) (producer_lock r) v (consumer_lock r)
               (size r) (entry_size r).

(** Change the consumer-side fields of the ring and nothing else. *)
Definition with_consumer_side {M} (s : state M) (c : Z) (l : spinlock)
  : state M :=
  mk_state (mk_core_ring (producer (ring s)) (producer_lock (ring s)) c l
                         (size (ring s)) (entry_size (ring s)))
           (mem s) (calls s).

Section Operations.
Context {M : Type} (fns : ring_fns M).

Definition with_ring (s : state M) (r : core_ring) : state M :=
  mk_state r (mem s) (calls s).

Definition call_valid (s : state M) (i : Z) : bool * state M :=
  (valid_fn fns (mem s) i,
   mk_state (ring s) (mem s) (calls s ++ [CallValid i])).

Definition call_seek (s : state M) (i : Z) : Z * state M :=
  (seek_fn fns (mem s) i,
   mk_state (ring s) (mem s) (calls s ++ [CallSeek i])).

Definition call_copy (s : state M) (dst src : Z) : state M :=
  mk_state (ring s) (copy_fn fns (mem s) dst src)
           (calls s ++ [CallCopy dst src]).

Definition call_zero (s : state M) (i : Z) : state M :=
  mk_state (ring s) (zero_fn fns (mem s) i) (calls s ++ [CallZero i]).

(** [__core_ring_full]; the header writes a bare [producer] where
    [r->producer] is meant. *)
Definition __core_ring_full (s : state M) : bool * state M :=
  call_valid s (producer (ring s)).

Definition __core_ring_empty (s : state M) : bool * state M :=
  let '(v, s1) := call_valid s (consumer (ring s)) in (negb v, s1).

(** [__core_ring_produce]: [-ENOSPC] when the size is zero (the validity
    test is then skipped by the short-circuit) or the producer slot is
    occupied; otherwise copy [ptr] in and step the producer index.  The
    header passes a bare [producer] to [seek_fn]; [r->producer] is meant,
    as in the validity test on the line before. *)
Definition __core_ring_produce (s : state M) (ptr : Z) : Z * state M :=
  if size (ring s) =? 0 then (- ENOSPC, s)
  else
    let '(full, s1) := call_valid s (producer (ring s)) in
    if full then (- ENOSPC, s1)
    else
      let '(dst, s2) := call_seek s1 (producer (ring s1)) in
      let s3 := call_copy s2 dst ptr in
      let s4 :=
        with_ring s3
          (set_producer (ring s3) (wrap_int (producer (ring s3) + 1))) in
      let s5 := if size (ring s4) <=? producer (ring s4)
                then with_ring s4 (set_producer (ring s4) 0) else s4 in
      (0, s5).

Definition __core_ring_discard_one (s : state M) : state M :=
  let s1 := call_zero s (consumer (ring s)) in
  let s2 := with_ring s1
              (set_consumer (ring s1) (wrap_int (consumer (ring s1) + 1))) in
  if size (ring s2) <=? consumer (ring s2)
  then with_ring s2 (set_consumer (ring s2) 0) else s2.

(** [__core_ring_consume]: returns [ptr] after copying the consumer slot
    to it, or [NULL] when that slot is not valid. *)
Definition __core_ring_consume (s : state M) (ptr : Z) : Z * state M :=
  let '(v, s1) := call_valid s (consumer (ring s)) in
  if v then
    let '(src, s2) := call_seek s1 (consumer (ring s1)) in
    let s3 := call_copy s2 ptr src in
    (ptr, __core_ring_discard_one s3)
  else (NULL, s1).

(** The [for] loop of [__core_ring_consume_batched]; [fuel] is [n - i].
    The counter [i] stays below the [int] [n], so [i++] cannot wrap. *)
Fixpoint consume_batched_loop (fuel : nat) (s : state M) (array i : Z)
  : Z * state M :=
  match fuel with
  | O => (i, s)
  | S fuel' =>
      let '(ptr, s1) := __core_ring_consume s array in
      if ptr =? NULL then (i, s1)
      else consume_batched_loop fuel' s1 (array + entry_size (ring s1)) (i + 1)
  end.

Definition __core_ring_consume_batched (s : state M) (array n : Z)
  : Z * state M :=
  consume_batched_loop (Z.to_nat n) s array 0.

End Operations.

Definition __core_ring_set_size (r : core_ring) (sz : Z) : core_ring :=
  mk_core_ring (producer r) (producer_lock r) (consumer r) (consumer_lock r)
               sz (entry_size r).

(** [core_ring_init]: no allocation and no check of [size]; always 0. *)
Definition core_ring_init (r : core_ring) (sz : Z) : Z * core_ring :=
  let r1 := __core_ring_set_size r sz in
  let r2 := set_producer (set_consumer r1 0) 0 in
  let r3 := mk_core_ring (producer r2) (spin_lock_init (producer_lock r2))
                         (consumer r2) (spin_lock_init (consumer_lock r2))
                         (size r2) (entry_size r2) in
  (0, r3).

(** ** What the callbacks must satisfy, and what a ring holds

    The header fixes no table; the properties below are those a table
    has to meet for a ring of [n] slots, phrased with the entry [load m a]
    stored at an address and the test [entry_valid] that tells an
    occupied entry from a cleared one.  An address names a whole entry:
    entries at different addresses do not overlap. *)

Section Model.
Context {M E : Type} (fns : ring_fns M).
Context (load : M -> Z -> E) (entry_valid : E -> bool).

Record table_ok (n : Z) : Prop := mk_table_ok {
  seek_copy : forall m d s i,
    seek_fn fns (copy_fn fns m d s) i = seek_fn fns m i;
  seek_zero : forall m i j,
    seek_fn fns (zero_fn fns m i) j = seek_fn fns m j;
  seek_inj : forall m i j,
    0 <= i < n -> 0 <= j < n -> seek_fn fns m i = seek_fn fns m j -> i = j;
  valid_load : forall m i,
    0 <= i < n -> valid_fn fns m i = entry_valid (load m (seek_fn fns m i));
  load_copy : forall m d s, load (copy_fn fns m d s) d = load m s;
  load_copy_ne : forall m d s a,
    a ≠ d -> load (copy_fn fns m d s) a = load m a;
  load_zero : forall m i,
    0 <= i < n ->
    entry_valid (load (zero_fn fns m i) (seek_fn fns m i)) = false;
  load_zero_ne : forall m i a,
    a ≠ seek_fn fns m i -> load (zero_fn fns m i) a = load m a;
}.

(** A buffer of the caller: not [NULL] and not one of the ring's slots. *)
Definition user_buf (s : state M) (a : Z) : Prop :=
  a ≠ NULL /\
  forall i, 0 <= i < size (ring s) -> a ≠ seek_fn fns (mem s) i.

(** [holds s q]: the ring of [s] is well formed and its resident entries,
    oldest first, are [q]: they sit in the slots from the consumer index
    on, the producer index follows them, and every other slot is clear. *)
Definition holds (s : state M) (q : list E) : Prop :=
  let r := ring s in
  0 < size r <= INT_MAX /\
  0 <= consumer r < size r /\
  Z.of_nat (length q) <= size r /\
  producer r = (consumer r + Z.of_nat (length q)) mod size r /\
  (forall (j : nat) (e : E), q !! j = Some e ->
     load (mem s) (seek_fn fns (mem s) ((consumer r + Z.of_nat j) mod size r))
       = e /\ entry_valid e = true) /\
  (forall j : Z, Z.of_nat (length q) <= j < size r ->
     valid_fn fns (mem s) ((consumer r + j) mod size r) = false).

(** The logical element count: the number of occupied slots. *)
Definition count_valid (s : state M) : nat :=
  length (filter (fun i => valid_fn fns (mem s) i = true)
                 (seqZ 0 (size (ring s)))).

(** Consecutive [__core_ring_produce] calls, one per element address. *)
Fixpoint produce_seq (s : state M) (ptrs : list Z) : list Z * state M :=
  match ptrs with
  | [] => ([], s)
  | p :: ps =>
      let '(ret, s1) := __core_ring_produce fns s p in
      let '(rets, s2) := produce_seq s1 ps in
      (ret :: rets, s2)
  end.

(** Consecutive [__core_ring_consume] calls, one per output buffer; the
    returned pointers are collected. *)
Fixpoint consume_seq (s : state M) (ptrs : list Z) : list Z * state M :=
  match ptrs with
  | [] => ([], s)
  | p :: ps =>
      let '(ret, s1) := __core_ring_consume fns s p in
      let '(rets, s2) := consume_seq s1 ps in
      (ret :: rets, s2)
  end.

(** What a caller gets from one consume: nothing on [NULL], else the
    entry behind the returned pointer at the time of return. *)
Definition consume_entry (s : state M) (ptr : Z) : option E * state M :=
  let '(ret, s1) := __core_ring_consume fns s ptr in
  (if ret =? NULL then None else Some (load (mem s1) ret), s1).

Fixpoint consume_entries (s : state M) (ptrs : list Z)
  : list (option E) * state M :=
  match ptrs with
  | [] => ([], s)
  | p :: ps =>
      let '(e, s1) := consume_entry s p in
      let '(es, s2) := consume_entries s1 ps in
      (e :: es, s2)
  end.

(** The buffers [array], [array + entry_size], ... a batch writes to. *)
Fixpoint batch_bufs (es array : Z) (k : nat) : list Z :=
  match k with
  | O => []
  | S k' => array :: batch_bufs es (array + es) k'
  end.

(** The state with one more callback invocation in its log. *)
Definition logged (s : state M) (c : call) : state M :=
  mk_state (ring s) (mem s) (calls s ++ [c]).

(** The states a ring of [n] slots goes through: initialised by
    [core_ring_init] over cleared slots, then any interleaving of produce
    calls (of occupied entries) and consume calls (into caller buffers). *)
Inductive reachable (n : Z) : state M -> Prop :=
| reach_init r0 m :
    (forall i, 0 <= i < n -> valid_fn fns m i = false) ->
    reachable n (mk_state (core_ring_init r0 n).2 m [])
| reach_produce s ptr :
    reachable n s ->
    entry_valid (load (mem s) ptr) = true ->
    reachable n (__core_ring_produce fns s ptr).2
| reach_consume s ptr :
    reachable n s ->
    user_buf s ptr ->
    reachable n (__core_ring_consume fns s ptr).2.

End Model.

End CoreRing.

(** ** A table of the expected kind: a ring of pointers

    Memory maps an address to the word stored there (0 where nothing was
    written); slot [i] is the word at [base + 8 * i]; a slot is occupied
    when it holds a non-[NULL] pointer. *)

Module PtrTable.
Import CoreRing.

Definition read (m : gmap Z Z) (a : Z) : Z := default 0 (m !! a).

Definition slot_addr (base i : Z) : Z := base + 8 * i.

Definition ptr_fns (base : Z) : ring_fns (gmap Z Z) :=
  mk_ring_fns (gmap Z Z)
    (fun _ i => slot_addr base i)
    (fun m i => <[slot_addr base i := 0]> m)
    (fun m i => negb (read m (slot_addr base i) =? 0))
    (fun m dst src => <[dst := read m src]> m).

Definition ptr_valid (e : Z) : bool := negb (e =? 0).

End PtrTable.

(** * The packet ring *)

Module SkbRing.

(** How a call can fail to return a value. *)
Inductive failure : Set :=
| BadAccess   (* a load or store outside any object *)
| Deadlock    (* spinning on a lock that is held *)
| OutOfFuel.  (* the loop was still running when the fuel ran out *)

Inductive outcome (A : Type) : Type :=
| Done (a : A)
| Fail (f : failure).
Arguments Done {A}.
Arguments Fail {A}.

#[export] Instance outcome_ret : MRet outcome := fun A a => Done a.
#[export] Instance outcome_bind : MBind outcome := fun A B f c =>
  match c with
  | Done a => f a
  | Fail e => Fail e
  end.

(** The fields of [struct sk_buff] the ring reads: [skb->len] (an
    [unsigned int]) and the outcome of [skb_vlan_tag_present]. *)
Record sk_buff : Set := mk_sk_buff {
  skb_len : Z;
  skb_vlan_tag_present : bool;
}.

Record skb_desc : Set := mk_skb_desc {
  skb : Z;   (* struct sk_buff * *)
  len : Z;   (* int: cached skb len for peeking *)
}.

(** [struct skb_ring]; [descs] is [None] for a [NULL] pointer. *)
Record skb_ring : Set := mk_skb_ring {
  rlock : spinlock;
  tail : Z;
  size : Z;
  descs : option (list skb_desc);
  head : Z;
  wlock : spinlock;
}.

Definition set_rlock (r : skb_ring) (l : spinlock) : skb_ring :=
  mk_skb_ring l (tail r) (size r) (descs r) (head r) (wlock r).
Definition set_tail (r : skb_ring) (v : Z) : skb_ring :=
  mk_skb_ring (rlock r) v (size r) (descs r) (head r) (wlock r).
Definition set_size (r : skb_ring) (v : Z) : skb_ring :=
  mk_skb_ring (rlock r) (tail r) v (descs r) (head r) (wlock r).
Definition set_descs (r : skb_ring) (d : option (list skb_desc)) : skb_ring :=
  mk_skb_ring (rlock r) (tail r) (size r) d (head r) (wlock r).
Definition set_head (r : skb_ring) (v : Z) : skb_ring :=
  mk_skb_ring (rlock r) (tail r) (size r) (descs r) v (wlock r).
Definition set_wlock (r : skb_ring) (l : spinlock) : skb_ring :=
  mk_skb_ring (rlock r) (tail r) (size r) (descs r) (head r) l.

(** Taking a lock returns only when the lock is free. *)
Definition spin_lock (l : spinlock) : outcome spinlock :=
  match l with
  | Unlocked => Done Locked
  | Locked => Fail Deadlock
  | LockUninit => Fail BadAccess
  end.

Definition spin_unlock (_ : spinlock) : spinlock := Unlocked.

(** Modelled from the spec: [CIRC_CNT] and [CIRC_SPACE] of
    [<linux/circ_buf.h>], which the header includes, are not part of the
    sources at hand.  The count is "the gap between producer and consumer
    indices modulo capacity", taken with "a mask instead of a division":
    [((head) - (tail)) & ((size) - 1)].  The space is that header's
    [CIRC_CNT((tail), ((head) + 1), (size))], the count from the slot after
    [head] up to [tail], which keeps one slot free. *)
Definition CIRC_CNT (head tail size : Z) : Z :=
  Z.land (wrap_ulong (head - tail)) (wrap_ulong (size - 1)).

Definition CIRC_SPACE (head tail size : Z) : Z :=
  CIRC_CNT tail (wrap_ulong (head + 1)) size.

(** [(i + 1) & (ring->size - 1)] *)
Definition next_index (i size : Z) : Z :=
  Z.land (wrap_ulong (i + 1)) (wrap_ulong (size - 1)).

(** [ring->descs[i]], read and written. *)
Definition desc_load (r : skb_ring) (i : Z) : outcome skb_desc :=
  match descs r with
  | None => Fail BadAccess
  | Some ds =>
      match ds !! Z.to_nat i with
      | Some d => Done d
      | None => Fail BadAccess
      end
  end.

Definition desc_store (r : skb_ring) (i : Z) (d : skb_desc)
  : outcome skb_ring :=
  match descs r with
  | None => Fail BadAccess
  | Some ds =>
      if decide (Z.to_nat i < length ds)%nat
      then Done (set_descs r (Some (<[Z.to_nat i := d]> ds)))
      else Fail BadAccess
  end.

(** [sizeof (struct skb_desc)]: a pointer, an [int] and padding. *)
Definition sizeof_skb_desc : Z := 16.

(** [skb_ring_init]; [kmalloc] maps a byte count to the fresh array it
    returns, or to [None] when the allocation fails. *)
Definition skb_ring_init (kmalloc : Z -> option (list skb_desc))
    (r : skb_ring) (sz : Z) : Z * skb_ring :=
  let r := set_rlock r (spin_lock_init (rlock r)) in
  let r := set_wlock r (spin_lock_init (wlock r)) in
  let r := set_head r 0 in
  let r := set_tail r 0 in
  let r := set_descs r (kmalloc (wrap_ulong (sz * sizeof_skb_desc))) in
  match descs r with
  | None => (- ENOMEM, r)
  | Some _ => (0, set_size r sz)
  end.

(** [desc->field = ...] on [ring->descs[i]]. *)
Definition desc_update (r : skb_ring) (i : Z) (f : skb_desc -> skb_desc)
  : outcome skb_ring :=
  d ← desc_load r i; desc_store r i (f d).

(** [*p] for a packet pointer [p]. *)
Definition skb_load (skbs : gmap Z sk_buff) (p : Z) : outcome sk_buff :=
  match skbs !! p with
  | Some b => Done b
  | None => Fail BadAccess
  end.

(** [skb_ring_queue]; [skbs] is the memory holding the packets. *)
Definition skb_ring_queue (skbs : gmap Z sk_buff) (r : skb_ring) (p : Z)
  : outcome (Z * skb_ring) :=
  l ← spin_lock (wlock r);
  let r := set_wlock r l in
  let tl := tail r in
  let hd := head r in
  '(ret, r) ←
    (if 1 <=? CIRC_SPACE hd tl (size r) then
       r ← desc_update r hd (fun d => mk_skb_desc p (len d));
       b ← skb_load skbs p;
       r ← desc_update r hd
             (fun d => mk_skb_desc (skb d) (wrap_int (skb_len b)));
       r ← (if skb_vlan_tag_present b
            then desc_update r hd
                   (fun d => mk_skb_desc (skb d) (wrap_int (len d + VLAN_HLEN)))
            else Done r);
       Done (0, set_head r (next_index hd (size r)))
     else Done (- EFAULT, r));
  Done (ret, set_wlock r (spin_unlock (wlock r))).

(** The length a descriptor ends up caching for packet [b]. *)
Definition cached_len (b : sk_buff) : Z :=
  let l := wrap_int (skb_len b) in
  if skb_vlan_tag_present b then wrap_int (l + VLAN_HLEN) else l.

Definition skb_ring_dequeue (r : skb_ring) : outcome (Z * skb_ring) :=
  l ← spin_lock (rlock r);
  let r := set_rlock r l in
  let hd := head r in
  let tl := tail r in
  '(p, r) ←
    (if 1 <=? CIRC_CNT hd tl (size r) then
       d ← desc_load r tl;
       Done (skb d, set_tail r (next_index tl (size r)))
     else Done (NULL, r));
  Done (p, set_rlock r (spin_unlock (rlock r))).

(** The [while] loop of [skb_ring_purge].  [hd] and [tl] are the two
    locals, read once before the loop; the body stores to [ring->tail]
    and assigns neither local.  The first component lists the pointers
    handed to [kfree_skb], in call order, whether or not the loop ends. *)
Fixpoint purge_loop (fuel : nat) (hd tl : Z) (r : skb_ring)
  : list Z * outcome skb_ring :=
  if 1 <=? CIRC_CNT hd tl (size r) then
    match fuel with
    | O => ([], Fail OutOfFuel)
    | S fuel' =>
        match desc_load r tl with
        | Fail e => ([], Fail e)
        | Done d =>
            let r := set_tail r (next_index tl (size r)) in
            let '(freed, res) := purge_loop fuel' hd tl r in
            (skb d :: freed, res)
        end
    end
  else ([], Done r).

Definition skb_ring_purge (fuel : nat) (r : skb_ring)
  : list Z * outcome skb_ring :=
  match spin_lock (rlock r) with
  | Fail e => ([], Fail e)
  | Done l =>
      let r := set_rlock r l in
      match spin_lock (wlock r) with
      | Fail e => ([], Fail e)
      | Done l =>
          let r := set_wlock r l in
          let hd := head r in
          let tl := tail r in
          let '(freed, res) := purge_loop fuel hd tl r in
          (freed,
           r ← res;
           let r := set_wlock r (spin_unlock (wlock r)) in
           let r := set_rlock r (spin_unlock (rlock r)) in
           Done r)
      end
  end.

Definition skb_ring_empty (r : skb_ring) : bool := head r =? tail r.

(** [skb_ring_peek]: no lock taken, the packet itself is not read. *)
Definition skb_ring_peek (r : skb_ring) : outcome Z :=
  let hd := head r in
  let tl := tail r in
  if 1 <=? CIRC_CNT hd tl (size r) then
    d ← desc_load r tl; Done (len d)
  else Done 0.

(** [skb_ring_queue_len]: the count, converted to the [int] returned. *)
Definition skb_ring_queue_len (r : skb_ring) : Z :=
  wrap_int (CIRC_CNT (head r) (tail r) (size r)).

(** ** What a packet ring holds *)

Definition is_pow2 (n : Z) : Prop := exists k, 0 <= k < 64 /\ n = 2 ^ k.

(** [holds r q]: the ring is well formed, no lock is held, and the
    resident descriptors, oldest first, are [q], stored from [tail] on. *)
Definition holds (r : skb_ring) (q : list skb_desc) : Prop :=
  is_pow2 (size r) /\
  0 <= tail r < size r /\
  0 <= head r < size r /\
  rlock r = Unlocked /\
  wlock r = Unlocked /\
  Z.of_nat (length q) = (head r - tail r) mod size r /\
  exists ds,
    descs r = Some ds /\
    Z.of_nat (length ds) = size r /\
    forall (j : nat) (d : skb_desc), q !! j = Some d ->
      ds !! Z.to_nat ((tail r + Z.of_nat j) mod size r) = Some d.

(** The descriptor a successful queue of [p] leaves in the ring. *)
Definition desc_of (skbs : gmap Z sk_buff) (p : Z) : skb_desc :=
  mk_skb_desc p (from_option cached_len 0 (skbs !! p)).

(** Consecutive [skb_ring_queue] calls, one per packet pointer. *)
Fixpoint queue_seq (skbs : gmap Z sk_buff) (r : skb_ring) (ps : list Z)
  : outcome (list Z * skb_ring) :=
  match ps with
  | [] => Done ([], r)
  | p :: ps' =>
      '(ret, r1) ← skb_ring_queue skbs r p;
      '(rets, r2) ← queue_seq skbs r1 ps';
      Done (ret :: rets, r2)
  end.

(** [n] consecutive [skb_ring_dequeue] calls. *)
Fixpoint dequeue_seq (n : nat) (r : skb_ring) : outcome (list Z * skb_ring) :=
  match n with
  | O => Done ([], r)
  | S n' =>
      '(p, r1) ← skb_ring_dequeue r;
      '(ps, r2) ← dequeue_seq n' r1;
      Done (p :: ps, r2)
  end.

(** The states a ring of [n] descriptors goes through: a successful
    [skb_ring_init] whose allocation provides the [n] descriptors asked
    for, then any interleaving of queue and dequeue calls that return. *)
Inductive reachable (n : Z) : skb_ring -> Prop :=
| reach_init kmalloc r0 r ds :
    skb_ring_init kmalloc r0 n = (0, r) ->
    descs r = Some ds ->
    Z.of_nat (length ds) = n ->
    reachable n r
| reach_queue skbs r p ret r' :
    reachable n r ->
    skb_ring_queue skbs r p = Done (ret, r') ->
    reachable n r'
| reach_dequeue r p r' :
    reachable n r ->
    skb_ring_dequeue r = Done (p, r') ->
    reachable n r'.

End SkbRing.

(** * Concrete rings *)

Module Examples.
Import CoreRing.

(** A pointer ring with its slots at address 64. *)
Definition fns64 : ring_fns (gmap Z Z) := PtrTable.ptr_fns 64.

(** Memory with cleared slots and five pointers in caller buffers at
    1000, 1008, ..., 1032. *)
Definition mem5 : gmap Z Z :=
  list_to_map [(1000, 11); (1008, 22); (1016, 33); (1024, 44); (1032, 55)].

(** An empty ring of four 8-byte slots, and one of no slot at all. *)
Definition state4 : state (gmap Z Z) :=
  mk_state (mk_core_ring 0 Unlocked 0 Unlocked 4 8) mem5 [].

Definition state0 : state (gmap Z Z) :=
  mk_state (core_ring_init (mk_core_ring 0 LockUninit 0 LockUninit 0 8) 0).2
           mem5 [].

(** The ring of four slots holding the pointers found at 1000 and 1008. *)
Definition state4_two : state (gmap Z Z) :=
  (produce_seq fns64 state4 [1000; 1008]).2.

(** Packets, an allocator that always succeeds, one that always fails,
    and a structure not yet initialised. *)
Definition skbs4 : gmap Z SkbRing.sk_buff :=
  list_to_map [(4096, SkbRing.mk_sk_buff 60 false);
               (4352, SkbRing.mk_sk_buff 1500 true);
               (4608, SkbRing.mk_sk_buff 64 false);
               (4864, SkbRing.mk_sk_buff 128 true)].

Definition kmalloc_ok (bytes : Z) : option (list SkbRing.skb_desc) :=
  Some (replicate (Z.to_nat (bytes / SkbRing.sizeof_skb_desc))
                  (SkbRing.mk_skb_desc 0 0)).

Definition kmalloc_fail (_ : Z) : option (list SkbRing.skb_desc) := None.

Definition skb_raw : SkbRing.skb_ring :=
  SkbRing.mk_skb_ring LockUninit 5 7 None 3 LockUninit.

(** A packet ring of capacity 4, empty, and the same after one queue. *)
Definition skb4 : SkbRing.skb_ring :=
  (SkbRing.skb_ring_init kmalloc_ok skb_raw 4).2.

Definition skb4_one : SkbRing.skb_ring :=
  SkbRing.mk_skb_ring Unlocked 0 4
    (Some [SkbRing.mk_skb_desc 4352 1504; SkbRing.mk_skb_desc 0 0;
           SkbRing.mk_skb_desc 0 0; SkbRing.mk_skb_desc 0 0])
    1 Unlocked.

End Examples.


(** * The rest of the index-based ring header

    The operations of [core_ring.h] beside the ones above: the peek, and
    the variants that take the producer or the consumer lock around an
    operation.  The [_irq], [_bh] and [_any] variants differ from the plain
    ones only in the locking primitive used, which a sequential run cannot
    tell apart; [core_ring_consume_any], [core_ring_consume_bh] and
    [core_ring_cleanup] do not match the functions they call (an argument
    is missing, [destroy] is declared nowhere) and are left out. *)

Module CoreRingApi.
Import SkbRing.
Import CoreRing.

(** [f <$> o]: the outcome with [f] applied to the value returned. *)
#[export] Instance outcome_fmap : FMap outcome := fun A B f o =>
  match o with
  | Done a => Done (f a)
  | Fail e => Fail e
  end.

Definition set_producer_lock (r : core_ring) (l : spinlock) : core_ring :=
  mk_core_ring (producer r) l (consumer r) (consumer_lock r)
               (CoreRing.size r) (entry_size r).

Definition set_consumer_lock (r : core_ring) (l : spinlock) : core_ring :=
  mk_core_ring (producer r) (producer_lock r) (consumer r) l
               (CoreRing.size r) (entry_size r).

Section Api.
Context {M : Type} (fns : ring_fns M).

(** [spin_lock(&r->producer_lock); ...; spin_unlock(&r->producer_lock)]
    around an operation [op] that returns a value of type [A]. *)
Definition with_producer_lock {A : Type} (op : state M -> A * state M)
    (s : state M) : outcome (A * state M) :=
  l ← spin_lock (producer_lock (ring s));
  let s := with_ring s (set_producer_lock (ring s) l) in
  let '(ret, s) := op s in
  Done (ret,
        with_ring s
          (set_producer_lock (ring s) (spin_unlock (producer_lock (ring s))))).

Definition with_consumer_lock {A : Type} (op : state M -> A * state M)
    (s : state M) : outcome (A * state M) :=
  l ← spin_lock (consumer_lock (ring s));
  let s := with_ring s (set_consumer_lock (ring s) l) in
  let '(ret, s) := op s in
  Done (ret,
        with_ring s
          (set_consumer_lock (ring s) (spin_unlock (consumer_lock (ring s))))).

Definition core_ring_full (s : state M) : outcome (bool * state M) :=
  with_producer_lock (__core_ring_full fns) s.

Definition core_ring_produce (s : state M) (ptr : Z)
  : outcome (Z * state M) :=
  with_producer_lock (fun s => __core_ring_produce fns s ptr) s.

Definition core_ring_empty (s : state M) : outcome (bool * state M) :=
  with_consumer_lock (__core_ring_empty fns) s.

Definition core_ring_consume (s : state M) (ptr : Z)
  : outcome (Z * state M) :=
  with_consumer_lock (fun s => __core_ring_consume fns s ptr) s.

Definition core_ring_consume_batched (s : state M) (array n : Z)
  : outcome (Z * state M) :=
  with_consumer_lock (fun s => __core_ring_consume_batched fns s array n) s.

(** [__core_ring_peek]: [NULL] when the size is zero or the ring is empty
    (the emptiness test is skipped at size zero), else the pointer stored
    in the consumer slot, [*addr].  [deref m a] is the pointer-sized word
    memory [m] holds at address [a].  The header declares the parameter
    as [struct genric_ring *] and passes a bare [consumer] to [seek_fn];
    [struct core_ring *] and [r->consumer] are meant. *)
Definition __core_ring_peek (deref : M -> Z -> Z) (s : state M)
  : Z * state M :=
  if CoreRing.size (ring s) =? 0 then (NULL, s)
  else
    let '(empty, s1) := __core_ring_empty fns s in
    if empty then (NULL, s1)
    else
      let '(addr, s2) := call_seek fns s1 (consumer (ring s1)) in
      (deref (mem s2) addr, s2).

(** [PTR_RING_PEEK_CALL(r, f)]: [f] applied to the peeked pointer, under
    the consumer lock. *)
Definition PTR_RING_PEEK_CALL {A : Type} (deref : M -> Z -> Z) (f : Z -> A)
    (s : state M) : outcome (A * state M) :=
  with_consumer_lock
    (fun s => let '(p, s1) := __core_ring_peek deref s in (f p, s1)) s.

End Api.

(** ** A bounded queue to compare the rings with *)

Inductive fifo_op (A : Type) : Type :=
| Push (a : A)
| Pop.
Arguments Push {A}.
Arguments Pop {A}.

Inductive fifo_out (A : Type) : Type :=
| Pushed (accepted : bool)
| Popped (a : option A).
Arguments Pushed {A}.
Arguments Popped {A}.

(** A list of at most [cap] elements, pushed at the back, popped at the
    front. *)
Definition fifo_step {A : Type} (cap : nat) (q : list A) (op : fifo_op A)
  : fifo_out A * list A :=
  match op with
  | Push a =>
      if decide (length q < cap)%nat then (Pushed true, q ++ [a])
      else (Pushed false, q)
  | Pop =>
      match q with
      | [] => (Popped None, [])
      | a :: q' => (Popped (Some a), q')
      end
  end.

Fixpoint fifo_run {A : Type} (cap : nat) (q : list A) (ops : list (fifo_op A))
  : list (fifo_out A) * list A :=
  match ops with
  | [] => ([], q)
  | op :: ops' =>
      let '(out, q1) := fifo_step cap q op in
      let '(outs, q2) := fifo_run cap q1 ops' in
      (out :: outs, q2)
  end.

(** ** Runs of mixed calls on the index-based ring *)

Inductive ring_op : Set :=
| OpProduce (src : Z)   (* __core_ring_produce(r, src) *)
| OpConsume (dst : Z).  (* __core_ring_consume(r, dst) *)

Definition op_srcs (ops : list ring_op) : list Z :=
  omap (fun op => match op with OpProduce a => Some a | _ => None end) ops.

Definition op_dsts (ops : list ring_op) : list Z :=
  omap (fun op => match op with OpConsume a => Some a | _ => None end) ops.

Section Runs.
Context {M E : Type} (fns : ring_fns M) (load : M -> Z -> E).

(** What the caller sees of each call: the code a produce returns, the
    entry a consume delivers. *)
Fixpoint run_ops (s : state M) (ops : list ring_op)
  : list (Z + option E) * state M :=
  match ops with
  | [] => ([], s)
  | OpProduce src :: ops' =>
      let '(ret, s1) := __core_ring_produce fns s src in
      let '(outs, s2) := run_ops s1 ops' in
      (inl ret :: outs, s2)
  | OpConsume dst :: ops' =>
      let '(e, s1) := consume_entry fns load s dst in
      let '(outs, s2) := run_ops s1 ops' in
      (inr e :: outs, s2)
  end.

(** The same calls on the bounded queue: a produce pushes the entry found
    at its source. *)
Definition to_fifo_op (m : M) (op : ring_op) : fifo_op E :=
  match op with
  | OpProduce src => Push (load m src)
  | OpConsume _ => Pop
  end.

Definition core_out (o : fifo_out E) : Z + option E :=
  match o with
  | Pushed true => inl 0
  | Pushed false => inl (- ENOSPC)
  | Popped e => inr e
  end.

End Runs.

End CoreRingApi.

(** * Runs of mixed calls on the packet ring *)

Module SkbRingRuns.
Import SkbRing CoreRingApi.

Inductive skb_op : Set :=
| OpQueue (p : Z)   (* skb_ring_queue(ring, p) *)
| OpDequeue.        (* skb_ring_dequeue(ring) *)

(** The value each call returns: the code of a queue, the pointer of a
    dequeue. *)
Fixpoint run_skb_ops (skbs : gmap Z sk_buff) (r : skb_ring)
    (ops : list skb_op) : outcome (list Z * skb_ring) :=
  match ops with
  | [] => Done ([], r)
  | OpQueue p :: ops' =>
      '(ret, r1) ← skb_ring_queue skbs r p;
      '(outs, r2) ← run_skb_ops skbs r1 ops';
      Done (ret :: outs, r2)
  | OpDequeue :: ops' =>
      '(p, r1) ← skb_ring_dequeue r;
      '(outs, r2) ← run_skb_ops skbs r1 ops';
      Done (p :: outs, r2)
  end.

Definition to_skb_fifo_op (skbs : gmap Z sk_buff) (op : skb_op)
  : fifo_op skb_desc :=
  match op with
  | OpQueue p => Push (desc_of skbs p)
  | OpDequeue => Pop
  end.

Definition skb_out (o : fifo_out skb_desc) : Z :=
  match o with
  | Pushed true => 0
  | Pushed false => - EFAULT
  | Popped None => NULL
  | Popped (Some d) => skb d
  end.

Definition queued (ops : list skb_op) : list Z :=
  omap (fun op => match op with OpQueue p => Some p | _ => None end) ops.

End SkbRingRuns.

(** * The vhost-user client of [net/vhost-user.c]

    The part of [net/vhost-user.c] above the packet ring: the state of a
    vhost-user network backend with one peer per queue, started when its
    character device opens and stopped when it closes.  The calls into
    the rest of QEMU ([vhost_net_init], [vhost_net_cleanup], ...) are
    recorded in a log of events; what they return is a parameter. *)

Module VhostUser.
Import SkbRing.

Record VhostUserNetPeer : Set := mk_peer {
  nc : Z;         (* NetClientState * *)
  vhost_net : Z;  (* VHostNetState * *)
}.

(** [struct VhostUserState]; [peers] is the flexible array member, as
    long as the allocation made it. *)
Record VhostUserState : Set := mk_vhost_user {
  chr : Z;        (* CharDriverState * *)
  running : bool;
  queues : Z;     (* int *)
  peers : list VhostUserNetPeer;
}.

Definition set_running (s : VhostUserState) (b : bool) : VhostUserState :=
  mk_vhost_user (chr s) b (queues s) (peers s).

Definition set_peers (s : VhostUserState) (ps : list VhostUserNetPeer)
  : VhostUserState :=
  mk_vhost_user (chr s) (running s) (queues s) ps.

(** The calls that leave the file. *)
Inductive event : Set :=
| EvInit (opaque net_backend : Z)  (* vhost_net_init(&options) *)
| EvCleanup (net : Z)              (* vhost_net_cleanup(net) *)
| EvReport (max_queues : Z)        (* error_report(..., max_queues) *)
| EvPurge (nc : Z)                 (* qemu_purge_queued_packets(nc) *)
| EvFree.                          (* free(s) *)

(** [s->peers[i]], read, and [s->peers[i].vhost_net = net]. *)
Definition peer_load (s : VhostUserState) (i : Z)
  : outcome VhostUserNetPeer :=
  if i <? 0 then Fail BadAccess
  else
    match peers s !! Z.to_nat i with
    | Some p => Done p
    | None => Fail BadAccess
    end.

Definition peer_set_vhost_net (s : VhostUserState) (i net : Z)
  : outcome VhostUserState :=
  p ← peer_load s i;
  Done (set_peers s (<[Z.to_nat i := mk_peer (nc p) net]> (peers s))).

(** [vhost_user_get_vhost_net], for a client [nc] of this backend (the
    function asserts that it is one) with [nc->queue_index] equal to
    [queue_index]. *)
Definition vhost_user_get_vhost_net (s : VhostUserState) (queue_index : Z)
  : outcome Z :=
  p ← peer_load s queue_index; Done (vhost_net p).

Section Start.
(** [vhost_net_init opaque net_backend] is the pointer [vhost_net_init]
    returns for these options ([NULL] on failure), and
    [vhost_net_get_max_queues net] the number of queues of [net]. *)
Context (vhost_net_init : Z -> Z -> Z) (vhost_net_get_max_queues : Z -> Z).

(** The [for] loop of [vhost_user_start], from index [i] on.  [i] stays
    below the [int] [s->queues], so [i++] cannot wrap. *)
Fixpoint start_loop (fuel : nat) (i : Z) (s : VhostUserState)
    (log : list event) : outcome (Z * VhostUserState * list event) :=
  if i <? queues s then
    match fuel with
    | O => Fail OutOfFuel
    | S fuel' =>
        p ← peer_load s i;
        let net := vhost_net_init (chr s) (nc p) in
        let log := log ++ [EvInit (chr s) (nc p)] in
        s ← peer_set_vhost_net s i net;
        if net =? NULL then Done (-1, s, log)
        else start_loop fuel' (i + 1) s log
    end
  else Done (0, set_running s true, log).

Definition vhost_user_start (s : VhostUserState) (log : list event)
  : outcome (Z * VhostUserState * list event) :=
  if running s then Done (0, s, log)
  else
    p ← peer_load s 0;
    let net := vhost_net_init (chr s) (nc p) in
    let log := log ++ [EvInit (chr s) (nc p)] in
    s ← peer_set_vhost_net s 0 net;
    let max_queues := vhost_net_get_max_queues net in
    if max_queues <=? queues s then
      Done (-1, s, log ++ [EvReport max_queues])
    else start_loop (Z.to_nat (queues s)) 1 s log.

End Start.

(** The [for] loop of [vhost_user_stop], from index [i] on. *)
Fixpoint stop_loop (fuel : nat) (i : Z) (s : VhostUserState)
    (log : list event) : outcome (list event) :=
  if i <? queues s then
    match fuel with
    | O => Fail OutOfFuel
    | S fuel' =>
        p ← peer_load s i;
        let log :=
          if vhost_net p =? NULL then log
          else log ++ [EvCleanup (vhost_net p)] in
        stop_loop fuel' (i + 1) s log
    end
  else Done log.

Definition vhost_user_stop (s : VhostUserState) (log : list event)
  : outcome (VhostUserState * list event) :=
  if negb (running s) then Done (s, log)
  else
    log ← stop_loop (Z.to_nat (queues s)) 0 s log;
    Done (set_running s false, log).

(** [vhost_user_cleanup] for the client at address [nc_ptr] with
    [nc->queue_index] equal to [queue_index]; the state is gone ([None])
    once the client of the last queue is cleaned up. *)
Definition vhost_user_cleanup (s : VhostUserState) (nc_ptr queue_index : Z)
    (log : list event) : outcome (option VhostUserState * list event) :=
  p ← peer_load s queue_index;
  let log :=
    if vhost_net p =? NULL then log
    else log ++ [EvCleanup (vhost_net p)] in
  let log := log ++ [EvPurge nc_ptr] in
  if queue_index =? queues s - 1 then Done (None, log ++ [EvFree])
  else Done (Some s, log).

(** ** The character device behind the backend *)

Record VhostUserChardevProps : Set := mk_props {
  is_socket : bool;
  is_unix : bool;
  is_server : bool;
}.

(** The three [error_setg] of the file's character-device checks. *)
Inductive chardev_error : Set :=
| ErrNotFound (chardev : string)
| ErrOption (name value : string)
| ErrNotUnixSocket (chardev : string).

(** [net_vhost_chardev_opts]: the return value, the properties and the
    error set, if any. *)
Definition net_vhost_chardev_opts (props : VhostUserChardevProps)
    (name value : string)
  : Z * VhostUserChardevProps * option chardev_error :=
  if String.eqb name "backend" && String.eqb value "socket" then
    (0, mk_props true (is_unix props) (is_server props), None)
  else if String.eqb name "path" then
    (0, mk_props (is_socket props) true (is_server props), None)
  else if String.eqb name "server" then
    (0, mk_props (is_socket props) (is_unix props) true, None)
  else (-1, props, Some (ErrOption name value)).

(** [qemu_opt_foreach] is not part of the sources at hand.  It is taken
    to do what QEMU documents for it: call the function on each option
    in turn, stop at the first call that returns non-zero and return
    that value, and return zero when no call does. *)
Fixpoint qemu_opt_foreach (opts : list (string * string))
    (props : VhostUserChardevProps)
  : Z * VhostUserChardevProps * option chardev_error :=
  match opts with
  | [] => (0, props, None)
  | (name, value) :: opts' =>
      let '(rc, props1, err) := net_vhost_chardev_opts props name value in
      if rc =? 0 then qemu_opt_foreach opts' props1
      else (rc, props1, err)
  end.

(** A character device: its label and its options, in order. *)
Record CharDriverState : Set := mk_chr {
  chr_label : string;
  chr_opts : list (string * string);
}.

(** [net_vhost_parse_chardev]: the pointer returned ([None] for [NULL])
    and the error set, if any.  A device that is returned has been
    claimed for this backend with [qemu_chr_fe_claim_no_fail]. *)
Definition net_vhost_parse_chardev
    (qemu_chr_find : string -> option CharDriverState) (chardev : string)
  : option CharDriverState * option chardev_error :=
  match qemu_chr_find chardev with
  | None => (None, Some (ErrNotFound chardev))
  | Some c =>
      let '(rc, props, err) :=
        qemu_opt_foreach (chr_opts c) (mk_props false false false) in
      if negb (rc =? 0) then (None, err)
      else if negb (is_socket props) || negb (is_unix props) then
        (None, Some (ErrNotUnixSocket chardev))
      else (Some c, None)
  end.

(** The options [net_vhost_chardev_opts] accepts. *)
Definition supported_opt (o : string * string) : Prop :=
  (o.1 = "backend" /\ o.2 = "socket") \/ o.1 = "path" \/ o.1 = "server".

End VhostUser.

(** * A concrete vhost-user backend *)

Module VhostExamples.
Import VhostUser.

(** Three queues on the character device at 7, not yet started. *)
Definition vhost3 : VhostUserState :=
  mk_vhost_user 7 false 3 [mk_peer 100 0; mk_peer 200 0; mk_peer 300 0].

(** The same backend, running, with a net behind each peer. *)
Definition vhost3_up : VhostUserState :=
  mk_vhost_user 7 true 3 [mk_peer 100 101; mk_peer 200 201; mk_peer 300 301].

(** Every initialisation succeeds, and a net has eight queues. *)
Definition init_ok (opaque net_backend : Z) : Z := net_backend + 1.
Definition max_queues_8 (net : Z) : Z := 8.

(** Two character devices: a unix socket and a UDP one. *)
Definition chr_find (name : string) : option CharDriverState :=
  if String.eqb name "chr0" then
    Some (mk_chr "chr0"
            [("backend", "socket"); ("path", "/tmp/vhost.sock");
             ("server", "on")])
  else if String.eqb name "chr1" then
    Some (mk_chr "chr1" [("backend", "udp"); ("port", "4000")])
  else None.

End VhostExamples.

(** * The frontend check of the vhost-user client

    [net_init_vhost_user] refuses a backend whose frontend is not a
    virtio network device: it runs [net_vhost_check_net] over the
    options of every device. *)

Module VhostFrontend.

Inductive net_error : Set :=
| ErrNotVirtioNet.  (* "vhost-user requires frontend driver virtio-net-*" *)

(** [net_vhost_check_net] for the backend called [name], on a device
    whose options give [driver] and [netdev] ([None] where [qemu_opt_get]
    returns [NULL]): the return value and the error set, if any. *)
Definition net_vhost_check_net (name : string)
    (driver netdev : option string) : Z * option net_error :=
  match driver, netdev with
  | Some d, Some n =>
      if String.eqb n name && negb (String.prefix "virtio-net-" d)
      then (-1, Some ErrNotVirtioNet)
      else (0, None)
  | _, _ => (0, None)
  end.

(** [qemu_opts_foreach] over the devices, each given by its [driver] and
    [netdev] options.  Like [qemu_opt_foreach] it is not part of the
    sources at hand, and is taken to stop at the first device for which
    the function returns non-zero and to return that value. *)
Fixpoint qemu_opts_foreach (devices : list (option string * option string))
    (name : string) : Z * option net_error :=
  match devices with
  | [] => (0, None)
  | (driver, netdev) :: devices' =>
      let '(rc, err) := net_vhost_check_net name driver netdev in
      if rc =? 0 then qemu_opts_foreach devices' name else (rc, err)
  end.

End VhostFrontend.

(** * The XDP tunnel sample of [samples/bpf/xdp_tx_iptunnel_kern.c]

    The program looks at one packet through [struct xdp_md] and answers
    with an action.  The packet lies in a buffer of bytes; [data] and
    [data_end] are offsets into that buffer, and an access outside
    [data, data_end) is a fault (the kernel refuses to load a program
    that could make one).  The structures the program casts the packet
    to come from headers that are not part of the sources at hand; they
    are laid out as those headers lay them out:
    [struct ethhdr] is [h_dest] (6 bytes), [h_source] (6), [h_proto] (2);
    [struct iphdr] is the version and length nibbles (1), [tos] (1),
    [tot_len] (2), [id] (2), [frag_off] (2), [ttl] (1), [protocol] (1),
    [check] (2), [saddr] (4), [daddr] (4);
    [struct tcphdr] (20 bytes) and [struct udphdr] (8 bytes) both have
    [dest] at offset 2. *)

Module XdpTunnel.
Import SkbRing.

Definition XDP_DROP : Z := 1.
Definition XDP_PASS : Z := 2.
Definition XDP_TX : Z := 3.

Definition ETH_P_IP : Z := 2048.      (* 0x0800 *)
Definition AF_INET : Z := 2.
Definition IPPROTO_IPIP : Z := 4.
Definition IPPROTO_TCP : Z := 6.
Definition IPPROTO_UDP : Z := 17.

Definition sizeof_ethhdr : Z := 14.
Definition sizeof_iphdr : Z := 20.
Definition sizeof_tcphdr : Z := 20.
Definition sizeof_udphdr : Z := 8.

Record xdp_md : Set := mk_xdp {
  buf : list Z;   (* the bytes of the buffer, from its first one *)
  data : Z;
  data_end : Z;
}.

Definition set_buf (x : xdp_md) (b : list Z) : xdp_md :=
  mk_xdp b (data x) (data_end x).

(** ** Access to the packet *)

Definition in_packet (x : xdp_md) (a : Z) : bool :=
  (0 <=? a) && (data x <=? a) && (a <? data_end x).

Definition load8 (x : xdp_md) (a : Z) : outcome Z :=
  if in_packet x a then
    match buf x !! Z.to_nat a with
    | Some b => Done b
    | None => Fail BadAccess
    end
  else Fail BadAccess.

Definition store8 (x : xdp_md) (a v : Z) : outcome xdp_md :=
  if in_packet x a && bool_decide (Z.to_nat a < length (buf x))%nat then
    Done (set_buf x (<[Z.to_nat a := v mod 256]> (buf x)))
  else Fail BadAccess.

Section Host.
(** The byte order of the machine the program runs on. *)
Context (little_endian : bool).

(** A 16-bit value from its two bytes in memory order, and back. *)
Definition word16 (b0 b1 : Z) : Z :=
  if little_endian then b0 + 256 * b1 else 256 * b0 + b1.

Definition byte0 (v : Z) : Z :=
  if little_endian then v mod 256 else (v / 256) mod 256.
Definition byte1 (v : Z) : Z :=
  if little_endian then (v / 256) mod 256 else v mod 256.

Definition load16 (x : xdp_md) (a : Z) : outcome Z :=
  b0 ← load8 x a; b1 ← load8 x (a + 1); Done (word16 b0 b1).

Definition store16 (x : xdp_md) (a v : Z) : outcome xdp_md :=
  x ← store8 x a (byte0 v); store8 x (a + 1) (byte1 v).

Definition load32 (x : xdp_md) (a : Z) : outcome Z :=
  w0 ← load16 x a; w1 ← load16 x (a + 2);
  Done (if little_endian then w0 + 65536 * w1 else 65536 * w0 + w1).

Definition store32 (x : xdp_md) (a v : Z) : outcome xdp_md :=
  let lo := v mod 65536 in
  let hi := (v / 65536) mod 65536 in
  x ← store16 x a (if little_endian then lo else hi);
  store16 x (a + 2) (if little_endian then hi else lo).

(** [htons] and [ntohs] on a 16-bit value. *)
Definition htons (v : Z) : Z :=
  let v := v mod 65536 in
  if little_endian then (v mod 256) * 256 + v / 256 else v.
Definition ntohs (v : Z) : Z := htons v.

(** [memcpy(dst, src, n)] within the packet, byte by byte. *)
Fixpoint memcpy (x : xdp_md) (dst src : Z) (n : nat) : outcome xdp_md :=
  match n with
  | O => Done x
  | S n' =>
      b ← load8 x src;
      x ← store8 x dst b;
      memcpy x (dst + 1) (src + 1) n'
  end.

(** The same from an array of the program's own. *)
Fixpoint memcpy_from (x : xdp_md) (dst : Z) (bytes : list Z)
  : outcome xdp_md :=
  match bytes with
  | [] => Done x
  | b :: bytes' => x ← store8 x dst b; memcpy_from x (dst + 1) bytes'
  end.

(** [count_tx]: [rxcnt] is an array map; a lookup finds the counter of
    a key below the number of entries.  The counter is a [u64]. *)
Definition count_tx (rxcnt : list Z) (protocol : Z) : list Z :=
  match rxcnt !! Z.to_nat protocol with
  | Some c => <[Z.to_nat protocol := wrap_ulong (c + 1)]> rxcnt
  | None => rxcnt
  end.

(** [get_dport]; the port is returned as it lies in memory. *)
Definition get_dport (x : xdp_md) (trans_data data_end protocol : Z)
  : outcome Z :=
  if protocol =? IPPROTO_TCP then
    if data_end <? trans_data + sizeof_tcphdr then Done (-1)
    else load16 x (trans_data + 2)
  else if protocol =? IPPROTO_UDP then
    if data_end <? trans_data + sizeof_udphdr then Done (-1)
    else load16 x (trans_data + 2)
  else Done 0.

Definition set_ethhdr (x : xdp_md) (new_eth old_eth h_proto : Z)
  : outcome xdp_md :=
  x ← memcpy x (new_eth + 6) old_eth 6;
  x ← memcpy_from x new_eth [255; 255; 255; 255; 255; 255];
  store16 x (new_eth + 12) h_proto.

(** The loop that adds up the ten 16-bit words of the header, in a
    [u32]. *)
Fixpoint csum_loop (x : xdp_md) (next_iph_u16 : Z) (n : nat) (csum : Z)
  : outcome Z :=
  match n with
  | O => Done csum
  | S n' =>
      w ← load16 x next_iph_u16;
      csum_loop x (next_iph_u16 + 2) n' ((csum + w) mod 2 ^ 32)
  end.

(** The sum of the 16-bit words of [bytes], each read as the machine
    reads it. *)
Fixpoint host_sum (bytes : list Z) : Z :=
  match bytes with
  | b0 :: b1 :: rest => word16 b0 b1 + host_sum rest
  | _ => 0
  end.

(** The value stored in [iph->check]: the complement, in a [u32], of
    the sum folded once; the store keeps its low 16 bits. *)
Definition csum_fold (csum : Z) : Z :=
  2 ^ 32 - 1 - (Z.land csum 65535 + Z.shiftr csum 16).

Section Program.
(** [bpf_xdp_adjust_head xdp delta]: the helper's return value and what
    it makes of [xdp]. *)
Context (bpf_xdp_adjust_head : xdp_md -> Z -> Z * xdp_md).

(** [handle_ipv4].  The local [vip] is filled in and, of its fields,
    only [vip.protocol] is used afterwards. *)
Definition handle_ipv4 (x : xdp_md) (rxcnt : list Z)
  : outcome (Z * xdp_md * list Z) :=
  let iph := data x + sizeof_ethhdr in
  if data_end x <? iph + sizeof_iphdr then Done (XDP_DROP, x, rxcnt)
  else
    protocol ← load8 x (iph + 9);
    dport ← get_dport x (iph + sizeof_iphdr) (data_end x) protocol;
    if dport =? -1 then Done (XDP_DROP, x, rxcnt)
    else
      vip_protocol ← load8 x (iph + 9);
      vip_daddr ← load32 x (iph + 16);
      tot_len ← load16 x (iph + 2);
      let payload_len := ntohs tot_len in
      let '(rc, x) := bpf_xdp_adjust_head x (0 - sizeof_iphdr) in
      if negb (rc =? 0) then Done (XDP_DROP, x, rxcnt)
      else
        let new_eth := data x in
        let iph := data x + sizeof_ethhdr in
        let old_eth := data x + sizeof_iphdr in
        if (data_end x <? new_eth + sizeof_ethhdr)
           || (data_end x <? old_eth + sizeof_ethhdr)
           || (data_end x <? iph + sizeof_iphdr)
        then Done (XDP_DROP, x, rxcnt)
        else
          x ← set_ethhdr x new_eth old_eth (htons ETH_P_IP);
          (* iph->version = 0x4 *)
          b ← load8 x iph;
          x ← store8 x iph (Z.lor (Z.land b 15) (Z.shiftl 4 4));
          (* iph->ihl = sizeof iph >> 2 *)
          b ← load8 x iph;
          x ← store8 x iph
                (Z.lor (Z.land b 240) (Z.shiftr sizeof_iphdr 2));
          x ← store16 x (iph + 6) 0;                (* frag_off *)
          x ← store8 x (iph + 9) IPPROTO_IPIP;      (* protocol *)
          x ← store16 x (iph + 10) 0;               (* check *)
          x ← store8 x (iph + 1) 0;                 (* tos *)
          x ← store16 x (iph + 2)
                (htons (payload_len + sizeof_iphdr)); (* tot_len *)
          x ← store32 x (iph + 16) 4294967295;      (* daddr *)
          x ← store32 x (iph + 12) 4294967295;      (* saddr *)
          x ← store8 x (iph + 8) 8;                 (* ttl *)
          csum ← csum_loop x iph (Z.to_nat (Z.shiftr sizeof_iphdr 1)) 0;
          x ← store16 x (iph + 10) (csum_fold csum);
          Done (XDP_TX, x, count_tx rxcnt vip_protocol).

Definition _xdp_tx_iptunnel (x : xdp_md) (rxcnt : list Z)
  : outcome (Z * xdp_md * list Z) :=
  if data_end x <? data x + sizeof_ethhdr then Done (XDP_DROP, x, rxcnt)
  else
    h_proto ← load16 x (data x + 12);
    if h_proto =? htons ETH_P_IP then handle_ipv4 x rxcnt
    else Done (XDP_PASS, x, rxcnt).

End Program.
End Host.

(** ** Well-formed buffers and valid headers *)

(** Every byte is a byte and the packet lies inside the buffer. *)
Definition wf (x : xdp_md) : Prop :=
  Forall (fun b => 0 <= b < 256) (buf x) /\
  0 <= data x /\
  data_end x <= Z.of_nat (length (buf x)).

(** [x'] has the frame of [x]: other bytes, maybe, in a buffer of the
    same shape. *)
Definition same_frame (x' x : xdp_md) : Prop :=
  data x' = data x /\ data_end x' = data_end x /\ wf x'.

(** The packet: the bytes from [data] to [data_end]. *)
Definition packet (x : xdp_md) : list Z :=
  take (Z.to_nat (data_end x - data x)) (drop (Z.to_nat (data x)) (buf x)).

(** The Internet checksum of a header: its 16-bit words, taken in
    network order, add up to [0xffff] once the carries are folded back
    in. *)
Fixpoint sum16 (bytes : list Z) : Z :=
  match bytes with
  | b0 :: b1 :: rest => 256 * b0 + b1 + sum16 rest
  | _ => 0
  end.

Definition fold16 (v : Z) : Z := v mod 65536 + v / 65536.

Definition ip_checksum_ok (header : list Z) : bool :=
  fold16 (fold16 (sum16 header)) =? 65535.

End XdpTunnel.

(** * Concrete frames for the XDP tunnel sample *)

Module XdpExamples.
Import XdpTunnel.

(** The helper as the kernel provides it: the start of the packet moves
    by [delta] when that leaves it inside the buffer and leaves room for
    an Ethernet header; otherwise nothing changes and [-EINVAL] is
    returned. *)
Definition adjust_head (x : xdp_md) (delta : Z) : Z * xdp_md :=
  if (0 <=? data x + delta) && (data x + delta <=? data_end x - 14)
  then (0, mk_xdp (buf x) (data x + delta) (data_end x))
  else (- EINVAL, x).

Definition mac_bytes : list Z := [1; 2; 3; 4; 5; 6; 7; 8; 9; 10; 11; 12].

(** An IP header of a UDP datagram of 32 bytes, from 10.0.0.1 to
    10.0.0.2. *)
Definition ip_bytes : list Z :=
  [69; 0; 0; 32; 0; 1; 0; 0; 64; 17; 0; 0; 10; 0; 0; 1; 10; 0; 0; 2].

(** A UDP header and four bytes of payload. *)
Definition udp_bytes : list Z := [0; 53; 0; 53; 0; 12; 0; 0; 1; 2; 3; 4].

(** A buffer with 24 bytes of room, the frame, and 2 bytes after it. *)
Definition udp_frame : xdp_md :=
  mk_xdp (replicate 24 0 ++ mac_bytes ++ [8; 0] ++ ip_bytes ++ udp_bytes
            ++ [0; 0])
         24 70.

(** The same buffer holding an ARP frame ([0x0806]). *)
Definition arp_frame : xdp_md :=
  mk_xdp (replicate 24 0 ++ mac_bytes ++ [8; 6] ++ ip_bytes ++ udp_bytes
            ++ [0; 0])
         24 70.

(** Counters, one per protocol number. *)
Definition rxcnt0 : list Z := replicate 256 0.

End XdpExamples.

(** * Facts about machine arithmetic *)

Lemma wrap_int_id z : - 2 ^ 31 <= z <= INT_MAX -> wrap_int z = z.
Proof.
  unfold wrap_int, INT_MAX. intros Hz.
  rewrite Z.mod_small; lia.
Qed.

Lemma wrap_ulong_id z : 0 <= z < ULONG_MOD -> wrap_ulong z = z.
Proof. intros Hz. unfold wrap_ulong. by apply Z.mod_small. Qed.

(** Two offsets below the modulus that land on the same residue are equal. *)
Lemma mod_offset_inj (n c i j : Z) :
  0 <= i < n -> 0 <= j < n -> (c + i) mod n = (c + j) mod n -> i = j.
Proof.
  intros Hi Hj Heq.
  assert (Hn : n ≠ 0) by lia.
  pose proof (Z.div_mod (c + i) n Hn) as Di.
  pose proof (Z.div_mod (c + j) n Hn) as Dj.
  rewrite Heq in Di.
  assert (Hd : i - j = n * ((c + i) / n - (c + j) / n)) by lia.
  assert (Hz : (c + i) / n - (c + j) / n = 0) by nia.
  lia.
Qed.

(** Incrementing an index below [n] and resetting it at [n] is the
    successor modulo [n]. *)
Lemma succ_wrap_mod (n i : Z) :
  0 <= i < n -> (if n <=? i + 1 then 0 else i + 1) = (i + 1) mod n.
Proof.
  intros Hi. destruct (Z.leb_spec n (i + 1)).
  - assert (i + 1 = n) as -> by lia. by rewrite Z.mod_same by lia.
  - by rewrite Z.mod_small by lia.
Qed.

Lemma batch_bufs_length (es array : Z) (k : nat) :
  length (CoreRing.batch_bufs es array k) = k.
Proof.
  revert array. induction k as [|k IH]; intros array; [done|].
  cbn. by rewrite IH.
Qed.

Lemma slot_shift (n c j : Z) :
  ((c + 1) mod n + j) mod n = (c + (j + 1)) mod n.
Proof. rewrite Zplus_mod_idemp_l. f_equal. lia. Qed.

(** * Facts about counting with [filter] *)

Section Filter.
Context {A : Type}.
Implicit Types (P Q : A -> Prop) (l : list A).

Lemma filter_length_ext P Q `{!forall x, Decision (P x)}
    `{!forall x, Decision (Q x)} l :
  (forall x, x ∈ l -> P x <-> Q x) ->
  length (filter P l) = length (filter Q l).
Proof.
  induction l as [|x l IH]; intros Hext; [done|].
  rewrite !filter_cons.
  assert (Hx : P x <-> Q x) by (apply Hext; left).
  assert (Hl : length (filter P l) = length (filter Q l))
    by (apply IH; intros y Hy; apply Hext; by right).
  destruct (decide (P x)), (decide (Q x)); cbn; tauto || lia.
Qed.

Lemma filter_length_fmap {B : Type} (f : B -> A) P
    `{!forall x, Decision (P x)} (l : list B) :
  length (filter P (f <$> l)) = length (filter (fun y => P (f y)) l).
Proof.
  induction l as [|y l IH]; [done|].
  rewrite fmap_cons, !filter_cons.
  destruct (decide (P (f y))); cbn; lia.
Qed.

Lemma filter_length_all P `{!forall x, Decision (P x)} l :
  (forall x, x ∈ l -> P x) -> length (filter P l) = length l.
Proof.
  induction l as [|x l IH]; intros Hall; [done|].
  rewrite filter_cons, decide_True by (apply Hall; left).
  cbn. rewrite IH; [done|]. intros y Hy. apply Hall. by right.
Qed.

Lemma filter_length_none P `{!forall x, Decision (P x)} l :
  (forall x, x ∈ l -> ~ P x) -> length (filter P l) = 0%nat.
Proof.
  induction l as [|x l IH]; intros Hnone; [done|].
  rewrite filter_cons, decide_False by (apply Hnone; left).
  apply IH. intros y Hy. apply Hnone. by right.
Qed.

End Filter.

(** Among [0 .. n-1], exactly [k] numbers are below [k]. *)
Lemma filter_below_seqZ (k n : Z) :
  0 <= k <= n ->
  length (filter (fun j => j < k) (seqZ 0 n)) = Z.to_nat k.
Proof.
  intros Hk.
  replace n with (k + (n - k)) by lia.
  rewrite seqZ_app, filter_app, length_app by lia.
  rewrite filter_length_all, filter_length_none, length_seqZ.
  - lia.
  - intros x Hx. apply elem_of_seqZ in Hx. lia.
  - intros x Hx. apply elem_of_seqZ in Hx. lia.
Qed.

(** Adding an offset modulo [n] permutes [0 .. n-1]. *)
Lemma rotate_seqZ (c n : Z) :
  0 < n -> (fun j => (c + j) mod n) <$> seqZ 0 n ≡ₚ seqZ 0 n.
Proof.
  intros Hn. apply submseteq_length_Permutation.
  - apply NoDup_submseteq.
    + apply NoDup_fmap_2_strong; [|apply NoDup_seqZ].
      intros x y Hx Hy Heq.
      apply elem_of_seqZ in Hx. apply elem_of_seqZ in Hy.
      apply (mod_offset_inj n c); [lia|lia|done].
    + intros x Hx. apply list_elem_of_fmap in Hx as (j & -> & Hj).
      apply elem_of_seqZ. pose proof (Z.mod_pos_bound (c + j) n). lia.
  - by rewrite length_fmap.
Qed.

(** * Facts about the index-based ring *)

Module CoreRingFacts.
Import CoreRing.

Section Steps.
Context {M : Type} (fns : ring_fns M).

Lemma produce_zero (s : state M) (ptr : Z) :
  size (ring s) = 0 -> __core_ring_produce fns s ptr = (- ENOSPC, s).
Proof. intros Hz. unfold __core_ring_produce. by rewrite Hz. Qed.

Lemma produce_full (s : state M) (ptr : Z) :
  size (ring s) ≠ 0 ->
  valid_fn fns (mem s) (producer (ring s)) = true ->
  __core_ring_produce fns s ptr =
    (- ENOSPC,
     mk_state (ring s) (mem s) (calls s ++ [CallValid (producer (ring s))])).
Proof.
  intros Hz Hv. unfold __core_ring_produce, call_valid.
  destruct (Z.eqb_spec (size (ring s)) 0) as [|_]; [done|].
  by rewrite Hv.
Qed.

Lemma produce_room (s : state M) (ptr : Z) :
  size (ring s) ≠ 0 ->
  valid_fn fns (mem s) (producer (ring s)) = false ->
  let p := producer (ring s) in
  let dst := seek_fn fns (mem s) p in
  let p1 := wrap_int (p + 1) in
  __core_ring_produce fns s ptr =
    (0,
     mk_state (set_producer (ring s) (if size (ring s) <=? p1 then 0 else p1))
              (copy_fn fns (mem s) dst ptr)
              (calls s ++ [CallValid p; CallSeek p; CallCopy dst ptr])).
Proof.
  intros Hz Hv. unfold __core_ring_produce, call_valid, call_seek, call_copy.
  destruct (Z.eqb_spec (size (ring s)) 0) as [|_]; [done|].
  rewrite Hv. cbn.
  rewrite <- !app_assoc. cbn.
  by destruct (size (ring s) <=? wrap_int (producer (ring s) + 1)).
Qed.

Lemma consume_none (s : state M) (ptr : Z) :
  valid_fn fns (mem s) (consumer (ring s)) = false ->
  __core_ring_consume fns s ptr =
    (NULL,
     mk_state (ring s) (mem s) (calls s ++ [CallValid (consumer (ring s))])).
Proof. intros Hv. unfold __core_ring_consume, call_valid. by rewrite Hv. Qed.

Lemma consume_some (s : state M) (ptr : Z) :
  valid_fn fns (mem s) (consumer (ring s)) = true ->
  let c := consumer (ring s) in
  let src := seek_fn fns (mem s) c in
  let c1 := wrap_int (c + 1) in
  __core_ring_consume fns s ptr =
    (ptr,
     mk_state (set_consumer (ring s) (if size (ring s) <=? c1 then 0 else c1))
              (zero_fn fns (copy_fn fns (mem s) ptr src) c)
              (calls s ++ [CallValid c; CallSeek c; CallCopy ptr src;
                           CallZero c])).
Proof.
  intros Hv.
  unfold __core_ring_consume, __core_ring_discard_one,
    call_valid, call_seek, call_copy, call_zero.
  rewrite Hv. cbn.
  rewrite <- !app_assoc. cbn.
  by destruct (size (ring s) <=? wrap_int (consumer (ring s) + 1)).
Qed.

Lemma consume_seq_cons (s : state M) (p : Z) (ps : list Z) :
  consume_seq fns s (p :: ps) =
    let '(ret, s1) := __core_ring_consume fns s p in
    let '(rets, s2) := consume_seq fns s1 ps in
    (ret :: rets, s2).
Proof. reflexivity. Qed.

Lemma produce_seq_cons (s : state M) (p : Z) (ps : list Z) :
  produce_seq fns s (p :: ps) =
    let '(ret, s1) := __core_ring_produce fns s p in
    let '(rets, s2) := produce_seq fns s1 ps in
    (ret :: rets, s2).
Proof. reflexivity. Qed.

(** On an empty consumer slot any number of consume calls return [NULL]
    and change neither the ring nor the memory. *)
Lemma consume_seq_none (ptrs : list Z) (s : state M) :
  valid_fn fns (mem s) (consumer (ring s)) = false ->
  consume_seq fns s ptrs =
    ((fun _ => NULL) <$> ptrs,
     mk_state (ring s) (mem s)
       (calls s ++ ((fun _ => CallValid (consumer (ring s))) <$> ptrs))).
Proof.
  revert s. induction ptrs as [|p ptrs IH]; intros s Hv.
  - cbn. rewrite app_nil_r. by destruct s.
  - rewrite consume_seq_cons, (consume_none _ _ Hv).
    rewrite IH by done. cbn.
    by rewrite <- app_assoc.
Qed.

End Steps.

Section Simulation.
Context {M E : Type} (fns : ring_fns M).
Context (load : M -> Z -> E) (entry_valid : E -> bool).
Context (n : Z) (Hok : table_ok fns load entry_valid n).

Lemma holds_calls (r : core_ring) (m : M) (l1 l2 : list call) (q : list E) :
  holds fns load entry_valid (mk_state r m l1) q ->
  holds fns load entry_valid (mk_state r m l2) q.
Proof. done. Qed.

Lemma holds_indices (s : state M) (q : list E) :
  holds fns load entry_valid s q ->
  0 <= consumer (ring s) < size (ring s) /\
  0 <= producer (ring s) < size (ring s).
Proof.
  intros (Hsz & Hc & _ & Hp & _). split; [done|].
  rewrite Hp. apply Z.mod_pos_bound. lia.
Qed.

Lemma holds_empty_slot (s : state M) :
  holds fns load entry_valid s [] ->
  valid_fn fns (mem s) (consumer (ring s)) = false.
Proof.
  intros (Hsz & Hc & _ & _ & _ & Hclear).
  specialize (Hclear 0). cbn in Hclear.
  rewrite Z.add_0_r, Z.mod_small in Hclear by lia.
  apply Hclear. lia.
Qed.

Lemma holds_head_slot (s : state M) (e : E) (q : list E) :
  size (ring s) = n ->
  holds fns load entry_valid s (e :: q) ->
  valid_fn fns (mem s) (consumer (ring s)) = true /\
  load (mem s) (seek_fn fns (mem s) (consumer (ring s))) = e.
Proof.
  intros Hn (Hsz & Hc & _ & _ & Hq & _).
  destruct (Hq 0%nat e eq_refl) as [Hl Hv].
  cbn in Hl. rewrite Z.add_0_r, Z.mod_small in Hl by lia.
  split; [|done].
  rewrite (valid_load _ _ _ _ Hok) by lia. by rewrite Hl.
Qed.

Lemma holds_full_slot (s : state M) (q : list E) :
  size (ring s) = n ->
  holds fns load entry_valid s q ->
  Z.of_nat (length q) = size (ring s) ->
  valid_fn fns (mem s) (producer (ring s)) = true.
Proof.
  intros Hn Hh Hlen.
  pose proof Hh as (Hsz & Hc & _ & Hp & _).
  destruct q as [|e q]; [cbn in Hlen; lia|].
  destruct (holds_head_slot s e q Hn Hh) as [Hv _].
  rewrite Hp, Hlen.
  replace (consumer (ring s) + size (ring s))
    with (consumer (ring s) + 1 * size (ring s)) by lia.
  rewrite Z.mod_add, Z.mod_small by lia. done.
Qed.

Lemma holds_room_slot (s : state M) (q : list E) :
  holds fns load entry_valid s q ->
  Z.of_nat (length q) < size (ring s) ->
  valid_fn fns (mem s) (producer (ring s)) = false.
Proof.
  intros (Hsz & Hc & _ & Hp & _ & Hclear) Hlen.
  rewrite Hp. apply Hclear. lia.
Qed.

(** A produce into a ring with room appends the produced entry. *)
Lemma holds_produce (s : state M) (q : list E) (ptr : Z) :
  size (ring s) = n ->
  holds fns load entry_valid s q ->
  Z.of_nat (length q) < size (ring s) ->
  entry_valid (load (mem s) ptr) = true ->
  (__core_ring_produce fns s ptr).1 = 0 /\
  holds fns load entry_valid (__core_ring_produce fns s ptr).2
        (q ++ [load (mem s) ptr]).
Proof.
  intros Hn Hh Hlen He.
  pose proof (holds_room_slot s q Hh Hlen) as Hv.
  pose proof (holds_indices s q Hh) as [_ Hpr].
  destruct Hh as (Hsz & Hc & _ & Hp & Hq & Hclear).
  rewrite produce_room by (done || lia).
  split; [done|]. cbn -[Z.add Z.mul].
  destruct s as [r m l]. cbn [ring mem calls] in *.
  remember (producer r) as p eqn:Ep. remember (consumer r) as c eqn:Ec.
  assert (Hp1 : (if size r <=? wrap_int (p + 1) then 0 else wrap_int (p + 1))
                = (c + (Z.of_nat (length q) + 1)) mod size r).
  { rewrite wrap_int_id by (unfold INT_MAX in *; lia).
    rewrite succ_wrap_mod by done.
    rewrite Hp, Zplus_mod_idemp_l. f_equal. lia. }
  unfold CoreRing.holds. cbn -[Z.add Z.mul Z.of_nat].
  rewrite <- Ec, Hp1, length_app. cbn [length].
  assert (Hseek : forall i,
    seek_fn fns (copy_fn fns m (seek_fn fns m p) ptr) i = seek_fn fns m i)
    by (intros; apply (seek_copy _ _ _ _ Hok)).
  assert (Hother : forall j, 0 <= j < size r -> j ≠ Z.of_nat (length q) ->
    load (copy_fn fns m (seek_fn fns m p) ptr)
         (seek_fn fns m ((c + j) mod size r))
    = load m (seek_fn fns m ((c + j) mod size r))).
  { intros j Hj Hne. apply (load_copy_ne _ _ _ _ Hok).
    intros Heq. apply (seek_inj _ _ _ _ Hok) in Heq.
    - rewrite Hp in Heq. apply mod_offset_inj in Heq; lia.
    - rewrite <- Hn. apply Z.mod_pos_bound. lia.
    - lia. }
  split_and!; try lia.
  - intros j e He'. rewrite Hseek.
    assert (Hj' : (j < length q \/ j = length q)%nat).
    { apply lookup_lt_Some in He'. rewrite length_app in He'. cbn in He'. lia. }
    destruct Hj' as [Hj| ->].
    + rewrite lookup_app_l in He' by done.
      rewrite Hother by lia. by apply (Hq j e).
    + rewrite lookup_app_r, Nat.sub_diag in He' by done.
      injection He' as <-. split; [|done].
      rewrite <- Hp. apply (load_copy _ _ _ _ Hok).
  - intros j Hj.
    assert (Hb : 0 <= (c + j) mod size r < n)
      by (rewrite <- Hn; apply Z.mod_pos_bound; lia).
    rewrite (valid_load _ _ _ _ Hok), Hseek, Hother by lia.
    rewrite <- (valid_load _ _ _ _ Hok) by done.
    apply Hclear. lia.
Qed.

(** A consume from a non-empty ring returns the oldest entry in the
    caller's buffer and leaves the rest. *)
Lemma holds_consume (s : state M) (e : E) (q : list E) (ptr : Z) :
  size (ring s) = n ->
  holds fns load entry_valid s (e :: q) ->
  user_buf fns s ptr ->
  (__core_ring_consume fns s ptr).1 = ptr /\
  holds fns load entry_valid (__core_ring_consume fns s ptr).2 q /\
  load (mem (__core_ring_consume fns s ptr).2) ptr = e.
Proof.
  intros Hn Hh [Hnull Hbuf].
  destruct (holds_head_slot s e q Hn Hh) as [Hv Hl].
  destruct Hh as (Hsz & Hc & Hlen & Hp & Hq & Hclear).
  rewrite consume_some by done.
  destruct s as [r m l]. cbn [ring mem calls fst snd length] in *.
  remember (consumer r) as c eqn:Ec.
  remember (copy_fn fns m ptr (seek_fn fns m c)) as m1 eqn:Em1.
  assert (Hc1 : (if size r <=? wrap_int (c + 1) then 0 else wrap_int (c + 1))
                = (c + 1) mod size r).
  { rewrite wrap_int_id by (unfold INT_MAX in *; lia).
    by rewrite succ_wrap_mod. }
  assert (Hseek : forall i, seek_fn fns (zero_fn fns m1 c) i = seek_fn fns m i).
  { intros i. rewrite (seek_zero _ _ _ _ Hok), Em1.
    apply (seek_copy _ _ _ _ Hok). }
  assert (Hseek1 : forall i, seek_fn fns m1 i = seek_fn fns m i).
  { intros i. rewrite Em1. apply (seek_copy _ _ _ _ Hok). }
  assert (Hother : forall j, 0 < j < size r ->
    load (zero_fn fns m1 c) (seek_fn fns m ((c + j) mod size r))
    = load m (seek_fn fns m ((c + j) mod size r))).
  { intros j Hj.
    assert (Hb : 0 <= (c + j) mod size r < size r)
      by (apply Z.mod_pos_bound; lia).
    rewrite (load_zero_ne _ _ _ _ Hok).
    - rewrite Em1. apply (load_copy_ne _ _ _ _ Hok).
      intros Heq. by apply (Hbuf ((c + j) mod size r)).
    - rewrite Hseek1. intros Heq.
      apply (seek_inj _ _ _ _ Hok) in Heq; [|lia..].
      rewrite <- (Z.mod_small c (size r)) in Heq at 2 by lia.
      rewrite <- (Z.add_0_r c) in Heq at 2.
      apply mod_offset_inj in Heq; lia. }
  split; [done|]. split.
  - unfold CoreRing.holds. cbn -[Z.add Z.mul Z.of_nat].
    rewrite Hc1. subst n.
    split_and!; try lia.
    + apply Z.mod_pos_bound. lia.
    + apply Z.mod_pos_bound. lia.
    + rewrite Hp, slot_shift. f_equal. lia.
    + intros j e' He'. rewrite Hseek, slot_shift.
      apply lookup_lt_Some in He' as Hj.
      rewrite Hother by lia.
      replace (Z.of_nat j + 1) with (Z.of_nat (S j)) by lia.
      by apply (Hq (S j) e').
    + intros j Hj. rewrite slot_shift.
      destruct (decide (j + 1 = size r)) as [Hj1|Hj1].
      * rewrite Hj1.
        replace (c + size r) with (c + 1 * size r) by lia.
        rewrite Z.mod_add, Z.mod_small by lia.
        rewrite (valid_load _ _ _ _ Hok), (seek_zero _ _ _ _ Hok) by lia.
        apply (load_zero _ _ _ _ Hok). lia.
      * assert (Hb : 0 <= (c + (j + 1)) mod size r < size r)
          by (apply Z.mod_pos_bound; lia).
        rewrite (valid_load _ _ _ _ Hok), Hseek, Hother by lia.
        rewrite <- (valid_load _ _ _ _ Hok) by done.
        apply Hclear. lia.
  - cbn.
    rewrite (load_zero_ne _ _ _ _ Hok).
    + rewrite Em1, (load_copy _ _ _ _ Hok). done.
    + rewrite Hseek1. apply Hbuf. lia.
Qed.

(** Fields a produce or a consume leaves alone. *)
Lemma produce_size (s : state M) (ptr : Z) :
  size (ring (__core_ring_produce fns s ptr).2) = size (ring s).
Proof.
  unfold __core_ring_produce, call_valid, call_seek, call_copy.
  destruct (size (ring s) =? 0); [done|].
  destruct (valid_fn fns (mem s) (producer (ring s))); [done|]. cbn.
  by destruct (size (ring s) <=? wrap_int (producer (ring s) + 1)).
Qed.

Lemma consume_size (s : state M) (ptr : Z) :
  size (ring (__core_ring_consume fns s ptr).2) = size (ring s).
Proof.
  unfold __core_ring_consume, __core_ring_discard_one,
    call_valid, call_seek, call_copy, call_zero.
  destruct (valid_fn fns (mem s) (consumer (ring s))); [|done]. cbn.
  by destruct (size (ring s) <=? wrap_int (consumer (ring s) + 1)).
Qed.

Lemma produce_seek (s : state M) (ptr i : Z) :
  seek_fn fns (mem (__core_ring_produce fns s ptr).2) i
  = seek_fn fns (mem s) i.
Proof.
  unfold __core_ring_produce, call_valid, call_seek, call_copy.
  destruct (size (ring s) =? 0); [done|].
  destruct (valid_fn fns (mem s) (producer (ring s))); [done|]. cbn.
  destruct (size (ring s) <=? wrap_int (producer (ring s) + 1)); cbn;
    apply (seek_copy _ _ _ _ Hok).
Qed.

Lemma consume_seek (s : state M) (ptr i : Z) :
  seek_fn fns (mem (__core_ring_consume fns s ptr).2) i
  = seek_fn fns (mem s) i.
Proof.
  unfold __core_ring_consume, __core_ring_discard_one,
    call_valid, call_seek, call_copy, call_zero.
  destruct (valid_fn fns (mem s) (consumer (ring s))); [|done]. cbn.
  destruct (size (ring s) <=? wrap_int (consumer (ring s) + 1)); cbn;
    rewrite (seek_zero _ _ _ _ Hok); apply (seek_copy _ _ _ _ Hok).
Qed.

Lemma produce_user_buf (s : state M) (ptr a : Z) :
  user_buf fns s a -> user_buf fns (__core_ring_produce fns s ptr).2 a.
Proof.
  intros [Hnull Hbuf]. split; [done|].
  intros i Hi. rewrite produce_seek. apply Hbuf.
  by rewrite produce_size in Hi.
Qed.

Lemma consume_user_buf (s : state M) (ptr a : Z) :
  user_buf fns s a -> user_buf fns (__core_ring_consume fns s ptr).2 a.
Proof.
  intros [Hnull Hbuf]. split; [done|].
  intros i Hi. rewrite consume_seek. apply Hbuf.
  by rewrite consume_size in Hi.
Qed.

(** A produce writes to its slot only: caller buffers keep their
    entries. *)
Lemma produce_load_user (s : state M) (ptr a : Z) :
  size (ring s) = n ->
  0 <= producer (ring s) < size (ring s) ->
  user_buf fns s a ->
  load (mem (__core_ring_produce fns s ptr).2) a = load (mem s) a.
Proof.
  intros Hn Hp [_ Hbuf].
  unfold __core_ring_produce, call_valid, call_seek, call_copy.
  destruct (size (ring s) =? 0); [done|].
  destruct (valid_fn fns (mem s) (producer (ring s))); [done|]. cbn.
  destruct (size (ring s) <=? wrap_int (producer (ring s) + 1)); cbn;
    apply (load_copy_ne _ _ _ _ Hok); by apply Hbuf.
Qed.

(** A consume writes to its own buffer and to its slot only. *)
Lemma consume_load_user (s : state M) (ptr a : Z) :
  size (ring s) = n ->
  0 <= consumer (ring s) < size (ring s) ->
  user_buf fns s a ->
  a ≠ ptr ->
  load (mem (__core_ring_consume fns s ptr).2) a = load (mem s) a.
Proof.
  intros Hn Hc [_ Hbuf] Hne.
  unfold __core_ring_consume, __core_ring_discard_one,
    call_valid, call_seek, call_copy, call_zero.
  destruct (valid_fn fns (mem s) (consumer (ring s))); [|done]. cbn.
  destruct (size (ring s) <=? wrap_int (consumer (ring s) + 1)); cbn;
    (rewrite (load_zero_ne _ _ _ _ Hok);
     [ by apply (load_copy_ne _ _ _ _ Hok)
     | rewrite (seek_copy _ _ _ _ Hok); by apply Hbuf ]).
Qed.

Lemma holds_length (s : state M) (q : list E) :
  holds fns load entry_valid s q -> Z.of_nat (length q) <= size (ring s).
Proof. by intros (_ & _ & Hlen & _). Qed.

(** Consecutive produces: as long as there is room (or, equivalently, as
    long as every call reports success) each one succeeds and the entries
    are appended in call order. *)
Lemma holds_produce_seq (srcs : list Z) : forall (s : state M) (q : list E),
  size (ring s) = n ->
  holds fns load entry_valid s q ->
  Forall (user_buf fns s) srcs ->
  Forall (fun a => entry_valid (load (mem s) a) = true) srcs ->
  Z.of_nat (length q) + Z.of_nat (length srcs) <= size (ring s) \/
    Forall (fun ret => ret = 0) (produce_seq fns s srcs).1 ->
  (produce_seq fns s srcs).1 = replicate (length srcs) 0 /\
  holds fns load entry_valid (produce_seq fns s srcs).2
        (q ++ (load (mem s) <$> srcs)) /\
  size (ring (produce_seq fns s srcs).2) = n /\
  Z.of_nat (length q) + Z.of_nat (length srcs) <= size (ring s) /\
  (forall a, user_buf fns s a ->
     user_buf fns (produce_seq fns s srcs).2 a /\
     load (mem (produce_seq fns s srcs).2) a = load (mem s) a).
Proof.
  induction srcs as [|p srcs IH]; intros s q Hn Hh Hbufs Hvals Hroom.
  - cbn. rewrite app_nil_r. pose proof (holds_length s q Hh).
    split_and!; try done. lia.
  - apply Forall_cons in Hbufs as [Hbp Hbufs].
    apply Forall_cons in Hvals as [Hvp Hvals].
    pose proof (holds_length s q Hh) as Hlen.
    pose proof (holds_indices s q Hh) as [_ Hpi].
    assert (Hlt : Z.of_nat (length q) < size (ring s)).
    { destruct Hroom as [Hroom|Hrets]; [cbn in Hroom; lia|].
      destruct (decide (Z.of_nat (length q) = size (ring s))) as [Hfull|]; [|lia].
      rewrite produce_seq_cons, produce_full in Hrets
        by (lia || by eapply holds_full_slot).
      destruct (produce_seq fns _ srcs). cbn in Hrets.
      apply Forall_cons in Hrets as [Hbad _]. by unfold ENOSPC in Hbad. }
    destruct (holds_produce s q p Hn Hh Hlt Hvp) as [Hret Hh1].
    pose proof (produce_size s p) as Hsz1.
    assert (Hkeep : forall a, user_buf fns s a ->
      user_buf fns (__core_ring_produce fns s p).2 a /\
      load (mem (__core_ring_produce fns s p).2) a = load (mem s) a).
    { intros a Ha. split; [by apply produce_user_buf|].
      by apply produce_load_user. }
    rewrite produce_seq_cons in *.
    destruct (__core_ring_produce fns s p) as [ret s1]. cbn [fst snd] in *.
    subst ret.
    specialize (IH s1 (q ++ [load (mem s) p])).
    destruct IH as (Hrets & Hh2 & Hsz2 & Hlen2 & Hkeep2).
    + lia.
    + done.
    + eapply Forall_impl; [exact Hbufs|]. intros a Ha. by apply Hkeep.
    + eapply Forall_lookup_2. intros i a Hia.
      destruct (Hkeep a) as [_ ->].
      * by eapply (Forall_lookup_1 _ _ _ _ Hbufs).
      * by eapply (Forall_lookup_1 _ _ _ _ Hvals).
    + destruct Hroom as [Hroom|Hrets].
      * left. rewrite length_app. cbn in *. lia.
      * right. destruct (produce_seq fns s1 srcs). cbn in *.
        by apply Forall_cons in Hrets as [_ Hrets].
    + assert (Hmap : load (mem s1) <$> srcs = load (mem s) <$> srcs).
      { apply list_fmap_ext. intros i a Hia.
        destruct (Hkeep a) as [_ ->]; [|done].
        by eapply (Forall_lookup_1 _ _ _ _ Hbufs). }
      rewrite Hmap, <- app_assoc in Hh2.
      rewrite length_app in Hlen2.
      destruct (produce_seq fns s1 srcs) as [rets s2]. cbn [fst snd] in *.
      split_and!; try done.
      * by rewrite Hrets.
      * cbn [length] in *. lia.
      * intros a Ha. destruct (Hkeep a Ha) as [Hu1 Hl1].
        destruct (Hkeep2 a Hu1) as [Hu2 Hl2]. split; [done|]. congruence.
Qed.

Lemma consume_entry_some (s : state M) (e : E) (q : list E) (ptr : Z) :
  size (ring s) = n ->
  holds fns load entry_valid s (e :: q) ->
  user_buf fns s ptr ->
  (consume_entry fns load s ptr).1 = Some e /\
  (consume_entry fns load s ptr).2 = (__core_ring_consume fns s ptr).2.
Proof.
  intros Hn Hh Hbuf.
  destruct (holds_consume s e q ptr Hn Hh Hbuf) as (Hret & _ & Hl).
  unfold consume_entry.
  destruct (__core_ring_consume fns s ptr) as [ret s1]. cbn [fst snd] in *.
  subst ret. destruct Hbuf as [Hnull _].
  destruct (Z.eqb_spec ptr NULL); [done|]. by rewrite Hl.
Qed.

(** Consecutive consumes hand out the resident entries oldest first. *)
Lemma holds_consume_entries (q1 : list E) :
  forall (outs : list Z) (s : state M) (q2 : list E),
  size (ring s) = n ->
  holds fns load entry_valid s (q1 ++ q2) ->
  length outs = length q1 ->
  Forall (user_buf fns s) outs ->
  (consume_entries fns load s outs).1 = Some <$> q1 /\
  holds fns load entry_valid (consume_entries fns load s outs).2 q2 /\
  size (ring (consume_entries fns load s outs).2) = n.
Proof.
  induction q1 as [|e q1 IH]; intros outs s q2 Hn Hh Hlen Hbufs.
  - destruct outs; [|done]. done.
  - destruct outs as [|p outs]; [done|].
    apply Forall_cons in Hbufs as [Hbp Hbufs].
    destruct (consume_entry_some s e (q1 ++ q2) p Hn Hh Hbp) as [He Hs].
    destruct (holds_consume s e (q1 ++ q2) p Hn Hh Hbp) as (_ & Hh1 & _).
    pose proof (consume_size s p) as Hsz1.
    assert (Hbufs1 : Forall (user_buf fns (__core_ring_consume fns s p).2) outs).
    { eapply Forall_impl; [exact Hbufs|]. intros a. apply consume_user_buf. }
    cbn [consume_entries].
    destruct (consume_entry fns load s p) as [oe s1]. cbn [fst snd] in *.
    subst oe s1.
    specialize (IH outs (__core_ring_consume fns s p).2 q2).
    destruct IH as (Hes & Hh2 & Hsz2); [congruence|done|by injection Hlen|done|].
    destruct (consume_entries fns load _ outs) as [es s2]. cbn [fst snd] in *.
    split_and!; [|done..]. cbn. by rewrite Hes.
Qed.

(** The occupied slots of a ring are as many as its resident entries. *)
Lemma holds_count_valid (s : state M) (q : list E) :
  size (ring s) = n ->
  holds fns load entry_valid s q ->
  count_valid fns s = length q.
Proof.
  intros Hn (Hsz & Hc & Hlen & Hp & Hq & Hclear).
  unfold count_valid.
  rewrite <- (rotate_seqZ (consumer (ring s))) by lia.
  rewrite filter_length_fmap.
  rewrite (filter_length_ext _ (fun j => j < Z.of_nat (length q))).
  - rewrite filter_below_seqZ by lia. lia.
  - intros j Hj. apply elem_of_seqZ in Hj.
    destruct (decide (j < Z.of_nat (length q))) as [Hlt|Hge].
    + split; [done|]. intros _.
      assert (Hjn : (Z.to_nat j < length q)%nat) by lia.
      destruct (lookup_lt_is_Some_2 q _ Hjn) as [e He].
      destruct (Hq _ _ He) as [Hl Hv].
      rewrite Z2Nat.id in Hl by lia.
      rewrite (valid_load _ _ _ _ Hok), Hl; [done|].
      rewrite <- Hn. apply Z.mod_pos_bound. lia.
    + split; [|done]. intros Hv.
      rewrite Hclear in Hv by lia. done.
Qed.

Lemma holds_init (r0 : core_ring) (m : M) :
  0 < n <= INT_MAX ->
  (forall i, 0 <= i < n -> valid_fn fns m i = false) ->
  holds fns load entry_valid (mk_state (core_ring_init r0 n).2 m []) [].
Proof.
  intros Hn Hclear. unfold CoreRing.holds. cbn.
  rewrite Z.mod_0_l by lia.
  split_and!; try done; try lia.
  intros j Hj. rewrite Z.mod_small by lia. apply Hclear. lia.
Qed.

(** Every reachable state is well formed and holds some queue. *)
Lemma reachable_holds (s : state M) :
  0 < n <= INT_MAX ->
  reachable fns load entry_valid n s ->
  exists q, holds fns load entry_valid s q /\ size (ring s) = n.
Proof.
  intros Hn Hr. induction Hr as
    [r0 m Hclear
    |s ptr _ (q & Hq & Hsz) Hval
    |s ptr _ (q & Hq & Hsz) Hbuf].
  - exists []. split; [by apply holds_init|done].
  - pose proof (holds_length s q Hq) as Hlen.
    destruct (decide (Z.of_nat (length q) = size (ring s))) as [Hfull|Hroom].
    + exists q. rewrite produce_full by (lia || by eapply holds_full_slot).
      split; [|done]. apply (holds_calls _ _ (calls s)). by destruct s.
    + destruct (holds_produce s q ptr Hsz Hq) as [_ Hh1]; [lia|done|].
      eexists. split; [done|]. by rewrite produce_size.
  - destruct q as [|e q].
    + exists []. rewrite consume_none by (by apply holds_empty_slot).
      split; [|done]. apply (holds_calls _ _ (calls s)). by destruct s.
    + destruct (holds_consume s e q ptr Hsz Hq Hbuf) as (_ & Hh1 & _).
      exists q. split; [done|]. by rewrite consume_size.
Qed.

Lemma consume_entry_size (s : state M) (ptr : Z) :
  entry_size (ring (__core_ring_consume fns s ptr).2) = entry_size (ring s).
Proof.
  unfold __core_ring_consume, __core_ring_discard_one,
    call_valid, call_seek, call_copy, call_zero.
  destruct (valid_fn fns (mem s) (consumer (ring s))); [|done]. cbn.
  by destruct (size (ring s) <=? wrap_int (consumer (ring s) + 1)).
Qed.

(** Consecutive consumes into distinct caller buffers: each returns its
    buffer, the buffers end up holding the entries oldest first, and
    every other caller buffer is left alone. *)
Lemma holds_consume_seq (q1 : list E) :
  forall (ptrs : list Z) (s : state M) (q2 : list E),
  size (ring s) = n ->
  holds fns load entry_valid s (q1 ++ q2) ->
  length ptrs = length q1 ->
  Forall (user_buf fns s) ptrs ->
  (consume_seq fns s ptrs).1 = ptrs /\
  holds fns load entry_valid (consume_seq fns s ptrs).2 q2 /\
  size (ring (consume_seq fns s ptrs).2) = n /\
  (NoDup ptrs -> load (mem (consume_seq fns s ptrs).2) <$> ptrs = q1) /\
  (forall a, user_buf fns s a -> a ∉ ptrs ->
     load (mem (consume_seq fns s ptrs).2) a = load (mem s) a).
Proof.
  induction q1 as [|e q1 IH]; intros ptrs s q2 Hn Hh Hlen Hbufs.
  - destruct ptrs; [|done]. done.
  - destruct ptrs as [|p ptrs]; [done|].
    apply Forall_cons in Hbufs as [Hbp Hbufs].
    destruct (holds_consume s e (q1 ++ q2) p Hn Hh Hbp) as (Hret & Hh1 & Hl1).
    pose proof (holds_indices _ _ Hh) as [Hci _].
    pose proof (consume_size s p) as Hsz1.
    assert (Hkeep : forall a, user_buf fns s a ->
      user_buf fns (__core_ring_consume fns s p).2 a /\
      (a ≠ p ->
       load (mem (__core_ring_consume fns s p).2) a = load (mem s) a)).
    { intros a Ha. split; [by apply consume_user_buf|].
      intros Hne. by apply consume_load_user. }
    rewrite consume_seq_cons.
    destruct (__core_ring_consume fns s p) as [ret s1]. cbn [fst snd] in *.
    subst ret.
    destruct (IH ptrs s1 q2) as (Hrets & Hh2 & Hsz2 & Hfill & Hframe).
    + congruence.
    + done.
    + by injection Hlen.
    + eapply Forall_impl; [exact Hbufs|]. intros a Ha. by apply Hkeep.
    + destruct (consume_seq fns s1 ptrs) as [rets s2]. cbn [fst snd] in *.
      split_and!; try done.
      * by rewrite Hrets.
      * intros Hnd. apply NoDup_cons in Hnd as [Hnin Hnd].
        cbn. rewrite (Hfill Hnd). f_equal.
        rewrite Hframe; [done| |done]. by apply Hkeep.
      * intros a Ha Hnin. apply not_elem_of_cons in Hnin as [Hne Hnin].
        destruct (Hkeep a Ha) as [Hu1 Hl]. rewrite Hframe by done.
        by apply Hl.
Qed.

(** The batch loop is the run of single consumes into the successive
    buffers, followed by one failed validity test when the ring runs
    empty before the budget does. *)
Lemma batched_loop_singles (k : nat) :
  forall (fuel : nat) (s : state M) (q : list E) (array i : Z),
  size (ring s) = n ->
  holds fns load entry_valid s q ->
  length q = k ->
  (k <= fuel)%nat ->
  Forall (user_buf fns s) (batch_bufs (entry_size (ring s)) array k) ->
  let sk := (consume_seq fns s (batch_bufs (entry_size (ring s)) array k)).2 in
  consume_batched_loop fns fuel s array i =
    (i + Z.of_nat k,
     if decide (k < fuel)%nat
     then logged sk (CallValid (consumer (ring sk)))
     else sk).
Proof.
  induction k as [|k IH]; intros fuel s q array i Hn Hh Hlen Hfuel Hbufs.
  - destruct q; [|done]. cbn. rewrite Z.add_0_r.
    destruct fuel as [|fuel]; [done|]. cbn [consume_batched_loop].
    rewrite consume_none by (by apply holds_empty_slot).
    by rewrite decide_True by lia.
  - destruct q as [|e q]; [done|]. injection Hlen as Hlen.
    destruct fuel as [|fuel]; [lia|].
    cbn [batch_bufs] in *.
    apply Forall_cons in Hbufs as [Hbp Hbufs].
    destruct (holds_consume s e q array Hn Hh Hbp) as (Hret & Hh1 & _).
    pose proof (consume_size s array) as Hsz1.
    pose proof (consume_entry_size s array) as Hes1.
    assert (Hbufs1 : Forall (user_buf fns (__core_ring_consume fns s array).2)
              (batch_bufs (entry_size (ring s)) (array + entry_size (ring s)) k)).
    { eapply Forall_impl; [exact Hbufs|]. intros a. apply consume_user_buf. }
    cbn [consume_batched_loop]. rewrite consume_seq_cons.
    destruct (__core_ring_consume fns s array) as [ret s1].
    cbn [fst snd] in *. subst ret.
    destruct Hbp as [Hnull _].
    destruct (Z.eqb_spec array NULL) as [|_]; [done|].
    rewrite Hes1.
    rewrite (IH fuel s1 q) by (congruence || done || lia || by rewrite Hes1).
    rewrite Hes1.
    destruct (consume_seq fns s1 _) as [rets s2]. cbn [fst snd].
    f_equal; [lia|].
    destruct (decide (k < fuel)%nat), (decide (S k < S fuel)%nat); done || lia.
Qed.

End Simulation.


End CoreRingFacts.

(** * Facts about the packet ring *)

Module SkbRingFacts.
Import SkbRing.

(** ** Masks and counts for a power-of-two size *)

Lemma pow2_pos (n : Z) : is_pow2 n -> 0 < n < ULONG_MOD.
Proof.
  intros (k & Hk & ->). unfold ULONG_MOD. split.
  - apply Z.pow_pos_nonneg; lia.
  - apply Z.pow_lt_mono_r; lia.
Qed.

Lemma pow2_divide (n : Z) : is_pow2 n -> (n | ULONG_MOD).
Proof.
  intros (k & Hk & ->). exists (2 ^ (64 - k)). unfold ULONG_MOD.
  rewrite <- Z.pow_add_r by lia. f_equal. lia.
Qed.

Lemma mask_mod (n x : Z) :
  is_pow2 n -> Z.land x (wrap_ulong (n - 1)) = x mod n.
Proof.
  intros Hn. pose proof (pow2_pos n Hn) as Hpos.
  rewrite wrap_ulong_id by lia.
  destruct Hn as (k & Hk & ->).
  replace (2 ^ k - 1) with (Z.ones k) by (rewrite Z.ones_equiv; lia).
  apply Z.land_ones. lia.
Qed.

Lemma CIRC_CNT_mod (h t n : Z) : is_pow2 n -> CIRC_CNT h t n = (h - t) mod n.
Proof.
  intros Hn. unfold CIRC_CNT. rewrite mask_mod by done.
  unfold wrap_ulong. apply Z.mod_mod_divide. by apply pow2_divide.
Qed.

Lemma next_index_mod (i n : Z) : is_pow2 n -> next_index i n = (i + 1) mod n.
Proof.
  intros Hn. unfold next_index. rewrite mask_mod by done.
  unfold wrap_ulong. apply Z.mod_mod_divide. by apply pow2_divide.
Qed.

(** The free space is what the count leaves of [n - 1] slots. *)
Lemma space_count (h t n : Z) :
  0 < n -> (t - (h + 1)) mod n = n - 1 - (h - t) mod n.
Proof.
  intros Hn. symmetry.
  pose proof (Z.mod_pos_bound (h - t) n Hn) as Hb.
  apply (Z.mod_unique _ _ (- ((h - t) / n) - 1)); [lia|].
  pose proof (Z.div_mod (h - t) n). lia.
Qed.

Lemma CIRC_SPACE_mod (h t n : Z) :
  is_pow2 n -> CIRC_SPACE h t n = n - 1 - (h - t) mod n.
Proof.
  intros Hn. pose proof (pow2_pos n Hn) as Hpos.
  unfold CIRC_SPACE. rewrite CIRC_CNT_mod by done.
  rewrite <- space_count by lia.
  unfold wrap_ulong.
  rewrite Zminus_mod, (Z.mod_mod_divide (h + 1)) by (by apply pow2_divide).
  by rewrite <- Zminus_mod.
Qed.

(** ** Steps on a well-formed ring *)

Lemma desc_update_at (r : skb_ring) (ds : list skb_desc) (i : Z)
    (d : skb_desc) (f : skb_desc -> skb_desc) :
  descs r = Some ds ->
  ds !! Z.to_nat i = Some d ->
  desc_update r i f = Done (set_descs r (Some (<[Z.to_nat i := f d]> ds))).
Proof.
  intros Hds Hd. unfold desc_update, desc_load, desc_store.
  rewrite Hds, Hd. cbn.
  apply lookup_lt_Some in Hd. by rewrite decide_True.
Qed.

Lemma skb_holds_count (r : skb_ring) (q : list skb_desc) :
  holds r q -> CIRC_CNT (head r) (tail r) (size r) = Z.of_nat (length q).
Proof. intros (Hn & _ & _ & _ & _ & Hlen & _). by rewrite CIRC_CNT_mod. Qed.

Lemma skb_holds_length (r : skb_ring) (q : list skb_desc) :
  holds r q -> Z.of_nat (length q) < size r.
Proof.
  intros (Hn & _ & _ & _ & _ & Hlen & _). rewrite Hlen.
  apply Z.mod_pos_bound. apply pow2_pos in Hn. lia.
Qed.

(** The head index is where the next descriptor goes. *)
Lemma skb_holds_head (r : skb_ring) (q : list skb_desc) :
  holds r q -> head r = (tail r + Z.of_nat (length q)) mod size r.
Proof.
  intros (Hn & _ & Hh & _ & _ & Hlen & _). rewrite Hlen.
  rewrite Zplus_mod_idemp_r.
  replace (tail r + (head r - tail r)) with (head r) by lia.
  by rewrite Z.mod_small.
Qed.

Lemma unlock_after_lock_w (r : skb_ring) :
  wlock r = Unlocked -> set_wlock (set_wlock r Locked) Unlocked = r.
Proof. destruct r; cbn. by intros ->. Qed.

Lemma unlock_after_lock_r (r : skb_ring) :
  rlock r = Unlocked -> set_rlock (set_rlock r Locked) Unlocked = r.
Proof. destruct r; cbn. by intros ->. Qed.

(** A queue on a ring with [size - 1] residents is refused and changes
    nothing; the packet is not even read. *)
Lemma skb_holds_queue_full (skbs : gmap Z sk_buff) (r : skb_ring)
    (q : list skb_desc) (p : Z) :
  holds r q ->
  Z.of_nat (length q) + 1 = size r ->
  skb_ring_queue skbs r p = Done (- EFAULT, r).
Proof.
  intros Hh Hfull.
  pose proof Hh as (Hn & _ & _ & _ & Hw & Hlen & _).
  unfold skb_ring_queue. rewrite Hw. cbn.
  rewrite CIRC_SPACE_mod, <- Hlen by done.
  destruct (Z.leb_spec 1 (size r - 1 - Z.of_nat (length q))); [lia|].
  cbn. unfold spin_unlock. f_equal. f_equal.
  by apply unlock_after_lock_w.
Qed.

(** Storing [d] at the head index and stepping that index appends [d]. *)
Lemma skb_holds_push (r : skb_ring) (q : list skb_desc) (ds : list skb_desc)
    (d : skb_desc) :
  holds r q ->
  Z.of_nat (length q) + 1 < size r ->
  descs r = Some ds ->
  holds (mk_skb_ring (rlock r) (tail r) (size r)
           (Some (<[Z.to_nat (head r) := d]> ds))
           (next_index (head r) (size r)) (wlock r))
        (q ++ [d]).
Proof.
  intros Hh Hroom Hds'.
  pose proof (skb_holds_head r q Hh) as Hhd.
  destruct Hh as (Hn & Ht & Hh & Hr & Hw & Hlen & ds0 & Hds & Hdl & Hq).
  assert (ds0 = ds) as -> by congruence.
  pose proof (pow2_pos _ Hn) as Hpos.
  unfold holds. cbn -[Z.add Z.mul Z.of_nat Z.sub].
  rewrite next_index_mod by done.
  pose proof (Z.mod_pos_bound (head r + 1) (size r)) as Hnb.
  split_and!; try done; try lia.
  - rewrite length_app. cbn [length].
    rewrite Zminus_mod, Z.mod_mod, <- Zminus_mod by lia.
    replace (head r + 1 - tail r) with ((head r - tail r) + 1) by lia.
    rewrite <- Zplus_mod_idemp_l, <- Hlen.
    rewrite Z.mod_small; lia.
  - eexists. split; [done|]. split; [by rewrite length_insert|].
    intros j d' Hj.
    assert (Hj' : (j < length q \/ j = length q)%nat).
    { apply lookup_lt_Some in Hj. rewrite length_app in Hj. cbn in Hj. lia. }
    destruct Hj' as [Hlt| ->].
    + rewrite lookup_app_l in Hj by done.
      rewrite list_lookup_insert_ne; [by apply Hq|].
      intros Heq. apply Z2Nat.inj in Heq.
      * rewrite Hhd in Heq. apply mod_offset_inj in Heq; lia.
      * lia.
      * apply Z.mod_pos_bound. lia.
    + rewrite lookup_app_r, Nat.sub_diag in Hj by done.
      injection Hj as <-. rewrite <- Hhd.
      apply list_lookup_insert_eq. lia.
Qed.

Ltac desc_step :=
  first [ rewrite list_lookup_insert_eq by (rewrite ?length_insert; lia)
        | rewrite decide_True by (rewrite ?length_insert; lia)
        | rewrite list_insert_insert_eq ];
  cbn.

(** A queue on a ring with fewer residents stores the pointer with its
    cached length behind them. *)
Lemma skb_holds_queue_room (skbs : gmap Z sk_buff) (r : skb_ring)
    (q : list skb_desc) (p : Z) (b : sk_buff) :
  holds r q ->
  Z.of_nat (length q) + 1 < size r ->
  skbs !! p = Some b ->
  exists r',
    skb_ring_queue skbs r p = Done (0, r') /\
    holds r' (q ++ [mk_skb_desc p (cached_len b)]) /\
    size r' = size r.
Proof.
  intros Hh Hroom Hb.
  pose proof (fun ds d => skb_holds_push r q ds d Hh Hroom) as Hpush.
  destruct Hh as (Hn & Ht & Hh & Hr & Hw & Hlen & ds & Hds & Hdl & Hq).
  pose proof (pow2_pos _ Hn) as Hpos.
  assert (Hin : (Z.to_nat (head r) < length ds)%nat) by lia.
  destruct (lookup_lt_is_Some_2 ds _ Hin) as [d0 Hd0].
  specialize (Hpush ds (mk_skb_desc p (cached_len b)) Hds).
  exists (mk_skb_ring (rlock r) (tail r) (size r)
           (Some (<[Z.to_nat (head r) := mk_skb_desc p (cached_len b)]> ds))
           (next_index (head r) (size r)) (wlock r)).
  split; [|by split].
  unfold skb_ring_queue. rewrite Hw. cbn.
  rewrite CIRC_SPACE_mod, <- Hlen by done.
  destruct (Z.leb_spec 1 (size r - 1 - Z.of_nat (length q))); [|lia].
  unfold desc_update, desc_load, desc_store, skb_load, cached_len.
  destruct r as [rl tl sz dsc hd wl]. cbn in *. subst dsc rl wl.
  rewrite Hd0, Hb. cbn.
  repeat desc_step.
  destruct (skb_vlan_tag_present b); cbn; repeat desc_step; done.
Qed.

Lemma skb_holds_oldest (r : skb_ring) (d : skb_desc) (q : list skb_desc) :
  holds r (d :: q) -> desc_load r (tail r) = Done d.
Proof.
  intros (Hn & Ht & _ & _ & _ & _ & ds & Hds & _ & Hq).
  specialize (Hq 0%nat d eq_refl). cbn in Hq.
  rewrite Z.add_0_r, Z.mod_small in Hq by done.
  unfold desc_load. by rewrite Hds, Hq.
Qed.

(** Stepping the tail index drops the oldest descriptor. *)
Lemma skb_holds_pop (r : skb_ring) (d : skb_desc) (q : list skb_desc) :
  holds r (d :: q) ->
  holds (set_tail r (next_index (tail r) (size r))) q.
Proof.
  intros (Hn & Ht & Hh & Hr & Hw & Hlen & ds & Hds & Hdl & Hq).
  pose proof (pow2_pos _ Hn) as Hpos.
  pose proof (Z.mod_pos_bound (tail r + 1) (size r)) as Hnb.
  pose proof (Z.mod_pos_bound (head r - tail r) (size r)) as Hcb.
  unfold holds. cbn -[Z.add Z.mul Z.of_nat Z.sub].
  rewrite next_index_mod by done.
  split_and!; try done; try lia.
  - rewrite Zminus_mod_idemp_r.
    replace (head r - (tail r + 1)) with ((head r - tail r) - 1) by lia.
    rewrite <- Zminus_mod_idemp_l, <- Hlen. cbn [length] in *.
    rewrite Z.mod_small; lia.
  - exists ds. split_and!; try done.
    intros j d' Hj. rewrite slot_shift.
    replace (Z.of_nat j + 1) with (Z.of_nat (S j)) by lia.
    by apply Hq.
Qed.

Lemma skb_holds_dequeue_some (r : skb_ring) (d : skb_desc) (q : list skb_desc) :
  holds r (d :: q) ->
  skb_ring_dequeue r =
    Done (skb d, set_tail r (next_index (tail r) (size r))).
Proof.
  intros Hh.
  pose proof (skb_holds_count _ _ Hh) as Hcnt.
  pose proof (skb_holds_oldest _ _ _ Hh) as Hld.
  destruct Hh as (Hn & Ht & Hh & Hr & Hw & Hlen & _).
  unfold skb_ring_dequeue. rewrite Hr. cbn -[Z.of_nat] in *.
  rewrite Hcnt. cbn [length].
  destruct (Z.leb_spec 1 (Z.of_nat (S (length q)))); [|lia].
  unfold desc_load in *.
  destruct r as [rl tl sz dsc hd wl]. cbn in *. subst rl.
  destruct dsc as [ds|]; [|done].
  destruct (ds !! Z.to_nat tl); [|done].
  by injection Hld as ->.
Qed.

Lemma skb_holds_dequeue_none (r : skb_ring) :
  holds r [] -> skb_ring_dequeue r = Done (NULL, r).
Proof.
  intros Hh.
  pose proof (skb_holds_count _ _ Hh) as Hcnt.
  destruct Hh as (Hn & Ht & Hh & Hr & Hw & Hlen & _).
  unfold skb_ring_dequeue. rewrite Hr. cbn in *.
  rewrite Hcnt. cbn.
  destruct r; cbn in *. by subst.
Qed.

Lemma skb_holds_peek (r : skb_ring) (q : list skb_desc) :
  holds r q ->
  skb_ring_peek r = Done (match q with [] => 0 | d :: _ => len d end).
Proof.
  intros Hh.
  pose proof (skb_holds_count _ _ Hh) as Hcnt.
  unfold skb_ring_peek. rewrite Hcnt.
  destruct q as [|d q]; [done|].
  cbn [length].
  destruct (Z.leb_spec 1 (Z.of_nat (S (length q)))); [|lia].
  by rewrite (skb_holds_oldest _ _ _ Hh).
Qed.

(** A successful [skb_ring_init] of a power-of-two size whose allocation
    provides that many descriptors yields an empty, well-formed ring. *)
Lemma skb_holds_init (kmalloc : Z -> option (list skb_desc)) (r0 r : skb_ring)
    (n : Z) (ds : list skb_desc) :
  is_pow2 n ->
  skb_ring_init kmalloc r0 n = (0, r) ->
  descs r = Some ds ->
  Z.of_nat (length ds) = n ->
  holds r [].
Proof.
  intros Hn Hinit Hds Hlen. pose proof (pow2_pos _ Hn) as Hpos.
  unfold skb_ring_init in Hinit. cbn in Hinit.
  destruct (kmalloc _) as [ds'|]; [|done].
  injection Hinit as <-. cbn in *.
  unfold holds. cbn. rewrite Z.mod_0_l by lia.
  split_and!; try done; try lia.
  exists ds. by split_and!.
Qed.

Lemma skb_holds_queue_bad (skbs : gmap Z sk_buff) (r : skb_ring)
    (q : list skb_desc) (p : Z) :
  holds r q ->
  Z.of_nat (length q) + 1 < size r ->
  skbs !! p = None ->
  skb_ring_queue skbs r p = Fail BadAccess.
Proof.
  intros Hq Hroom Hb.
  destruct Hq as (Hp2 & Ht & Hh & Hrl & Hwl & Hlen & ds & Hds & Hdl & _).
  unfold skb_ring_queue. rewrite Hwl. cbn.
  rewrite CIRC_SPACE_mod, <- Hlen by done.
  destruct (Z.leb_spec 1 (size r - 1 - Z.of_nat (length q))); [|lia].
  assert (Hin : (Z.to_nat (head r) < length ds)%nat) by lia.
  destruct (lookup_lt_is_Some_2 ds _ Hin) as [d0 Hd0].
  unfold desc_update, desc_load, desc_store, skb_load.
  destruct r as [rl tl sz dsc hd wl]. cbn in *. subst dsc.
  rewrite Hd0, Hb. cbn. by rewrite decide_True by lia.
Qed.

(** Every reachable ring is well formed and holds some queue. *)
Lemma skb_reachable_holds (n : Z) (r : skb_ring) :
  is_pow2 n -> reachable n r -> exists q, holds r q /\ size r = n.
Proof.
  intros Hn Hr. induction Hr as
    [km r0 r ds Hinit Hds Hlen
    |skbs r p ret r' _ (q & Hq & Hsz) Hstep
    |r p r' _ (q & Hq & Hsz) Hstep].
  - exists []. split; [by eapply skb_holds_init|].
    unfold skb_ring_init in Hinit. cbn in Hinit.
    destruct (km _); [|done]. by injection Hinit as <-.
  - pose proof (skb_holds_length _ _ Hq) as Hlt.
    destruct (decide (Z.of_nat (length q) + 1 = size r)) as [Hfull|Hroom].
    + rewrite (skb_holds_queue_full _ _ _ _ Hq Hfull) in Hstep.
      injection Hstep as _ <-. by exists q.
    + destruct (skbs !! p) as [b|] eqn:Hb.
      * destruct (skb_holds_queue_room skbs r q p b Hq) as (r1 & Hr1 & Hh1 & Hs1);
          [lia|done|].
        rewrite Hr1 in Hstep. injection Hstep as _ <-.
        eexists. split; [done|]. congruence.
      * by rewrite (skb_holds_queue_bad _ _ _ _ Hq) in Hstep by (lia || done).
  - destruct q as [|d q].
    + rewrite (skb_holds_dequeue_none _ Hq) in Hstep.
      injection Hstep as _ <-. by exists [].
    + rewrite (skb_holds_dequeue_some _ _ _ Hq) in Hstep.
      injection Hstep as _ <-. exists q. split; [|done].
      by eapply skb_holds_pop.
Qed.

Lemma queue_seq_cons (skbs : gmap Z sk_buff) (r : skb_ring) (p : Z)
    (ps : list Z) :
  queue_seq skbs r (p :: ps) =
    '(ret, r1) ← skb_ring_queue skbs r p;
    '(rets, r2) ← queue_seq skbs r1 ps;
    Done (ret :: rets, r2).
Proof. reflexivity. Qed.

Lemma dequeue_seq_S (n : nat) (r : skb_ring) :
  dequeue_seq (S n) r =
    '(p, r1) ← skb_ring_dequeue r;
    '(ps, r2) ← dequeue_seq n r1;
    Done (p :: ps, r2).
Proof. reflexivity. Qed.

(** With room for all of them, consecutive queues succeed and append
    their descriptors in call order. *)
Lemma skb_holds_queue_seq_room (skbs : gmap Z sk_buff) (ps : list Z) :
  forall (r : skb_ring) (q : list skb_desc),
  holds r q ->
  Forall (fun p => is_Some (skbs !! p)) ps ->
  Z.of_nat (length q) + Z.of_nat (length ps) < size r ->
  exists r',
    queue_seq skbs r ps = Done (replicate (length ps) 0, r') /\
    holds r' (q ++ (desc_of skbs <$> ps)) /\
    size r' = size r.
Proof.
  induction ps as [|p ps IH]; intros r q Hq Hps Hroom.
  - exists r. cbn. by rewrite app_nil_r.
  - apply Forall_cons in Hps as [[b Hb] Hps]. cbn [length] in Hroom.
    destruct (skb_holds_queue_room skbs r q p b Hq) as (r1 & Hr1 & Hh1 & Hs1);
      [lia|done|].
    destruct (IH r1 _ Hh1 Hps) as (r2 & Hr2 & Hh2 & Hs2).
    { rewrite length_app, Hs1. cbn [length]. lia. }
    exists r2. rewrite queue_seq_cons, Hr1. cbn. rewrite Hr2. cbn.
    split_and!; [done| |congruence].
    rewrite <- app_assoc in Hh2. cbn in Hh2.
    assert (desc_of skbs p = mk_skb_desc p (cached_len b)) as Hd
      by (unfold desc_of; by rewrite Hb).
    cbn [fmap list_fmap]. by rewrite Hd.
Qed.

(** Consecutive queues that all report success had room and readable
    packets. *)
Lemma queue_seq_success (skbs : gmap Z sk_buff) (ps : list Z) :
  forall (r : skb_ring) (q : list skb_desc) (rets : list Z) (r' : skb_ring),
  holds r q ->
  queue_seq skbs r ps = Done (rets, r') ->
  Forall (fun ret => ret = 0) rets ->
  Forall (fun p => is_Some (skbs !! p)) ps /\
  Z.of_nat (length q) + Z.of_nat (length ps) < size r.
Proof.
  induction ps as [|p ps IH]; intros r q rets r' Hq Hrun Hrets.
  - split; [done|]. pose proof (skb_holds_length _ _ Hq). cbn. lia.
  - rewrite queue_seq_cons in Hrun.
    pose proof (skb_holds_length _ _ Hq) as Hlt.
    destruct (decide (Z.of_nat (length q) + 1 = size r)) as [Hfull|Hroom].
    { rewrite (skb_holds_queue_full _ _ _ _ Hq Hfull) in Hrun. cbn in Hrun.
      destruct (queue_seq skbs r ps) as [[rets1 r1]|]; [|done].
      cbn in Hrun. injection Hrun as <- <-.
      apply Forall_cons in Hrets as [Hbad _]. by unfold EFAULT in Hbad. }
    destruct (skbs !! p) as [b|] eqn:Hb.
    2: { by rewrite (skb_holds_queue_bad _ _ _ _ Hq) in Hrun by (lia || done). }
    destruct (skb_holds_queue_room skbs r q p b Hq) as (r1 & Hr1 & Hh1 & Hs1);
      [lia|done|].
    rewrite Hr1 in Hrun. cbn in Hrun.
    destruct (queue_seq skbs r1 ps) as [[rets1 r2]|] eqn:Hrun1; [|done].
    cbn in Hrun. injection Hrun as <- <-.
    apply Forall_cons in Hrets as [_ Hrets].
    destruct (IH r1 _ rets1 r2 Hh1 Hrun1 Hrets) as [Hps Hlen].
    rewrite length_app, Hs1 in Hlen. cbn [length] in *.
    split; [|lia]. apply Forall_cons. split; [by eexists|done].
Qed.

(** Consecutive dequeues hand out the resident pointers oldest first. *)
Lemma skb_holds_dequeue_seq (q1 : list skb_desc) :
  forall (r : skb_ring) (q2 : list skb_desc),
  holds r (q1 ++ q2) ->
  exists r',
    dequeue_seq (length q1) r = Done (skb <$> q1, r') /\
    holds r' q2 /\
    size r' = size r.
Proof.
  induction q1 as [|d q1 IH]; intros r q2 Hq.
  - by exists r.
  - cbn [length]. rewrite dequeue_seq_S.
    rewrite (skb_holds_dequeue_some r d (q1 ++ q2) Hq). cbn.
    apply skb_holds_pop in Hq.
    destruct (IH _ q2 Hq) as (r' & Hrun & Hh & Hs).
    exists r'. rewrite Hrun. by cbn.
Qed.

Lemma skb_desc_of (skbs : gmap Z sk_buff) (ps : list Z) :
  skb <$> (desc_of skbs <$> ps) = ps.
Proof. induction ps as [|p ps IH]; [done|]. cbn. by rewrite IH. Qed.

(** ** The purge loop *)

(** Once entered, the loop never leaves: its condition only reads the two
    locals and [ring->size], none of which the body changes, and every
    turn hands the same descriptor's packet to [kfree_skb]. *)
Lemma purge_loop_spins (fuel : nat) :
  forall (hd tl : Z) (r : skb_ring) (d : skb_desc),
  (1 <=? CIRC_CNT hd tl (size r)) = true ->
  desc_load r tl = Done d ->
  purge_loop fuel hd tl r = (replicate fuel (skb d), Fail OutOfFuel).
Proof.
  induction fuel as [|fuel IH]; intros hd tl r d Hcnt Hld.
  - cbn. by rewrite Hcnt.
  - cbn [purge_loop]. rewrite Hcnt, Hld.
    rewrite (IH hd tl _ d); [done|done|].
    by destruct r.
Qed.

Lemma purge_empty (fuel : nat) (r : skb_ring) :
  holds r [] -> skb_ring_purge fuel r = ([], Done r).
Proof.
  intros Hh. pose proof (skb_holds_count _ _ Hh) as Hcnt.
  destruct Hh as (_ & _ & _ & Hr & Hw & _).
  unfold skb_ring_purge. rewrite Hr. cbn. rewrite Hw. cbn.
  assert (Hloop : purge_loop fuel (head r) (tail r)
            (set_wlock (set_rlock r Locked) Locked)
          = ([], Done (set_wlock (set_rlock r Locked) Locked))).
  { destruct fuel; cbn; cbn in Hcnt; by rewrite Hcnt. }
  rewrite Hloop. cbn. destruct r; cbn in *. by subst.
Qed.

Lemma purge_spins (fuel : nat) (r : skb_ring) (d : skb_desc)
    (q : list skb_desc) :
  holds r (d :: q) ->
  skb_ring_purge fuel r = (replicate fuel (skb d), Fail OutOfFuel).
Proof.
  intros Hh. pose proof (skb_holds_count _ _ Hh) as Hcnt.
  pose proof (skb_holds_oldest _ _ _ Hh) as Hld.
  destruct Hh as (_ & _ & _ & Hr & Hw & _).
  unfold skb_ring_purge. rewrite Hr. cbn. rewrite Hw. cbn.
  rewrite (purge_loop_spins fuel _ _ _ d); [done| |by destruct r].
  cbn -[Z.of_nat]. rewrite Hcnt. cbn [length]. apply Z.leb_le. lia.
Qed.


End SkbRingFacts.

(** * The pointer table meets the requirements *)

Module PtrTableFacts.
Import CoreRing PtrTable.

Lemma read_insert (m : gmap Z Z) (a v : Z) : read (<[a := v]> m) a = v.
Proof. unfold read. by rewrite lookup_insert_eq. Qed.

Lemma read_insert_ne (m : gmap Z Z) (a b v : Z) :
  a ≠ b -> read (<[a := v]> m) b = read m b.
Proof. intros Hne. unfold read. by rewrite lookup_insert_ne. Qed.

Lemma ptr_table_ok (base n : Z) : table_ok (ptr_fns base) read ptr_valid n.
Proof.
  split; cbn.
  - done.
  - done.
  - unfold slot_addr. intros _ i j _ _ Heq. lia.
  - done.
  - intros m d s. apply read_insert.
  - intros m d s a Hne. by apply read_insert_ne.
  - intros m i _. by rewrite read_insert.
  - intros m i a Hne. by apply read_insert_ne.
Qed.

(** The example states are what they are said to be. *)
Lemma state4_holds : holds Examples.fns64 read ptr_valid Examples.state4 [].
Proof.
  unfold CoreRing.holds. cbn. unfold INT_MAX.
  split_and!; try done; try lia.
  intros j Hj.
  assert (j = 0 \/ j = 1 \/ j = 2 \/ j = 3) as [->|[->|[->| ->]]] by lia;
    reflexivity.
Qed.

Lemma state4_user_buf (a : Z) :
  1000 <= a -> user_buf Examples.fns64 Examples.state4 a.
Proof.
  intros Ha. split; [unfold NULL; lia|].
  cbn. unfold slot_addr. intros i Hi. lia.
Qed.

End PtrTableFacts.

(** * The properties of the specification *)

Section CoreClaims.
Import CoreRing CoreRingFacts.
Context {M : Type} (fns : ring_fns M).

(** C10 -- Zero-capacity produce is total.  [core_ring_init] accepts the
    size 0, and on every ring whose size field is 0 [__core_ring_produce]
    returns [-ENOSPC] at once: the state it returns is the state it was
    given, call log included, so no callback (validity test, seek or copy)
    was invoked and no slot was read or written. *)
Theorem produce_zero_size_total (s : state M) (ptr : Z) (r0 : core_ring) :
  CoreRing.size (ring s) = 0 ->
  (core_ring_init r0 0).1 = 0 /\
  CoreRing.size (core_ring_init r0 0).2 = 0 /\
  __core_ring_produce fns s ptr = (- ENOSPC, s) /\
  calls (__core_ring_produce fns s ptr).2 = calls s /\
  mem (__core_ring_produce fns s ptr).2 = mem s /\
  ring (__core_ring_produce fns s ptr).2 = ring s.
Proof.
  intros Hz. rewrite (produce_zero fns s ptr Hz). by split_and!.
Qed.

(** C2 -- Produce step.  On a ring of non-zero size, produce tests the
    validity of the slot at the producer index.  If the slot is valid it
    returns [-ENOSPC] and neither the ring structure nor the memory
    changes.  Otherwise it copies the element into that slot with
    [copy_fn] (at the address [seek_fn] gives), steps the producer index,
    resetting it to 0 when it reaches the size, and returns 0; no other
    field of the ring changes.  In both cases the consumer index and the
    consumer lock are neither read nor written: running produce on a state
    whose consumer side was replaced gives the same result with the same
    replacement. *)
Theorem produce_step (s : state M) (ptr : Z) :
  CoreRing.size (ring s) ≠ 0 ->
  let p := producer (ring s) in
  let n := CoreRing.size (ring s) in
  let res := __core_ring_produce fns s ptr in
  (if valid_fn fns (mem s) p
   then res.1 = - ENOSPC /\
        ring res.2 = ring s /\
        mem res.2 = mem s /\
        calls res.2 = calls s ++ [CallValid p]
   else res.1 = 0 /\
        mem res.2 = copy_fn fns (mem s) (seek_fn fns (mem s) p) ptr /\
        calls res.2 =
          calls s ++ [CallValid p; CallSeek p;
                      CallCopy (seek_fn fns (mem s) p) ptr] /\
        ring res.2 =
          set_producer (ring s)
            (if n <=? wrap_int (p + 1) then 0 else wrap_int (p + 1)) /\
        (0 <= p < n /\ n <= INT_MAX ->
         producer (ring res.2) = (p + 1) mod n)) /\
  (forall (c : Z) (l : spinlock),
     __core_ring_produce fns (with_consumer_side s c l) ptr =
       (res.1, with_consumer_side res.2 c l)).
Proof.
  intros Hz p n res. subst p n res. split.
  - destruct (valid_fn fns (mem s) (producer (ring s))) eqn:Hv.
    + by rewrite produce_full.
    + rewrite produce_room by done. cbn [fst snd ring mem calls].
      split_and!; try done.
      intros [Hp Hn]. cbn.
      rewrite wrap_int_id by (unfold INT_MAX in *; lia).
      by apply succ_wrap_mod.
  - intros c l.
    destruct (valid_fn fns (mem s) (producer (ring s))) eqn:Hv.
    + rewrite !produce_full by done. done.
    + rewrite !produce_room by done. done.
Qed.

(** C3 -- Consume step.  Consume tests the validity of the slot at the
    consumer index.  If the slot is valid it copies the slot to the
    caller's buffer, zeroes the slot, steps the consumer index, resetting
    it to 0 when it reaches the size, and returns the buffer, which (for a
    table meeting its requirements and a buffer that is not the slot) then
    holds the entry the slot held.  If the slot is not valid it returns
    [NULL] and changes neither the ring structure nor the memory, and so
    does every further call of any run of consume calls.  An empty ring
    (freshly initialised or drained) has an invalid consumer slot, and
    after a produce into it the next consume returns the produced entry. *)
Theorem consume_step (s : state M) (ptr : Z) :
  let c := consumer (ring s) in
  let n := CoreRing.size (ring s) in
  let res := __core_ring_consume fns s ptr in
  (if valid_fn fns (mem s) c
   then res.1 = ptr /\
        mem res.2 =
          zero_fn fns (copy_fn fns (mem s) ptr (seek_fn fns (mem s) c)) c /\
        calls res.2 =
          calls s ++ [CallValid c; CallSeek c;
                      CallCopy ptr (seek_fn fns (mem s) c); CallZero c] /\
        ring res.2 =
          set_consumer (ring s)
            (if n <=? wrap_int (c + 1) then 0 else wrap_int (c + 1)) /\
        (0 <= c < n /\ n <= INT_MAX ->
         consumer (ring res.2) = (c + 1) mod n) /\
        (forall (E : Type) (load : M -> Z -> E) (entry_valid : E -> bool),
           table_ok fns load entry_valid n ->
           ptr ≠ seek_fn fns (mem s) c ->
           load (mem res.2) ptr = load (mem s) (seek_fn fns (mem s) c))
   else res.1 = NULL /\
        ring res.2 = ring s /\
        mem res.2 = mem s /\
        forall ptrs : list Z,
          (consume_seq fns s ptrs).1 = (fun _ => NULL) <$> ptrs /\
          ring (consume_seq fns s ptrs).2 = ring s /\
          mem (consume_seq fns s ptrs).2 = mem s) /\
  (forall (E : Type) (load : M -> Z -> E) (entry_valid : E -> bool),
     table_ok fns load entry_valid n ->
     CoreRing.holds fns load entry_valid s [] ->
     valid_fn fns (mem s) c = false /\
     forall src out : Z,
       entry_valid (load (mem s) src) = true ->
       user_buf fns s out ->
       (consume_entry fns load (__core_ring_produce fns s src).2 out).1
         = Some (load (mem s) src)).
Proof.
  intros c n res. subst c n res. split.
  - destruct (valid_fn fns (mem s) (consumer (ring s))) eqn:Hv.
    + rewrite consume_some by done. cbn [fst snd ring mem calls].
      split_and!; try done.
      * intros [Hc Hn]. cbn.
        rewrite wrap_int_id by (unfold INT_MAX in *; lia).
        by apply succ_wrap_mod.
      * intros E load entry_valid Hok Hne.
        rewrite (load_zero_ne _ _ _ _ Hok).
        -- apply (load_copy _ _ _ _ Hok).
        -- by rewrite (seek_copy _ _ _ _ Hok).
    + rewrite consume_none by done. cbn [fst snd ring mem calls].
      split_and!; try done.
      intros ptrs. by rewrite consume_seq_none.
  - intros E load entry_valid Hok Hh.
    split; [by eapply holds_empty_slot|].
    intros src out Hval Hbuf.
    pose proof (holds_length _ _ _ _ _ Hh) as Hlen.
    destruct Hh as (Hsz & Hrest). cbn [length] in *.
    destruct (holds_produce fns load entry_valid _ Hok s [] src eq_refl)
      as [_ Hh1]; [by split|cbn; lia|done|].
    eapply consume_entry_some; [done| |exact Hh1|].
    + apply produce_size.
    + by apply (produce_user_buf fns load entry_valid _ Hok).
Qed.

End CoreClaims.

Section CoreQueueClaims.
Import CoreRing CoreRingFacts.
Context {M E : Type} (fns : ring_fns M).
Context (load : M -> Z -> E) (entry_valid : E -> bool).

(** C6 -- Batched consume equivalence.  On a ring holding the [k] entries
    [q], with a budget [n >= k] and the [k] caller buffers [array],
    [array + entry_size], ..., [__core_ring_consume_batched] returns [k];
    it leaves the ring structure and the memory exactly as [k] single
    consume calls into those buffers do; the buffers, when distinct, then
    hold [q] in order, which is what the single calls return one by one;
    and the only callback it invokes beyond those of the single calls is
    the one validity test that finds the ring empty, when [k < n]. *)
Theorem batched_consume_equivalence (s : state M) (q : list E) (array n : Z) :
  table_ok fns load entry_valid (CoreRing.size (ring s)) ->
  CoreRing.holds fns load entry_valid s q ->
  Z.of_nat (length q) <= n ->
  let bufs := batch_bufs (entry_size (ring s)) array (length q) in
  Forall (user_buf fns s) bufs ->
  let batch := __core_ring_consume_batched fns s array n in
  let singles := consume_seq fns s bufs in
  batch.1 = Z.of_nat (length q) /\
  ring batch.2 = ring singles.2 /\
  mem batch.2 = mem singles.2 /\
  calls batch.2 =
    calls singles.2 ++
    (if decide (Z.of_nat (length q) < n)
     then [CallValid (consumer (ring singles.2))] else []) /\
  (NoDup bufs -> load (mem batch.2) <$> bufs = q) /\
  (consume_entries fns load s bufs).1 = Some <$> q /\
  CoreRing.holds fns load entry_valid batch.2 [].
Proof.
  intros Hok Hh Hn bufs Hbufs batch singles.
  assert (Hlen : length bufs = length q) by apply batch_bufs_length.
  destruct (holds_consume_seq fns load entry_valid _ Hok q bufs s [])
    as (_ & Hh1 & _ & Hfill & _); [done|by rewrite app_nil_r|done|done|].
  destruct (holds_consume_entries fns load entry_valid _ Hok q bufs s [])
    as (Hes & _ & _); [done|by rewrite app_nil_r|done|done|].
  pose proof (batched_loop_singles fns load entry_valid _ Hok (length q)
                (Z.to_nat n) s q array 0 eq_refl Hh eq_refl) as Hloop.
  cbn zeta in Hloop. fold bufs in Hloop.
  subst batch singles. unfold __core_ring_consume_batched.
  rewrite Hloop by (lia || done). cbn [fst snd].
  destruct (decide (length q < Z.to_nat n)%nat),
           (decide (Z.of_nat (length q) < n)); try lia;
    cbn [logged ring mem calls]; by rewrite ?app_nil_r.
Qed.

End CoreQueueClaims.

Section RingClaims.
Import CoreRing CoreRingFacts.
Import SkbRing SkbRingFacts.

(** C1 -- FIFO order, for both rings.  Index-based ring: starting from an
    empty ring, after any run of produce calls that all return 0, placing
    the entries found in the caller buffers [srcs], as many consume calls
    return exactly those entries in the same order.  Packet ring: starting
    from an empty ring, after any run of [skb_ring_queue] calls that all
    return 0, queueing the pointers [ps], as many [skb_ring_dequeue] calls
    return exactly [ps] in the same order. *)
Theorem fifo_order :
  (forall (M E : Type) (fns : ring_fns M) (load : M -> Z -> E)
          (entry_valid : E -> bool) (s0 : state M) (srcs outs : list Z),
     table_ok fns load entry_valid (CoreRing.size (ring s0)) ->
     CoreRing.holds fns load entry_valid s0 [] ->
     Forall (user_buf fns s0) srcs ->
     Forall (fun a => entry_valid (load (mem s0) a) = true) srcs ->
     Forall (fun ret => ret = 0) (produce_seq fns s0 srcs).1 ->
     length outs = length srcs ->
     Forall (user_buf fns s0) outs ->
     (consume_entries fns load (produce_seq fns s0 srcs).2 outs).1
       = Some <$> (load (mem s0) <$> srcs)) /\
  (forall (skbs : gmap Z sk_buff) (r0 r1 : skb_ring) (ps rets : list Z),
     SkbRing.holds r0 [] ->
     queue_seq skbs r0 ps = Done (rets, r1) ->
     Forall (fun ret => ret = 0) rets ->
     exists r2, dequeue_seq (length ps) r1 = Done (ps, r2)).
Proof.
  split.
  - intros M E fns load entry_valid s0 srcs outs Hok Hh Hsrcs Hvals Hrets
      Hlen Houts.
    destruct (holds_produce_seq fns load entry_valid _ Hok srcs s0 []
                eq_refl Hh Hsrcs Hvals (or_intror Hrets))
      as (_ & Hh1 & Hsz1 & _ & Hkeep).
    destruct (holds_consume_entries fns load entry_valid _ Hok
                (load (mem s0) <$> srcs) outs (produce_seq fns s0 srcs).2 [])
      as (Hes & _); try done.
    + by rewrite app_nil_r.
    + by rewrite length_fmap.
    + eapply Forall_impl; [exact Houts|]. intros a Ha. by apply Hkeep.
  - intros skbs r0 r1 ps rets Hh Hrun Hrets.
    destruct (queue_seq_success skbs ps r0 [] rets r1 Hh Hrun Hrets)
      as [Hps Hroom].
    destruct (skb_holds_queue_seq_room skbs ps r0 [] Hh Hps Hroom)
      as (r1' & Hrun' & Hh1 & _).
    assert (r1' = r1) as -> by congruence.
    destruct (skb_holds_dequeue_seq (desc_of skbs <$> ps) r1 [])
      as (r2 & Hdq & _); [by rewrite app_nil_r|].
    rewrite length_fmap, skb_desc_of in Hdq. by exists r2.
Qed.

(** C4 (amended) -- Full rejects without corrupting.  Index-based ring of
    capacity [C]: [C] consecutive produce calls on the empty ring all
    return 0, the next returns [-ENOSPC] and changes neither the ring
    structure nor the memory, and [C] consume calls then return the [C]
    entries in their original order.  Packet ring of capacity [C]: [C - 1]
    consecutive queue calls on the empty ring all return 0, the next
    returns [-EFAULT] and leaves the ring as it was, and [C - 1] dequeue
    calls then return the [C - 1] pointers in their original order. *)
Theorem full_rejects_without_corrupting :
  (forall (M E : Type) (fns : ring_fns M) (load : M -> Z -> E)
          (entry_valid : E -> bool) (s0 : state M) (srcs outs : list Z)
          (extra : Z),
     table_ok fns load entry_valid (CoreRing.size (ring s0)) ->
     CoreRing.holds fns load entry_valid s0 [] ->
     Z.of_nat (length srcs) = CoreRing.size (ring s0) ->
     Forall (user_buf fns s0) srcs ->
     Forall (fun a => entry_valid (load (mem s0) a) = true) srcs ->
     length outs = length srcs ->
     Forall (user_buf fns s0) outs ->
     let filled := produce_seq fns s0 srcs in
     let over := __core_ring_produce fns filled.2 extra in
     filled.1 = replicate (length srcs) 0 /\
     over.1 = - ENOSPC /\
     ring over.2 = ring filled.2 /\
     mem over.2 = mem filled.2 /\
     (consume_entries fns load over.2 outs).1
       = Some <$> (load (mem s0) <$> srcs)) /\
  (forall (skbs : gmap Z sk_buff) (r0 : skb_ring) (ps : list Z) (extra : Z),
     SkbRing.holds r0 [] ->
     Z.of_nat (length ps) + 1 = SkbRing.size r0 ->
     Forall (fun p => is_Some (skbs !! p)) ps ->
     exists r1 r2,
       queue_seq skbs r0 ps = Done (replicate (length ps) 0, r1) /\
       skb_ring_queue skbs r1 extra = Done (- EFAULT, r1) /\
       dequeue_seq (length ps) r1 = Done (ps, r2)).
Proof.
  split.
  - intros M E fns load entry_valid s0 srcs outs extra Hok Hh Hfull Hsrcs
      Hvals Hlen Houts filled over. subst filled over.
    destruct (holds_produce_seq fns load entry_valid _ Hok srcs s0 []
                eq_refl Hh Hsrcs Hvals)
      as (Hrets & Hh1 & Hsz1 & _ & Hkeep); [left; cbn; lia|].
    cbn [app] in Hh1.
    assert (Hv : valid_fn fns (mem (produce_seq fns s0 srcs).2)
                   (producer (ring (produce_seq fns s0 srcs).2)) = true).
    { eapply (holds_full_slot fns load entry_valid _ Hok); [done|exact Hh1|].
      rewrite length_fmap. congruence. }
    pose proof Hh as (Hsz & _).
    rewrite produce_full by (done || lia). cbn [fst snd ring mem].
    split_and!; try done.
    destruct (holds_consume_entries fns load entry_valid _ Hok
                (load (mem s0) <$> srcs) outs
                (mk_state (ring (produce_seq fns s0 srcs).2)
                          (mem (produce_seq fns s0 srcs).2)
                          (calls (produce_seq fns s0 srcs).2 ++
                           [CallValid
                              (producer (ring (produce_seq fns s0 srcs).2))]))
                [])
      as (Hes & _); try done.
    + rewrite app_nil_r.
      apply (holds_calls fns load entry_valid _ _
               (calls (produce_seq fns s0 srcs).2)).
      by destruct (produce_seq fns s0 srcs).2.
    + by rewrite length_fmap.
    + eapply Forall_impl; [exact Houts|]. intros a Ha.
      destruct (Hkeep a Ha) as [[Hnull Hbuf] _]. by split.
  - intros skbs r0 ps extra Hh Hfull Hps.
    destruct (skb_holds_queue_seq_room skbs ps r0 [] Hh Hps)
      as (r1 & Hrun & Hh1 & Hs1); [cbn; lia|].
    destruct (skb_holds_dequeue_seq (desc_of skbs <$> ps) r1 [])
      as (r2 & Hdq & _); [by rewrite app_nil_r|].
    rewrite length_fmap, skb_desc_of in Hdq.
    exists r1, r2. split_and!; try done.
    eapply skb_holds_queue_full; [exact Hh1|].
    cbn [app]. rewrite length_fmap. congruence.
Qed.

(** C5 -- Count invariant, for both rings.  In every state reached from
    initialisation by any interleaving of produce and consume calls, the
    logical element count (the number of occupied slots for the
    index-based ring, [skb_ring_queue_len] for the packet ring) is
    congruent to producer index minus consumer index modulo the capacity,
    lies between 0 and the capacity, and both indices lie in
    [0, capacity). *)
Theorem count_invariant :
  (forall (M E : Type) (fns : ring_fns M) (load : M -> Z -> E)
          (entry_valid : E -> bool) (n : Z) (s : state M),
     0 < n <= INT_MAX ->
     table_ok fns load entry_valid n ->
     CoreRing.reachable fns load entry_valid n s ->
     let count := Z.of_nat (count_valid fns s) in
     count mod n = (producer (ring s) - consumer (ring s)) mod n /\
     0 <= count <= n /\
     0 <= producer (ring s) < n /\
     0 <= consumer (ring s) < n /\
     CoreRing.size (ring s) = n) /\
  (forall (n : Z) (r : skb_ring),
     is_pow2 n ->
     n <= INT_MAX ->
     SkbRing.reachable n r ->
     let count := skb_ring_queue_len r in
     count = (head r - tail r) mod n /\
     0 <= count <= n /\
     0 <= head r < n /\
     0 <= tail r < n /\
     SkbRing.size r = n).
Proof.
  split.
  - intros M E fns load entry_valid n s Hn Hok Hr count. subst count.
    destruct (CoreRingFacts.reachable_holds fns load entry_valid n Hok s Hn Hr)
      as (q & Hh & Hsz).
    rewrite (holds_count_valid fns load entry_valid n Hok s q Hsz Hh).
    pose proof (holds_indices fns load entry_valid s q Hh) as [Hc Hp].
    destruct Hh as (_ & _ & Hlen & Hpe & _). rewrite Hsz in *.
    split_and!; try lia.
    rewrite Hpe, Zminus_mod_idemp_l. f_equal. lia.
  - intros n r Hn Hmax Hr count. subst count.
    destruct (skb_reachable_holds n r Hn Hr) as (q & Hh & Hsz).
    pose proof (skb_holds_count r q Hh) as Hcnt.
    pose proof (skb_holds_length r q Hh) as Hlt.
    destruct Hh as (_ & Ht & Hhd & _ & _ & Hlen & _).
    unfold skb_ring_queue_len. rewrite Hcnt, Hsz in *.
    rewrite wrap_int_id by (unfold INT_MAX in *; lia).
    split_and!; try lia.
Qed.

(** C7 -- Packet-ring length caching.  A queue on a ring with room stores
    the packet pointer together with a cached length equal to the packet's
    byte length, plus [VLAN_HLEN] exactly when the packet carries a VLAN
    tag.  [skb_ring_peek] returns the cached length of the oldest
    descriptor when the ring holds at least one, and 0 when it holds none;
    it is computed from the ring alone, without the packet memory. *)
Theorem length_caching (skbs : gmap Z sk_buff) (r : skb_ring)
    (q : list skb_desc) (p : Z) (b : sk_buff) :
  SkbRing.holds r q ->
  Z.of_nat (length q) + 1 < SkbRing.size r ->
  skbs !! p = Some b ->
  0 <= skb_len b /\ skb_len b + VLAN_HLEN <= INT_MAX ->
  let cached :=
    skb_len b + (if skb_vlan_tag_present b then VLAN_HLEN else 0) in
  exists r',
    skb_ring_queue skbs r p = Done (0, r') /\
    SkbRing.holds r' (q ++ [mk_skb_desc p cached]) /\
    skb_ring_peek r' =
      Done (match q with [] => cached | d :: _ => len d end) /\
    skb_ring_peek r = Done (match q with [] => 0 | d :: _ => len d end).
Proof.
  intros Hh Hroom Hb [Hl0 Hl1] cached.
  destruct (skb_holds_queue_room skbs r q p b Hh Hroom Hb)
    as (r' & Hrun & Hh' & _).
  assert (Hc : cached_len b = cached).
  { subst cached. unfold cached_len, VLAN_HLEN, INT_MAX in *.
    rewrite (wrap_int_id (skb_len b)) by (unfold INT_MAX; lia).
    destruct (skb_vlan_tag_present b); [|lia].
    apply wrap_int_id. unfold INT_MAX. lia. }
  rewrite Hc in Hh'.
  exists r'. split_and!; try done.
  - rewrite (skb_holds_peek r' _ Hh'). by destruct q.
  - by rewrite (skb_holds_peek r q Hh).
Qed.

(** C9 (amended) -- Initialisation.  [core_ring_init] allocates nothing
    and never fails: for every size, zero included, it returns 0 with
    both indices zero, both locks initialised and the size recorded.
    [skb_ring_init] with a power-of-two size fails exactly when the
    allocation of the descriptors fails, and then returns [-ENOMEM] with
    [descs] [NULL] and [size] left as it was; otherwise it returns 0 with
    both indices zero, both locks initialised, the descriptors allocated
    and the size recorded. *)
Theorem init_error_taxonomy :
  (forall (r : core_ring) (sz : Z),
     let res := core_ring_init r sz in
     res.1 = 0 /\
     producer res.2 = 0 /\ consumer res.2 = 0 /\
     producer_lock res.2 = Unlocked /\ consumer_lock res.2 = Unlocked /\
     CoreRing.size res.2 = sz) /\
  (forall (kmalloc : Z -> option (list skb_desc)) (r : skb_ring) (sz : Z),
     is_pow2 sz ->
     let res := skb_ring_init kmalloc r sz in
     let alloc := kmalloc (wrap_ulong (sz * sizeof_skb_desc)) in
     (res.1 = - ENOMEM <-> alloc = None) /\
     (res.1 = 0 <-> alloc ≠ None) /\
     head res.2 = 0 /\ tail res.2 = 0 /\
     rlock res.2 = Unlocked /\ wlock res.2 = Unlocked /\
     descs res.2 = alloc /\
     SkbRing.size res.2 =
       match alloc with Some _ => sz | None => SkbRing.size r end).
Proof.
  split.
  - intros r sz res. subst res. by cbn.
  - intros kmalloc r sz _ res alloc. subst res alloc.
    unfold skb_ring_init. cbn.
    destruct (kmalloc (wrap_ulong (sz * sizeof_skb_desc))); cbn;
      unfold ENOMEM; split_and!; try done; split; done.
Qed.

End RingClaims.

(** Prove a [Forall] over an explicit list, element by element. *)
Ltac each_elem tac :=
  repeat (apply Forall_cons; split; [tac|]); apply Forall_nil_2.

Section ConcreteRuns.
Import CoreRing CoreRingFacts PtrTable PtrTableFacts.
Import SkbRing SkbRingFacts.
Import Examples.

(** The example rings are what they are said to be. *)
Lemma pow2_4 : is_pow2 4.
Proof. exists 2. split; [lia|done]. Qed.

Lemma skb4_holds : SkbRing.holds skb4 [].
Proof.
  eapply (skb_holds_init kmalloc_ok skb_raw skb4 4); [apply pow2_4|done..].
Qed.

Lemma skb4_one_holds : SkbRing.holds skb4_one [mk_skb_desc 4352 1504].
Proof.
  unfold SkbRing.holds. cbn.
  split_and!; try done; try lia; [apply pow2_4|].
  eexists. split_and!; try done.
  intros [|j] d Hd; [by injection Hd as <-|done].
Qed.

(** C8 -- Purge on a ring with one resident packet.  The loop of
    [skb_ring_purge] tests the two locals it read before the loop and never
    assigns them, so on the ring [skb4_one] (capacity 4, one resident
    packet at 4352) it never ends: whatever the fuel, the run is still in
    the loop when the fuel is spent, having handed the same packet to
    [kfree_skb] once per turn. *)
Theorem purge_never_returns :
  forall fuel : nat,
    skb_ring_purge fuel skb4_one = (replicate fuel 4352, Fail OutOfFuel).
Proof.
  intros fuel.
  apply (purge_spins fuel skb4_one (mk_skb_desc 4352 1504) []).
  apply skb4_one_holds.
Qed.

(** [produce_zero_size_total] on the pointer ring of size 0. *)
Lemma produce_zero_size_total_witness :
  __core_ring_produce fns64 state0 1000 = (- ENOSPC, state0) /\
  calls (__core_ring_produce fns64 state0 1000).2 = [].
Proof.
  pose proof (produce_zero_size_total fns64 state0 1000
                (mk_core_ring 0 LockUninit 0 LockUninit 0 8) eq_refl)
    as (_ & _ & Hret & Hcalls & _).
  split; [exact Hret|exact Hcalls].
Defined.

(** [produce_step] on the empty pointer ring of four slots. *)
Lemma produce_step_witness :
  (__core_ring_produce fns64 state4 1000).1 = 0 /\
  producer (ring (__core_ring_produce fns64 state4 1000).2) = 1 /\
  consumer (ring (__core_ring_produce fns64 state4 1000).2) = 0.
Proof.
  assert (Hsz : CoreRing.size (ring state4) ≠ 0) by (cbn; lia).
  pose proof (produce_step fns64 state4 1000 Hsz) as [Hstep _].
  cbn zeta in Hstep.
  change (valid_fn fns64 (mem state4) (producer (ring state4)))
    with false in Hstep.
  destruct Hstep as (Hret & _ & _ & Hring & _).
  rewrite Hring. by split_and!.
Defined.

(** [fifo_order] on three pointers through the ring of four slots, and on
    three packets through the packet ring of capacity 4. *)
Lemma fifo_order_witness :
  (consume_entries fns64 read
     (produce_seq fns64 state4 [1000; 1008; 1016]).2 [2000; 2008; 2016]).1
    = [Some 11; Some 22; Some 33] /\
  (exists r2, dequeue_seq 3
     (mk_skb_ring Unlocked 0 4
        (Some [mk_skb_desc 4096 60; mk_skb_desc 4352 1504;
               mk_skb_desc 4608 64; mk_skb_desc 0 0]) 3 Unlocked)
     = Done ([4096; 4352; 4608], r2)).
Proof.
  split.
  - apply (proj1 fifo_order (gmap Z Z) Z fns64 read ptr_valid state4
             [1000; 1008; 1016] [2000; 2008; 2016]).
    + apply ptr_table_ok.
    + apply state4_holds.
    + each_elem ltac:(apply state4_user_buf; lia).
    + each_elem ltac:(reflexivity).
    + vm_compute. each_elem ltac:(reflexivity).
    + reflexivity.
    + each_elem ltac:(apply state4_user_buf; lia).
  - apply (proj2 fifo_order skbs4 skb4 _ [4096; 4352; 4608] [0; 0; 0]).
    + apply skb4_holds.
    + vm_compute. reflexivity.
    + each_elem ltac:(reflexivity).
Defined.

End ConcreteRuns.

Section MoreConcreteRuns.
Import CoreRing CoreRingFacts PtrTable PtrTableFacts.
Import SkbRing SkbRingFacts.
Import Examples.

Lemma state4_two_holds :
  CoreRing.holds fns64 read ptr_valid state4_two [11; 22] /\
  CoreRing.size (ring state4_two) = 4.
Proof.
  destruct (holds_produce_seq fns64 read ptr_valid 4 (ptr_table_ok 64 4)
              [1000; 1008] state4 [] eq_refl state4_holds)
    as (_ & Hh & Hsz & _).
  - each_elem ltac:(apply state4_user_buf; lia).
  - each_elem ltac:(reflexivity).
  - left. cbn. lia.
  - by split.
Qed.

Lemma state4_two_user_buf (a : Z) :
  1000 <= a -> user_buf fns64 state4_two a.
Proof.
  intros Ha. split; [unfold NULL; lia|].
  intros i Hi. change (CoreRing.size (ring state4_two)) with 4 in Hi.
  change (seek_fn fns64 (mem state4_two) i) with (slot_addr 64 i).
  unfold slot_addr. lia.
Qed.

(** [consume_step] on the ring holding two pointers and on the empty one. *)
Lemma consume_step_witness :
  (__core_ring_consume fns64 state4_two 2000).1 = 2000 /\
  read (mem (__core_ring_consume fns64 state4_two 2000).2) 2000 = 11 /\
  (__core_ring_consume fns64 state4 2000).1 = NULL.
Proof.
  pose proof (consume_step fns64 state4_two 2000) as [Hfull _].
  pose proof (consume_step fns64 state4 2000) as [Hempty _].
  cbn zeta in Hfull, Hempty.
  change (valid_fn fns64 (mem state4_two) (consumer (ring state4_two)))
    with true in Hfull.
  change (valid_fn fns64 (mem state4) (consumer (ring state4)))
    with false in Hempty.
  destruct Hfull as (Hret & _ & _ & _ & _ & Hload).
  destruct Hempty as (Hnull & _).
  split_and!; [exact Hret| |exact Hnull].
  rewrite (Hload Z read ptr_valid (ptr_table_ok 64 _)); [reflexivity|].
  change (seek_fn fns64 (mem state4_two) (consumer (ring state4_two)))
    with 64.
  lia.
Defined.

(** [batched_consume_equivalence] on the ring holding two pointers, with a
    budget of 5 and buffers at 2000 and 2008. *)
Lemma batched_consume_equivalence_witness :
  (__core_ring_consume_batched fns64 state4_two 2000 5).1 = 2 /\
  read (mem (__core_ring_consume_batched fns64 state4_two 2000 5).2)
    <$> [2000; 2008] = [11; 22] /\
  mem (__core_ring_consume_batched fns64 state4_two 2000 5).2
    = mem (consume_seq fns64 state4_two [2000; 2008]).2.
Proof.
  destruct state4_two_holds as [Hh Hsz].
  pose proof (batched_consume_equivalence fns64 read ptr_valid state4_two
                [11; 22] 2000 5 (ptr_table_ok 64 _) Hh) as Hb.
  cbn zeta in Hb.
  destruct Hb as (Hret & _ & Hmem & _ & Hfill & _).
  - cbn. lia.
  - change (Forall (user_buf fns64 state4_two) [2000; 2008]).
    each_elem ltac:(apply state4_two_user_buf; lia).
  - split_and!; [exact Hret| |exact Hmem].
    apply Hfill. apply NoDup_cons. split; [|apply NoDup_singleton].
    intros Hin. apply list_elem_of_singleton in Hin. discriminate Hin.
Defined.

(** [full_rejects_without_corrupting] on the ring of four slots filled
    with four pointers, and on the packet ring of capacity 4 filled with
    three packets. *)
Lemma full_rejects_without_corrupting_witness :
  (produce_seq fns64 state4 [1000; 1008; 1016; 1024]).1 = [0; 0; 0; 0] /\
  (__core_ring_produce fns64
     (produce_seq fns64 state4 [1000; 1008; 1016; 1024]).2 1032).1
    = - ENOSPC /\
  (consume_entries fns64 read
     (__core_ring_produce fns64
        (produce_seq fns64 state4 [1000; 1008; 1016; 1024]).2 1032).2
     [2000; 2008; 2016; 2024]).1
    = [Some 11; Some 22; Some 33; Some 44] /\
  (exists r1 r2,
     queue_seq skbs4 skb4 [4096; 4352; 4608] = Done ([0; 0; 0], r1) /\
     skb_ring_queue skbs4 r1 4864 = Done (- EFAULT, r1) /\
     dequeue_seq 3 r1 = Done ([4096; 4352; 4608], r2)).
Proof.
  pose proof (proj1 full_rejects_without_corrupting (gmap Z Z) Z fns64 read
                ptr_valid state4 [1000; 1008; 1016; 1024]
                [2000; 2008; 2016; 2024] 1032 (ptr_table_ok 64 _)
                state4_holds eq_refl) as Hcore.
  cbn zeta in Hcore.
  destruct Hcore as (Hrets & Hover & _ & _ & Hout).
  - each_elem ltac:(apply state4_user_buf; lia).
  - each_elem ltac:(reflexivity).
  - reflexivity.
  - each_elem ltac:(apply state4_user_buf; lia).
  - split_and!; [exact Hrets|exact Hover|exact Hout|].
    apply (proj2 full_rejects_without_corrupting skbs4 skb4
             [4096; 4352; 4608] 4864 skb4_holds eq_refl).
each_elem ltac:(by eexists).
Defined.

(** [count_invariant] after two produces on the ring of four slots, and
    on the freshly initialised packet ring. *)
Lemma count_invariant_witness :
  Z.of_nat (count_valid fns64 state4_two) mod 4
    = (producer (ring state4_two) - consumer (ring state4_two)) mod 4 /\
  0 <= Z.of_nat (count_valid fns64 state4_two) <= 4 /\
  skb_ring_queue_len skb4 = (head skb4 - tail skb4) mod 4.
Proof.
  assert (Hclear : forall i, 0 <= i < 4 -> valid_fn fns64 mem5 i = false).
  { intros j Hj.
    assert (j = 0 \/ j = 1 \/ j = 2 \/ j = 3) as [->|[->|[->| ->]]] by lia;
      reflexivity. }
  pose proof (CoreRing.reach_init fns64 read ptr_valid 4
                (mk_core_ring 0 Unlocked 0 Unlocked 4 8) mem5 Hclear) as R0.
  pose proof (CoreRing.reach_produce fns64 read ptr_valid 4 _ 1000 R0 eq_refl) as R1.
  pose proof (CoreRing.reach_produce fns64 read ptr_valid 4 _ 1008 R1 eq_refl) as R2.
  pose proof (proj1 count_invariant (gmap Z Z) Z fns64 read ptr_valid 4 _
                ltac:(unfold INT_MAX; lia) (ptr_table_ok 64 4) R2)
    as (Hcount & Hbound & _).
  pose proof (proj2 count_invariant 4 skb4 pow2_4
                ltac:(unfold INT_MAX; lia)
                (SkbRing.reach_init 4 kmalloc_ok skb_raw skb4 _
                   eq_refl eq_refl eq_refl))
    as (Hlen & _).
  split; [exact Hcount|split; [exact Hbound|exact Hlen]].
Defined.

(** [length_caching] on a tagged packet of 1500 bytes: 1504 is cached. *)
Lemma length_caching_witness :
  exists r',
    skb_ring_queue skbs4 skb4 4352 = Done (0, r') /\
    skb_ring_peek r' = Done 1504 /\
    skb_ring_peek skb4 = Done 0.
Proof.
  destruct (length_caching skbs4 skb4 [] 4352 (mk_sk_buff 1500 true)
              skb4_holds)
    as (r' & Hq & _ & Hpeek & Hpeek0).
  - cbn. lia.
  - reflexivity.
  - cbn. unfold VLAN_HLEN, INT_MAX. lia.
  - exists r'. split_and!; [exact Hq|exact Hpeek|exact Hpeek0].
Defined.

(** C4, refuted as stated: the packet ring initialised with capacity 4
    accepts three packets and refuses the fourth. *)
Lemma packet_ring_full_below_capacity :
  SkbRing.size skb4 = 4 /\
  SkbRing.holds skb4 [] /\
  match queue_seq skbs4 skb4 [4096; 4352; 4608; 4864] with
  | Done (rets, _) => rets = [0; 0; 0; - EFAULT]
  | Fail _ => False
  end.
Proof.
  split_and!; [reflexivity|apply skb4_holds|].
  vm_compute. reflexivity.
Qed.

(** C9, refuted as stated: [core_ring_init] asked for capacity zero
    returns 0, not [-EINVAL], and hands back a ring of size 0. *)
Lemma zero_capacity_accepted :
  (core_ring_init (mk_core_ring 0 LockUninit 0 LockUninit 0 8) 0).1 = 0 /\
  CoreRing.size
    (core_ring_init (mk_core_ring 0 LockUninit 0 LockUninit 0 8) 0).2 = 0 /\
  0 ≠ - EINVAL.
Proof. split_and!; [reflexivity|reflexivity|done]. Qed.

(** The ring on which purge is evaluated is the one [skb_ring_queue]
    itself builds from the freshly initialised ring. *)
Example skb4_one_queued :
  skb_ring_queue skbs4 skb4 4352 = Done (0, skb4_one).
Proof. vm_compute. reflexivity. Qed.

(** The scenario of the specification on the pointer ring of capacity 4:
    A, B, C, D go in, E is refused; A comes out, E goes in; then B, C, D,
    E come out and the ring is empty. *)
Example spec_scenario :
  let '(rets1, s1) := produce_seq fns64 state4 [1000; 1008; 1016; 1024] in
  let '(ret2, s2) := __core_ring_produce fns64 s1 1032 in
  let '(out3, s3) := consume_entry fns64 read s2 2000 in
  let '(ret4, s4) := __core_ring_produce fns64 s3 1032 in
  let '(outs5, s5) :=
    consume_entries fns64 read s4 [2000; 2008; 2016; 2024; 2032] in
  rets1 = [0; 0; 0; 0] /\ ret2 = - ENOSPC /\ out3 = Some 11 /\ ret4 = 0 /\
  outs5 = [Some 22; Some 33; Some 44; Some 55; None].
Proof. vm_compute. by split_and!. Qed.

(** The requirements on the rings cannot be dropped.  With capacity 3 the
    mask of the packet ring is 2 and [head] never leaves 0: a queue
    succeeds and the following dequeue finds nothing. *)
Example packet_ring_needs_power_of_two :
  let r3 := (skb_ring_init kmalloc_ok skb_raw 3).2 in
  match skb_ring_queue skbs4 r3 4096 with
  | Done (ret, r) =>
      ret = 0 /\ head r = 0 /\
      match skb_ring_dequeue r with
      | Done (p, _) => p = NULL
      | Fail _ => False
      end
  | Fail _ => False
  end.
Proof. vm_compute. by split_and!. Qed.

(** On the pointer ring a produced [NULL] (the word at 1040) leaves its
    slot looking empty: the produce returns 0 and the consume [NULL]. *)
Example pointer_ring_needs_valid_entries :
  let '(ret, s1) := __core_ring_produce fns64 state4 1040 in
  ret = 0 /\ (__core_ring_consume fns64 s1 2000).1 = NULL.
Proof. vm_compute. by split. Qed.

End MoreConcreteRuns.

(** * Facts about the locked calls, the peek and mixed runs *)

Module CoreRingApiFacts.
Import SkbRing.
Import CoreRing CoreRingFacts CoreRingApi.

Section Locks.
Context {M : Type} (fns : ring_fns M).

(** An operation that neither reads nor writes the producer lock runs
    under it as it runs without it. *)
Lemma with_producer_lock_free {A : Type} (op : state M -> A * state M)
    (s : state M) :
  (forall s l,
     op (with_ring s (set_producer_lock (ring s) l)) =
       ((op s).1, with_ring (op s).2 (set_producer_lock (ring (op s).2) l))) ->
  (forall s, producer_lock (ring (op s).2) = producer_lock (ring s)) ->
  producer_lock (ring s) = Unlocked ->
  with_producer_lock op s = Done (op s).
Proof.
  intros Hblind Hkeep Hfree. unfold with_producer_lock.
  rewrite Hfree. cbn. rewrite Hblind. cbn.
  specialize (Hkeep s). rewrite Hfree in Hkeep.
  destruct (op s) as [a [[p pl c cl sz es] m cs]]. cbn in *. by subst.
Qed.

Lemma with_consumer_lock_free {A : Type} (op : state M -> A * state M)
    (s : state M) :
  (forall s l,
     op (with_ring s (set_consumer_lock (ring s) l)) =
       ((op s).1, with_ring (op s).2 (set_consumer_lock (ring (op s).2) l))) ->
  (forall s, consumer_lock (ring (op s).2) = consumer_lock (ring s)) ->
  consumer_lock (ring s) = Unlocked ->
  with_consumer_lock op s = Done (op s).
Proof.
  intros Hblind Hkeep Hfree. unfold with_consumer_lock.
  rewrite Hfree. cbn. rewrite Hblind. cbn.
  specialize (Hkeep s). rewrite Hfree in Hkeep.
  destruct (op s) as [a [[p pl c cl sz es] m cs]]. cbn in *. by subst.
Qed.

Lemma produce_lock_blind (ptr : Z) (s : state M) (l : spinlock) :
  __core_ring_produce fns (with_ring s (set_producer_lock (ring s) l)) ptr =
    ((__core_ring_produce fns s ptr).1,
     with_ring (__core_ring_produce fns s ptr).2
       (set_producer_lock (ring (__core_ring_produce fns s ptr).2) l)).
Proof.
  destruct s as [[p pl c cl sz es] m cs].
  unfold __core_ring_produce, call_valid, call_seek, call_copy. cbn.
  destruct (sz =? 0); [done|].
  destruct (valid_fn fns m p); [done|]. cbn.
  by destruct (sz <=? wrap_int (p + 1)).
Qed.

Lemma produce_lock_kept (ptr : Z) (s : state M) :
  producer_lock (ring (__core_ring_produce fns s ptr).2)
  = producer_lock (ring s).
Proof.
  destruct s as [[p pl c cl sz es] m cs].
  unfold __core_ring_produce, call_valid, call_seek, call_copy. cbn.
  destruct (sz =? 0); [done|].
  destruct (valid_fn fns m p); [done|]. cbn.
  by destruct (sz <=? wrap_int (p + 1)).
Qed.

Lemma consume_lock_blind (ptr : Z) (s : state M) (l : spinlock) :
  __core_ring_consume fns (with_ring s (set_consumer_lock (ring s) l)) ptr =
    ((__core_ring_consume fns s ptr).1,
     with_ring (__core_ring_consume fns s ptr).2
       (set_consumer_lock (ring (__core_ring_consume fns s ptr).2) l)).
Proof.
  destruct s as [[p pl c cl sz es] m cs].
  unfold __core_ring_consume, __core_ring_discard_one,
    call_valid, call_seek, call_copy, call_zero. cbn.
  destruct (valid_fn fns m c); [|done]. cbn.
  by destruct (sz <=? wrap_int (c + 1)).
Qed.

Lemma consume_lock_kept (ptr : Z) (s : state M) :
  consumer_lock (ring (__core_ring_consume fns s ptr).2)
  = consumer_lock (ring s).
Proof.
  destruct s as [[p pl c cl sz es] m cs].
  unfold __core_ring_consume, __core_ring_discard_one,
    call_valid, call_seek, call_copy, call_zero. cbn.
  destruct (valid_fn fns m c); [|done]. cbn.
  by destruct (sz <=? wrap_int (c + 1)).
Qed.

Lemma peek_lock_blind (deref : M -> Z -> Z) (s : state M) (l : spinlock) :
  __core_ring_peek fns deref (with_ring s (set_consumer_lock (ring s) l)) =
    ((__core_ring_peek fns deref s).1,
     with_ring (__core_ring_peek fns deref s).2
       (set_consumer_lock (ring (__core_ring_peek fns deref s).2) l)).
Proof.
  destruct s as [[p pl c cl sz es] m cs].
  unfold __core_ring_peek, __core_ring_empty, call_valid, call_seek. cbn.
  destruct (sz =? 0); [done|].
  by destruct (valid_fn fns m c).
Qed.

Lemma peek_lock_kept (deref : M -> Z -> Z) (s : state M) :
  consumer_lock (ring (__core_ring_peek fns deref s).2)
  = consumer_lock (ring s).
Proof.
  destruct s as [[p pl c cl sz es] m cs].
  unfold __core_ring_peek, __core_ring_empty, call_valid, call_seek. cbn.
  destruct (sz =? 0); [done|].
  by destruct (valid_fn fns m c).
Qed.

Lemma batched_lock_blind (fuel : nat) :
  forall (array i : Z) (s : state M) (l : spinlock),
  let res := consume_batched_loop fns fuel s array i in
  consume_batched_loop fns fuel
      (with_ring s (set_consumer_lock (ring s) l)) array i =
    (res.1, with_ring res.2 (set_consumer_lock (ring res.2) l)) /\
  consumer_lock (ring res.2) = consumer_lock (ring s).
Proof.
  induction fuel as [|fuel IH]; intros array i s l; [done|].
  cbn [consume_batched_loop]. rewrite consume_lock_blind.
  pose proof (consume_lock_kept array s) as Hkeep.
  destruct (__core_ring_consume fns s array) as [ptr s1]. cbn in *.
  destruct (ptr =? NULL); [done|].
  destruct (IH (array + entry_size (ring s1)) (i + 1) s1 l) as [-> ->].
  done.
Qed.

End Locks.

Section Mixed.
Context {M E : Type} (fns : ring_fns M).
Context (load : M -> Z -> E) (entry_valid : E -> bool).
Context (n : Z) (Hok : table_ok fns load entry_valid n).

Lemma run_ops_produce (s : state M) (src : Z) (ops : list ring_op) :
  run_ops fns load s (OpProduce src :: ops) =
    (inl (__core_ring_produce fns s src).1
       :: (run_ops fns load (__core_ring_produce fns s src).2 ops).1,
     (run_ops fns load (__core_ring_produce fns s src).2 ops).2).
Proof.
  cbn [run_ops]. destruct (__core_ring_produce fns s src) as [ret s1].
  cbn. by destruct (run_ops fns load s1 ops).
Qed.

Lemma run_ops_consume (s : state M) (dst : Z) (ops : list ring_op) :
  run_ops fns load s (OpConsume dst :: ops) =
    (inr (consume_entry fns load s dst).1
       :: (run_ops fns load (consume_entry fns load s dst).2 ops).1,
     (run_ops fns load (consume_entry fns load s dst).2 ops).2).
Proof.
  cbn [run_ops]. destruct (consume_entry fns load s dst) as [ret s1].
  cbn. by destruct (run_ops fns load s1 ops).
Qed.

Lemma fifo_run_cons {A : Type} (cap : nat) (q : list A) (op : fifo_op A)
    (ops : list (fifo_op A)) :
  fifo_run cap q (op :: ops) =
    ((fifo_step cap q op).1 :: (fifo_run cap (fifo_step cap q op).2 ops).1,
     (fifo_run cap (fifo_step cap q op).2 ops).2).
Proof.
  cbn [fifo_run]. destruct (fifo_step cap q op) as [o q1].
  cbn. by destruct (fifo_run cap q1 ops).
Qed.

(** The model calls depend on the memory only through the entries at
    the sources. *)
Lemma to_fifo_op_ext (m1 m2 : M) (ops : list ring_op) :
  Forall (fun a => load m1 a = load m2 a) (op_srcs ops) ->
  to_fifo_op load m1 <$> ops = to_fifo_op load m2 <$> ops.
Proof.
  induction ops as [|[src|dst] ops IH]; intros Hs; [done| |].
  - cbn in Hs. apply Forall_cons in Hs as [Hsrc Hs]. cbn.
    rewrite Hsrc. f_equal. by apply IH.
  - cbn. f_equal. by apply IH.
Qed.

Lemma consume_entry_none (s : state M) (ptr : Z) :
  holds fns load entry_valid s [] ->
  consume_entry fns load s ptr =
    (None,
     mk_state (ring s) (mem s) (calls s ++ [CallValid (consumer (ring s))])).
Proof.
  intros Hh. unfold consume_entry.
  by rewrite (consume_none fns s ptr
                (holds_empty_slot fns load entry_valid s Hh)).
Qed.

Lemma run_ops_refines (ops : list ring_op) :
  forall (s : state M) (q : list E),
  size (ring s) = n ->
  holds fns load entry_valid s q ->
  Forall (user_buf fns s) (op_srcs ops) ->
  Forall (user_buf fns s) (op_dsts ops) ->
  Forall (fun a => entry_valid (load (mem s) a) = true) (op_srcs ops) ->
  Forall (fun a => a ∉ op_srcs ops) (op_dsts ops) ->
  let model := fifo_run (Z.to_nat n) q (to_fifo_op load (mem s) <$> ops) in
  (run_ops fns load s ops).1 = core_out <$> model.1 /\
  holds fns load entry_valid (run_ops fns load s ops).2 model.2 /\
  size (ring (run_ops fns load s ops).2) = n.
Proof.
  induction ops as [|[src|dst] ops IH];
    intros s q Hn Hh Hsrcs Hdsts Hvals Hdisj; [done| |].
  - (* produce *)
    cbn in Hsrcs, Hvals. apply Forall_cons in Hsrcs as [Hsrc Hsrcs].
    apply Forall_cons in Hvals as [Hval Hvals].
    cbn [fmap list_fmap to_fifo_op]. cbv zeta.
    rewrite run_ops_produce, fifo_run_cons. cbn [fst snd fifo_step].
    pose proof (holds_length fns load entry_valid s q Hh) as Hlen.
    pose proof (holds_indices fns load entry_valid s q Hh) as [_ Hp].
    pose proof Hh as (Hsz & _).
    assert (Hdisj' : Forall (fun a => a ∉ op_srcs ops) (op_dsts ops)).
    { eapply Forall_impl; [exact Hdisj|]. cbn. intros a Ha Hin.
      apply Ha. by right. }
    destruct (decide (length q < Z.to_nat n)%nat) as [Hroom|Hfull].
    + destruct (holds_produce fns load entry_valid n Hok s q src)
        as [Hret Hh1]; try done; [lia|].
      set (s1 := (__core_ring_produce fns s src).2) in *.
      assert (Hkeep : forall a, user_buf fns s a ->
                load (mem s1) a = load (mem s) a).
      { intros a Ha.
        by apply (produce_load_user fns load entry_valid n Hok). }
      destruct (IH s1 (q ++ [load (mem s) src])) as (Houts & Hh2 & Hn2).
      * subst s1. by rewrite produce_size.
      * done.
      * eapply Forall_impl; [exact Hsrcs|]. intros a Ha.
        by apply (produce_user_buf fns load entry_valid n Hok).
      * eapply Forall_impl; [exact Hdsts|]. intros a Ha.
        by apply (produce_user_buf fns load entry_valid n Hok).
      * rewrite Forall_forall in Hvals, Hsrcs. apply Forall_forall.
        intros a Ha. rewrite Hkeep; auto.
      * done.
      * rewrite (to_fifo_op_ext (mem s1) (mem s)) in Houts, Hh2.
        -- cbn. rewrite Hret, Houts. done.
        -- rewrite Forall_forall in Hsrcs. apply Forall_forall.
           intros a Ha. auto.
        -- rewrite Forall_forall in Hsrcs. apply Forall_forall.
           intros a Ha. auto.
    + assert (Hfull' : Z.of_nat (length q) = size (ring s)) by lia.
      pose proof (holds_full_slot fns load entry_valid n Hok s q Hn Hh Hfull')
        as Hv.
      rewrite (produce_full fns s src) by (done || lia).
      cbn [fst snd].
      set (s1 := mk_state (ring s) (mem s)
                   (calls s ++ [CallValid (producer (ring s))])).
      destruct (IH s1 q) as (Houts & Hh2 & Hn2); try done.
      cbn. by rewrite Houts.
  - (* consume *)
    cbn in Hdsts, Hdisj. apply Forall_cons in Hdsts as [Hdst Hdsts].
    apply Forall_cons in Hdisj as [Hnew Hdisj].
    cbn [fmap list_fmap to_fifo_op]. cbv zeta.
    rewrite run_ops_consume, fifo_run_cons.
    change (op_srcs (OpConsume dst :: ops)) with (op_srcs ops) in *.
    pose proof (holds_indices fns load entry_valid s q Hh) as [Hc _].
    destruct q as [|e q].
    + rewrite consume_entry_none by done. cbn [fst snd fifo_step].
      set (s1 := mk_state (ring s) (mem s)
                   (calls s ++ [CallValid (consumer (ring s))])).
      destruct (IH s1 []) as (Houts & Hh2 & Hn2); try done.
      cbn. by rewrite Houts.
    + destruct (consume_entry_some fns load entry_valid n Hok s e q dst)
        as [-> ->]; try done.
      destruct (holds_consume fns load entry_valid n Hok s e q dst)
        as (_ & Hh1 & _); try done.
      cbn [fst snd fifo_step].
      set (s1 := (__core_ring_consume fns s dst).2) in *.
      assert (Hkeep : forall a, user_buf fns s a -> a ≠ dst ->
                load (mem s1) a = load (mem s) a).
      { intros a Ha Hne.
        by apply (consume_load_user fns load entry_valid n Hok). }
      assert (Hsame : Forall (fun a => load (mem s1) a = load (mem s) a)
                        (op_srcs ops)).
      { rewrite Forall_forall in Hsrcs. apply Forall_forall.
        intros a Ha. apply Hkeep; [auto|]. intros ->. done. }
      destruct (IH s1 q) as (Houts & Hh2 & Hn2).
      * subst s1. by rewrite consume_size.
      * done.
      * eapply Forall_impl; [exact Hsrcs|]. intros a Ha.
        by apply (consume_user_buf fns load entry_valid n Hok).
      * eapply Forall_impl; [exact Hdsts|]. intros a Ha.
        by apply (consume_user_buf fns load entry_valid n Hok).
      * rewrite Forall_forall in Hvals, Hsame. apply Forall_forall.
        intros a Ha. rewrite Hsame; auto.
      * done.
      * rewrite (to_fifo_op_ext (mem s1) (mem s)) in Houts, Hh2 by done.
        cbn. by rewrite Houts.
Qed.

End Mixed.

End CoreRingApiFacts.

(** * Further properties of the index-based ring *)

Section CoreExtras.
Import CoreRing CoreRingFacts CoreRingApi CoreRingApiFacts.
Context {M : Type} (fns : ring_fns M).

(** X1 -- The two tests are exact.  On a well-formed ring holding the
    entries [q] behind a lawful callback table, [__core_ring_full]
    answers true exactly when [q] fills every slot and [__core_ring_empty]
    exactly when [q] is empty; each costs one [valid_fn] call and changes
    neither the ring nor the memory. *)
Theorem full_and_empty_tests_exact {E : Type} (load : M -> Z -> E)
    (entry_valid : E -> bool) (s : state M) (q : list E) :
  table_ok fns load entry_valid (CoreRing.size (ring s)) ->
  CoreRing.holds fns load entry_valid s q ->
  __core_ring_full fns s =
    (bool_decide (Z.of_nat (length q) = CoreRing.size (ring s)),
     logged s (CallValid (producer (ring s)))) /\
  __core_ring_empty fns s =
    (bool_decide (q = []), logged s (CallValid (consumer (ring s)))).
Proof.
  intros Hok Hh.
  pose proof (holds_length fns load entry_valid s q Hh) as Hlen.
  unfold __core_ring_full, __core_ring_empty, call_valid, logged. split.
  - f_equal. case_bool_decide as Hfull.
    + by apply (holds_full_slot fns load entry_valid _ Hok s q).
    + apply (holds_room_slot fns load entry_valid s q Hh). lia.
  - destruct q as [|e q].
    + by rewrite (holds_empty_slot fns load entry_valid s Hh).
    + destruct (holds_head_slot fns load entry_valid _ Hok s e q eq_refl Hh)
        as [-> _].
      done.
Qed.

(** X2 -- The locked calls.  A producer-side call ([core_ring_full],
    [core_ring_produce]) whose lock is free does what the unlocked
    operation does and leaves the lock free, whatever the state of the
    consumer lock; likewise for the consumer-side calls
    ([core_ring_empty], [core_ring_consume], [core_ring_consume_batched],
    [PTR_RING_PEEK_CALL]) and the consumer lock.  A call whose lock is
    held never returns. *)
Theorem locked_calls_agree (s : state M) (ptr array n : Z) :
  (producer_lock (ring s) = Unlocked ->
     core_ring_full fns s = SkbRing.Done (__core_ring_full fns s) /\
     core_ring_produce fns s ptr
       = SkbRing.Done (__core_ring_produce fns s ptr)) /\
  (consumer_lock (ring s) = Unlocked ->
     core_ring_empty fns s = SkbRing.Done (__core_ring_empty fns s) /\
     core_ring_consume fns s ptr
       = SkbRing.Done (__core_ring_consume fns s ptr) /\
     core_ring_consume_batched fns s array n
       = SkbRing.Done (__core_ring_consume_batched fns s array n) /\
     (forall (A : Type) (deref : M -> Z -> Z) (f : Z -> A),
        PTR_RING_PEEK_CALL fns deref f s =
          SkbRing.Done (f (__core_ring_peek fns deref s).1,
                        (__core_ring_peek fns deref s).2))) /\
  (producer_lock (ring s) = Locked ->
     core_ring_full fns s = SkbRing.Fail SkbRing.Deadlock /\
     core_ring_produce fns s ptr = SkbRing.Fail SkbRing.Deadlock) /\
  (consumer_lock (ring s) = Locked ->
     core_ring_empty fns s = SkbRing.Fail SkbRing.Deadlock /\
     core_ring_consume fns s ptr = SkbRing.Fail SkbRing.Deadlock /\
     core_ring_consume_batched fns s array n
       = SkbRing.Fail SkbRing.Deadlock /\
     (forall (A : Type) (deref : M -> Z -> Z) (f : Z -> A),
        PTR_RING_PEEK_CALL fns deref f s = SkbRing.Fail SkbRing.Deadlock)).
Proof.
  split_and!.
  - intros Hfree. split.
    + by apply with_producer_lock_free.
    + apply (with_producer_lock_free
               (fun s => __core_ring_produce fns s ptr)); [| |done].
      * intros. apply produce_lock_blind.
      * intros. apply produce_lock_kept.
  - intros Hfree. split_and!.
    + by apply with_consumer_lock_free.
    + apply (with_consumer_lock_free
               (fun s => __core_ring_consume fns s ptr)); [| |done].
      * intros. apply consume_lock_blind.
      * intros. apply consume_lock_kept.
    + apply (with_consumer_lock_free
               (fun s => __core_ring_consume_batched fns s array n));
        [| |done].
      * intros s' l. apply (batched_lock_blind fns).
      * intros s'. apply (batched_lock_blind fns _ _ _ _ Unlocked).
    + intros A deref f. unfold PTR_RING_PEEK_CALL.
      rewrite (with_consumer_lock_free
                 (fun s => let '(p, s1) := __core_ring_peek fns deref s in
                           (f p, s1))); [| | |done].
      * by destruct (__core_ring_peek fns deref s).
      * intros s' l. rewrite peek_lock_blind.
        by destruct (__core_ring_peek fns deref s').
      * intros s'. rewrite <- (peek_lock_kept fns deref s').
        by destruct (__core_ring_peek fns deref s').
  - intros Hheld.
    unfold core_ring_full, core_ring_produce, with_producer_lock.
    by rewrite Hheld.
  - intros Hheld.
    unfold core_ring_empty, core_ring_consume, core_ring_consume_batched,
      PTR_RING_PEEK_CALL, with_consumer_lock.
    by rewrite Hheld.
Qed.

(** X3 -- Peek.  On a well-formed pointer ring (the entries are the
    pointers themselves) [__core_ring_peek] returns the oldest resident
    pointer, or [NULL] when there is none, and changes neither the ring
    nor the memory; the consume that follows delivers that same
    pointer. *)
Theorem peek_shows_next_consume (load : M -> Z -> Z)
    (entry_valid : Z -> bool) (s : state M) (q : list Z) (out : Z) :
  table_ok fns load entry_valid (CoreRing.size (ring s)) ->
  CoreRing.holds fns load entry_valid s q ->
  user_buf fns s out ->
  let res := __core_ring_peek fns load s in
  res.1 = default NULL (head q) /\
  ring res.2 = ring s /\
  mem res.2 = mem s /\
  (consume_entry fns load res.2 out).1 = head q.
Proof.
  intros Hok Hh Hbuf res. subst res.
  pose proof Hh as (Hsz & _).
  unfold __core_ring_peek, __core_ring_empty, call_valid, call_seek.
  destruct (Z.eqb_spec (CoreRing.size (ring s)) 0) as [|_]; [lia|].
  destruct q as [|e q].
  - rewrite (holds_empty_slot fns load entry_valid s Hh). cbn.
    split_and!; try done.
    rewrite (consume_entry_none fns load entry_valid); [done|].
    by apply (holds_calls fns load entry_valid _ _ (calls s)).
  - destruct (holds_head_slot fns load entry_valid _ Hok s e q eq_refl Hh)
      as [Hv Hl].
    rewrite Hv. cbn. split_and!; try done.
    apply (consume_entry_some fns load entry_valid _ Hok _ e q); done.
Qed.

(** X4 -- The ring is a bounded queue.  Take any run of produce and
    consume calls, in any order, on a well-formed ring holding [q], with
    occupied entries at the sources and with destinations that are caller
    buffers other than the sources.  Call by call it returns what a
    first-in first-out queue of at most [size] entries returns: a
    produce gives 0 when there is room and [-ENOSPC] when the queue is
    full, a consume delivers the oldest entry or nothing when the queue
    is empty; and the ring ends holding what the queue ends holding. *)
Theorem core_ring_refines_bounded_queue {E : Type} (load : M -> Z -> E)
    (entry_valid : E -> bool) (s : state M) (q : list E)
    (ops : list ring_op) :
  table_ok fns load entry_valid (CoreRing.size (ring s)) ->
  CoreRing.holds fns load entry_valid s q ->
  Forall (user_buf fns s) (op_srcs ops ++ op_dsts ops) ->
  Forall (fun a => entry_valid (load (mem s) a) = true) (op_srcs ops) ->
  Forall (fun a => a ∉ op_srcs ops) (op_dsts ops) ->
  let model :=
    fifo_run (Z.to_nat (CoreRing.size (ring s))) q
             (to_fifo_op load (mem s) <$> ops) in
  (run_ops fns load s ops).1 = core_out <$> model.1 /\
  CoreRing.holds fns load entry_valid (run_ops fns load s ops).2 model.2.
Proof.
  intros Hok Hh Hbufs Hvals Hdisj model. subst model.
  apply Forall_app in Hbufs as [Hsrcs Hdsts].
  destruct (run_ops_refines fns load entry_valid _ Hok ops s q)
    as (Houts & Hh' & _); done.
Qed.

End CoreExtras.

Section CoreExtraRuns.
Import CoreRing CoreRingFacts CoreRingApi PtrTable PtrTableFacts.
Import Examples.

(** [full_and_empty_tests_exact] on the ring of four slots holding two
    pointers. *)
Lemma full_and_empty_tests_exact_witness :
  (__core_ring_full fns64 state4_two).1 = false /\
  (__core_ring_empty fns64 state4_two).1 = false.
Proof.
  destruct (full_and_empty_tests_exact fns64 read ptr_valid state4_two
              [11; 22] (ptr_table_ok 64 _) (proj1 state4_two_holds))
    as [-> ->].
  split; reflexivity.
Defined.

(** [peek_shows_next_consume] on the same ring, with the buffer at 2000. *)
Lemma peek_shows_next_consume_witness :
  (__core_ring_peek fns64 read state4_two).1 = 11 /\
  (consume_entry fns64 read (__core_ring_peek fns64 read state4_two).2
     2000).1 = Some 11.
Proof.
  destruct (peek_shows_next_consume fns64 read ptr_valid state4_two
              [11; 22] 2000 (ptr_table_ok 64 _) (proj1 state4_two_holds))
    as (Hp & _ & _ & Hc).
  - apply state4_two_user_buf. lia.
  - split; [exact Hp|exact Hc].
Defined.

(** [core_ring_refines_bounded_queue] on the empty ring of four slots:
    two produces, three consumes, one more produce. *)
Lemma core_ring_refines_bounded_queue_witness :
  (run_ops fns64 read state4
     [OpProduce 1000; OpProduce 1008; OpConsume 2000; OpConsume 2000;
      OpConsume 2000; OpProduce 1016]).1
  = [inl 0; inl 0; inr (Some 11); inr (Some 22); inr None; inl 0].
Proof.
  destruct (core_ring_refines_bounded_queue fns64 read ptr_valid state4 []
              [OpProduce 1000; OpProduce 1008; OpConsume 2000;
               OpConsume 2000; OpConsume 2000; OpProduce 1016]
              (ptr_table_ok 64 _) state4_holds)
    as [Houts _].
  - each_elem ltac:(apply state4_user_buf; lia).
  - each_elem ltac:(reflexivity).
  - each_elem ltac:(cbn; rewrite !elem_of_cons, elem_of_nil; lia).
  - exact Houts.
Defined.

End CoreExtraRuns.

(** * Facts about mixed runs on the packet ring *)

Module SkbRingRunsFacts.
Import SkbRing SkbRingFacts CoreRingApi CoreRingApiFacts SkbRingRuns.

Lemma skb_desc_of_some (skbs : gmap Z sk_buff) (p : Z) (b : sk_buff) :
  skbs !! p = Some b -> desc_of skbs p = mk_skb_desc p (cached_len b).
Proof. intros Hb. unfold desc_of. by rewrite Hb. Qed.

Lemma run_skb_ops_refines (skbs : gmap Z sk_buff) (n : Z)
    (ops : list skb_op) :
  forall (r : skb_ring) (q : list skb_desc),
  size r = n ->
  holds r q ->
  Forall (fun p => is_Some (skbs !! p)) (queued ops) ->
  let model :=
    fifo_run (Z.to_nat (n - 1)) q (to_skb_fifo_op skbs <$> ops) in
  exists r',
    run_skb_ops skbs r ops = Done (skb_out <$> model.1, r') /\
    holds r' model.2 /\
    size r' = n.
Proof.
  induction ops as [|[p|] ops IH]; intros r q Hn Hh Hps model; subst model.
  - by exists r.
  - cbn in Hps. apply Forall_cons in Hps as [[b Hb] Hps].
    cbn [fmap list_fmap to_skb_fifo_op]. rewrite fifo_run_cons.
    cbn [fst snd fifo_step run_skb_ops].
    pose proof (skb_holds_length r q Hh) as Hlen.
    destruct (decide (length q < Z.to_nat (n - 1))%nat) as [Hroom|Hfull].
    + destruct (skb_holds_queue_room skbs r q p b) as (r1 & Hq & Hh1 & Hn1);
        try done; [lia|].
      rewrite <- (skb_desc_of_some skbs p b Hb) in Hh1.
      destruct (IH r1 (q ++ [desc_of skbs p])) as (r2 & Hrun & Hh2 & Hn2);
        try done; [congruence|].
      rewrite Hq. cbn. rewrite Hrun. by exists r2.
    + rewrite (skb_holds_queue_full skbs r q p) by (done || lia).
      destruct (IH r q) as (r2 & Hrun & Hh2 & Hn2); try done.
      cbn. rewrite Hrun. by exists r2.
  - cbn [fmap list_fmap to_skb_fifo_op]. rewrite fifo_run_cons.
    cbn [run_skb_ops].
    change (queued (OpDequeue :: ops)) with (queued ops) in Hps.
    destruct q as [|d q].
    + rewrite (skb_holds_dequeue_none r Hh). cbn [fst snd fifo_step].
      destruct (IH r []) as (r2 & Hrun & Hh2 & Hn2); try done.
      cbn. rewrite Hrun. by exists r2.
    + rewrite (skb_holds_dequeue_some r d q Hh). cbn [fst snd fifo_step].
      pose proof (skb_holds_pop r d q Hh) as Hh1.
      destruct (IH (set_tail r (next_index (tail r) (size r))) q Hn Hh1 Hps)
        as (r2 & Hrun & Hh2 & Hn2).
      cbn. cbn in Hrun. rewrite Hrun. by exists r2.
Qed.

End SkbRingRunsFacts.

(** * Further properties of the packet ring *)

Section SkbExtras.
Import SkbRing SkbRingFacts CoreRingApi SkbRingRuns SkbRingRunsFacts.

(** X5 -- The packet ring is a bounded queue of [size - 1] packets.  Any
    run of [skb_ring_queue] and [skb_ring_dequeue] calls, in any order,
    on a well-formed ring holding [q] returns, call by call, what a
    first-in first-out queue of at most [size - 1] descriptors returns:
    a queue gives 0 when there is room and [-EFAULT] when there is none,
    a dequeue gives the oldest pointer or [NULL]; every call returns, and
    the ring ends holding what the queue ends holding. *)
Theorem skb_ring_refines_bounded_queue (skbs : gmap Z sk_buff)
    (r : skb_ring) (q : list skb_desc) (ops : list skb_op) :
  SkbRing.holds r q ->
  Forall (fun p => is_Some (skbs !! p)) (queued ops) ->
  let model :=
    fifo_run (Z.to_nat (SkbRing.size r - 1)) q
             (to_skb_fifo_op skbs <$> ops) in
  exists r',
    run_skb_ops skbs r ops = Done (skb_out <$> model.1, r') /\
    SkbRing.holds r' model.2.
Proof.
  intros Hh Hps model. subst model.
  destruct (run_skb_ops_refines skbs _ ops r q eq_refl Hh Hps)
    as (r' & Hrun & Hh' & _).
  by exists r'.
Qed.

(** X6 -- The lock-free observers.  On a well-formed ring holding [q],
    [skb_ring_empty] answers true exactly when [q] is empty, and
    [skb_ring_queue_len] returns the number of resident packets
    converted to [int]: that number itself as long as the ring has at
    most [2^31] descriptors. *)
Theorem skb_observers_agree (r : skb_ring) (q : list skb_desc) :
  SkbRing.holds r q ->
  skb_ring_empty r = bool_decide (q = []) /\
  skb_ring_queue_len r = wrap_int (Z.of_nat (length q)) /\
  (SkbRing.size r <= 2 ^ 31 ->
   skb_ring_queue_len r = Z.of_nat (length q)).
Proof.
  intros Hh. pose proof (skb_holds_count r q Hh) as Hcnt.
  pose proof (skb_holds_length r q Hh) as Hlt.
  destruct Hh as (Hn & Ht & Hhd & _ & _ & Hlen & _).
  unfold skb_ring_empty, skb_ring_queue_len. rewrite Hcnt.
  split_and!.
  - destruct q as [|d q].
    + cbn in Hlen. symmetry in Hlen.
      apply Z.mod_divide in Hlen; [|lia]. destruct Hlen as [k Hk].
      assert (k = 0) by nia. apply Z.eqb_eq. lia.
    + rewrite bool_decide_eq_false_2 by done.
      apply Z.eqb_neq. intros Heq. rewrite Heq, Z.sub_diag in Hlen.
      rewrite Z.mod_0_l in Hlen by lia. cbn in Hlen. lia.
  - done.
  - intros Hsz. apply wrap_int_id. unfold INT_MAX. lia.
Qed.

(** X7 -- The two sides do not meet.  On any ring at all,
    [skb_ring_queue] neither reads nor writes the reader lock and
    leaves [tail] and [size] as they were; [skb_ring_dequeue] neither
    reads nor writes the writer lock and leaves [head], [size] and the
    descriptors as they were.  So a held lock of one side never stops a
    call of the other side. *)
Theorem skb_sides_independent (skbs : gmap Z sk_buff) (r : skb_ring)
    (p : Z) (l : spinlock) :
  skb_ring_queue skbs (set_rlock r l) p =
    ((fun res => (res.1, set_rlock res.2 l)) <$> skb_ring_queue skbs r p) /\
  (forall ret r', skb_ring_queue skbs r p = Done (ret, r') ->
     rlock r' = rlock r /\ tail r' = tail r /\
     SkbRing.size r' = SkbRing.size r) /\
  skb_ring_dequeue (set_wlock r l) =
    ((fun res => (res.1, set_wlock res.2 l)) <$> skb_ring_dequeue r) /\
  (forall q r', skb_ring_dequeue r = Done (q, r') ->
     wlock r' = wlock r /\ head r' = head r /\ descs r' = descs r /\
     SkbRing.size r' = SkbRing.size r).
Proof.
  destruct r as [rl tl sz ds hd wl].
  unfold skb_ring_queue, skb_ring_dequeue, desc_update, desc_load,
    desc_store, skb_load, spin_lock, spin_unlock.
  split_and!.
  - destruct wl; try done. cbn.
    repeat (case_match; simplify_eq/=; try done).
  - intros ret r'. destruct wl; try done. cbn.
    repeat (case_match; simplify_eq/=; try done);
      intros; simplify_eq/=; done.
  - destruct rl; try done. cbn.
    repeat (case_match; simplify_eq/=; try done).
  - intros q r'. destruct rl; try done. cbn.
    repeat (case_match; simplify_eq/=; try done);
      intros; simplify_eq/=; done.
Qed.

(** X8 -- When the packet is read.  [skb_ring_queue] dereferences the
    packet only after finding room: given a pointer to no packet
    ([NULL], say), a well-formed ring with room faults, and a full one
    returns [-EFAULT] and stays as it was. *)
Theorem queue_reads_packet_only_with_room (skbs : gmap Z sk_buff)
    (r : skb_ring) (q : list skb_desc) (p : Z) :
  SkbRing.holds r q ->
  skbs !! p = None ->
  skb_ring_queue skbs r p =
    if decide (Z.of_nat (length q) + 1 < SkbRing.size r)
    then Fail BadAccess
    else Done (- EFAULT, r).
Proof.
  intros Hh Hp. pose proof (skb_holds_length r q Hh) as Hlt.
  case_decide.
  - by apply (skb_holds_queue_bad skbs r q).
  - apply (skb_holds_queue_full skbs r q); [done|lia].
Qed.

(** X9 -- Purge returns only on an empty ring.  On a well-formed ring
    [skb_ring_purge] returns, with the ring unchanged and nothing handed
    to [kfree_skb], when no packet is resident; with a resident packet
    it never leaves its loop, and hands the oldest packet to [kfree_skb]
    again on every turn. *)
Theorem purge_returns_only_when_empty (r : skb_ring) (q : list skb_desc)
    (fuel : nat) :
  SkbRing.holds r q ->
  skb_ring_purge fuel r =
    match q with
    | [] => ([], Done r)
    | d :: _ => (replicate fuel (skb d), Fail OutOfFuel)
    end.
Proof.
  intros Hh. destruct q as [|d q].
  - by apply purge_empty.
  - by apply (purge_spins fuel r d q).
Qed.

End SkbExtras.

Section SkbExtraRuns.
Import SkbRing SkbRingFacts CoreRingApi SkbRingRuns.
Import Examples.

(** [skb_ring_refines_bounded_queue] on the empty ring of capacity 4: four
    queues (the fourth is refused), a dequeue, a queue, four dequeues. *)
Lemma skb_ring_refines_bounded_queue_witness :
  (fst <$> run_skb_ops skbs4 skb4
     [OpQueue 4096; OpQueue 4352; OpQueue 4608; OpQueue 4864; OpDequeue;
      OpQueue 4864; OpDequeue; OpDequeue; OpDequeue; OpDequeue])
  = Done [0; 0; 0; - EFAULT; 4096; 0; 4352; 4608; 4864; NULL].
Proof.
  destruct (skb_ring_refines_bounded_queue skbs4 skb4 []
     [OpQueue 4096; OpQueue 4352; OpQueue 4608; OpQueue 4864; OpDequeue;
      OpQueue 4864; OpDequeue; OpDequeue; OpDequeue; OpDequeue]
     skb4_holds) as (r' & -> & _).
  - each_elem ltac:(by eexists).
  - reflexivity.
Defined.

(** [skb_observers_agree] on the ring holding one packet. *)
Lemma skb_observers_agree_witness :
  skb_ring_empty skb4_one = false /\ skb_ring_queue_len skb4_one = 1.
Proof.
  destruct (skb_observers_agree skb4_one _ skb4_one_holds)
    as (He & _ & Hl).
  split; [exact He|]. apply Hl. cbn. lia.
Defined.

(** [queue_reads_packet_only_with_room] on the ring holding one packet,
    with a [NULL] packet pointer. *)
Lemma queue_reads_packet_only_with_room_witness :
  skb_ring_queue skbs4 skb4_one NULL = Fail BadAccess.
Proof.
  by rewrite (queue_reads_packet_only_with_room skbs4 skb4_one _ NULL
                skb4_one_holds eq_refl).
Defined.

(** [purge_returns_only_when_empty] on the empty ring of capacity 4. *)
Lemma purge_returns_only_when_empty_witness :
  skb_ring_purge 7 skb4 = ([], Done skb4).
Proof.
  exact (purge_returns_only_when_empty skb4 [] 7 skb4_holds).
Defined.

End SkbExtraRuns.

(** * Facts about the vhost-user client *)

Module VhostUserFacts.
Import VhostUser.

Lemma peer_load_at (s : VhostUserState) (pre rest : list VhostUserNetPeer)
    (p : VhostUserNetPeer) :
  peers s = pre ++ p :: rest ->
  peer_load s (Z.of_nat (length pre)) = SkbRing.Done p.
Proof.
  intros Hps. unfold peer_load.
  destruct (Z.ltb_spec (Z.of_nat (length pre)) 0) as [|_]; [lia|].
  rewrite Nat2Z.id, Hps, lookup_app_r, Nat.sub_diag by lia. done.
Qed.

Lemma peer_set_at (s : VhostUserState) (pre rest : list VhostUserNetPeer)
    (p : VhostUserNetPeer) (net : Z) :
  peers s = pre ++ p :: rest ->
  peer_set_vhost_net s (Z.of_nat (length pre)) net =
    SkbRing.Done (set_peers s ((pre ++ [mk_peer (nc p) net]) ++ rest)).
Proof.
  intros Hps. unfold peer_set_vhost_net.
  rewrite (peer_load_at s pre rest p Hps). cbn.
  rewrite Nat2Z.id, Hps. do 2 f_equal.
  rewrite insert_app_r_alt, Nat.sub_diag by lia. cbn.
  by rewrite <- app_assoc.
Qed.

Section Start.
Context (vhost_net_init : Z -> Z -> Z) (vhost_net_get_max_queues : Z -> Z).

(** The loop initialises the peers one after the other and stops at the
    first one whose initialisation fails. *)
Lemma start_loop_spec (rest : list VhostUserNetPeer) :
  forall (pre : list VhostUserNetPeer) (s : VhostUserState)
         (log : list event) (fuel : nat),
  peers s = pre ++ rest ->
  Z.of_nat (length (pre ++ rest)) = queues s ->
  (length rest <= fuel)%nat ->
  exists ret s' log',
    start_loop vhost_net_init fuel (Z.of_nat (length pre)) s log
      = SkbRing.Done (ret, s', log') /\
    (Forall (fun p => vhost_net_init (chr s) (nc p) ≠ NULL) rest ->
       ret = 0 /\
       s' = mk_vhost_user (chr s) true (queues s)
              (pre ++ ((fun p => mk_peer (nc p)
                                   (vhost_net_init (chr s) (nc p))) <$> rest)) /\
       log' = log ++ ((fun p => EvInit (chr s) (nc p)) <$> rest)) /\
    (¬ Forall (fun p => vhost_net_init (chr s) (nc p) ≠ NULL) rest ->
       ret = -1 /\ running s' = running s) /\
    nc <$> peers s' = nc <$> peers s.
Proof.
  induction rest as [|p rest IH]; intros pre s log fuel Hps Hlen Hfuel.
  - rewrite app_nil_r in *.
    exists 0, (set_running s true), log. split_and!.
    + destruct fuel; cbn;
        (destruct (Z.ltb_spec (Z.of_nat (length pre)) (queues s)); [lia|done]).
    + intros _. split_and!; try done.
      * unfold set_running. by rewrite Hps.
      * by rewrite app_nil_r.
    + intros Hn. destruct Hn. constructor.
    + done.
  - destruct fuel as [|fuel]; [cbn in Hfuel; lia|].
    cbn [start_loop].
    rewrite length_app in Hlen. cbn [length] in Hlen.
    destruct (Z.ltb_spec (Z.of_nat (length pre)) (queues s)) as [_|]; [|lia].
    rewrite (peer_load_at s pre rest p Hps). cbn.
    rewrite (peer_set_at s pre rest p _ Hps). cbn.
    set (net := vhost_net_init (chr s) (nc p)).
    set (s1 := set_peers s ((pre ++ [mk_peer (nc p) net]) ++ rest)).
    assert (Hncs : nc <$> peers s1 = nc <$> peers s).
    { subst s1. cbn. rewrite Hps, !fmap_app. cbn. by rewrite <- app_assoc. }
    destruct (Z.eqb_spec net NULL) as [Hnull|Hnet].
    + exists (-1), s1, (log ++ [EvInit (chr s) (nc p)]). split_and!; try done.
      intros Hall. apply Forall_cons in Hall as [Hp _]. done.
    + destruct (IH (pre ++ [mk_peer (nc p) net]) s1
                  (log ++ [EvInit (chr s) (nc p)]) fuel)
        as (ret & s' & log' & Hrun & Hok & Hbad & Hnc).
      * done.
      * subst s1. cbn. rewrite !length_app. cbn. lia.
      * cbn in Hfuel. lia.
      * replace (Z.of_nat (length pre) + 1)
          with (Z.of_nat (length (pre ++ [mk_peer (nc p) net])))
          by (rewrite length_app; cbn; lia).
        exists ret, s', log'. split_and!; try done.
        -- intros Hall. apply Forall_cons in Hall as [_ Hall].
           destruct (Hok Hall) as (-> & -> & ->). split_and!; try done.
           ++ subst s1. cbn. by rewrite <- app_assoc.
           ++ by rewrite <- app_assoc.
        -- intros Hn. destruct Hbad as [-> Hr]; [|done].
           intros Hall. apply Hn. by apply Forall_cons.
        -- by rewrite Hnc.
Qed.

(** What a start of a stopped backend with one peer per queue does. *)
Lemma start_spec (s : VhostUserState) (log : list event) :
  running s = false ->
  1 <= queues s ->
  Z.of_nat (length (peers s)) = queues s ->
  let nets := (fun p => vhost_net_init (chr s) (nc p)) <$> peers s in
  let ok :=
    queues s < vhost_net_get_max_queues (default NULL (head nets)) /\
    Forall (fun net => net ≠ NULL) (tail nets) in
  exists ret s' log',
    vhost_user_start vhost_net_init vhost_net_get_max_queues s log
      = SkbRing.Done (ret, s', log') /\
    (ok ->
       ret = 0 /\
       s' = mk_vhost_user (chr s) true (queues s)
              ((fun p => mk_peer (nc p) (vhost_net_init (chr s) (nc p)))
                 <$> peers s) /\
       log' = log ++ ((fun p => EvInit (chr s) (nc p)) <$> peers s)) /\
    (¬ ok -> ret = -1 /\ running s' = false) /\
    nc <$> peers s' = nc <$> peers s.
Proof.
  intros Hrun Hq Hlen nets ok. subst nets ok.
  destruct (peers s) as [|p rest] eqn:Hps; [cbn in Hlen; lia|].
  cbn [fmap list_fmap head tail default].
  unfold vhost_user_start. rewrite Hrun.
  change 0 with (Z.of_nat (length (@nil VhostUserNetPeer))) at 1 2.
  rewrite (peer_load_at s [] rest p Hps). cbn [mbind SkbRing.outcome_bind].
  rewrite (peer_set_at s [] rest p _ Hps). cbn [mbind SkbRing.outcome_bind app].
  set (net := vhost_net_init (chr s) (nc p)).
  set (s1 := set_peers s (mk_peer (nc p) net :: rest)).
  assert (Hncs : nc <$> peers s1 = nc <$> (p :: rest)) by done.
  destruct (Z.leb_spec (vhost_net_get_max_queues net) (queues s1))
    as [Hmax|Hmax].
  - exists (-1), s1,
      ((log ++ [EvInit (chr s) (nc p)])
         ++ [EvReport (vhost_net_get_max_queues net)]).
    split_and!; try done.
    intros [Hlt _]. unfold id in Hlt. cbn in Hmax. lia.
  - destruct (start_loop_spec rest [mk_peer (nc p) net] s1
                (log ++ [EvInit (chr s) (nc p)]) (Z.to_nat (queues s)))
      as (ret & s' & log' & Hloop & Hok & Hbad & Hnc).
    + done.
    + subst s1. cbn. cbn in Hlen. lia.
    + cbn in Hlen. lia.
    + exists ret, s', log'. split_and!.
      * exact Hloop.
      * intros [_ Hall]. rewrite Forall_fmap in Hall.
        destruct (Hok Hall) as (-> & -> & ->). split_and!; try done.
        by rewrite <- app_assoc.
      * intros Hn. destruct Hbad as [-> Hr].
        -- intros Hall. apply Hn. split; [done|]. by rewrite Forall_fmap.
        -- split; [done|]. by rewrite Hr.
      * by rewrite Hnc.
Qed.

End Start.

(** The nets a stop hands to [vhost_net_cleanup]. *)
Lemma stop_loop_spec (s : VhostUserState) (k : nat) :
  forall (i : Z) (log : list event) (fuel : nat),
  0 <= i <= queues s ->
  queues s <= Z.of_nat (length (peers s)) ->
  k = Z.to_nat (queues s - i) ->
  (k <= fuel)%nat ->
  stop_loop fuel i s log =
    SkbRing.Done
      (log ++ (EvCleanup <$>
                 filter (fun net => net ≠ NULL)
                   (vhost_net <$> drop (Z.to_nat i)
                                    (take (Z.to_nat (queues s)) (peers s))))).
Proof.
  induction k as [|k IH]; intros i log fuel Hi Hlen Hk Hfuel.
  - assert (i = queues s) as -> by lia.
    rewrite drop_ge by (rewrite length_take; lia). cbn.
    rewrite app_nil_r.
    destruct fuel; cbn;
      (destruct (Z.ltb_spec (queues s) (queues s)); [lia|done]).
  - destruct fuel as [|fuel]; [lia|]. cbn [stop_loop].
    destruct (Z.ltb_spec i (queues s)) as [Hlt|]; [|lia].
    assert (is_Some (peers s !! Z.to_nat i)) as [p Hp].
    { apply lookup_lt_is_Some. lia. }
    unfold peer_load.
    destruct (Z.ltb_spec i 0) as [|_]; [lia|]. rewrite Hp. cbn.
    rewrite IH by lia.
    rewrite (drop_S _ p (Z.to_nat i))
      by (rewrite lookup_take_lt by lia; done).
    replace (Z.to_nat (i + 1)) with (S (Z.to_nat i)) by lia.
    cbn [fmap list_fmap]. rewrite filter_cons.
    destruct (Z.eqb_spec (vhost_net p) NULL) as [Hnull|Hnet].
    + by rewrite decide_False by (intros Hn; done).
    + rewrite decide_True by done. cbn. by rewrite <- app_assoc.
Qed.

Lemma stop_spec (s : VhostUserState) (log : list event) :
  0 <= queues s <= Z.of_nat (length (peers s)) ->
  vhost_user_stop s log =
    SkbRing.Done
      (if running s then
         (set_running s false,
          log ++ (EvCleanup <$>
                    filter (fun net => net ≠ NULL)
                      (vhost_net <$> take (Z.to_nat (queues s)) (peers s))))
       else (s, log)).
Proof.
  intros Hq. unfold vhost_user_stop.
  destruct (running s); [|done]. cbn.
  by rewrite (stop_loop_spec s (Z.to_nat (queues s)) 0 log) by lia.
Qed.

(** ** The character device *)


Lemma chardev_opts_step (props : VhostUserChardevProps)
    (name value : string) :
  (supported_opt (name, value) /\
   exists props',
     net_vhost_chardev_opts props name value = (0, props', None) /\
     (is_socket props' = true <->
        is_socket props = true \/ (name = "backend" /\ value = "socket")) /\
     (is_unix props' = true <-> is_unix props = true \/ name = "path")) \/
  (¬ supported_opt (name, value) /\
   net_vhost_chardev_opts props name value
     = (-1, props, Some (ErrOption name value))).
Proof.
  unfold net_vhost_chardev_opts, supported_opt. cbn.
  destruct (String.eqb_spec name "backend") as [Hb|Hb];
    destruct (String.eqb_spec value "socket") as [Hs|Hs];
    destruct (String.eqb_spec name "path") as [Hp|Hp];
    destruct (String.eqb_spec name "server") as [Hv|Hv];
    cbn; try (subst; discriminate);
    first [ right; split; [intros [[? ?]|[?|?]]; done|done]
          | left; split; [tauto|];
            eexists; split; [done|]; cbn; split; split;
              try tauto; try (intros [?|?]; try done; subst; done);
              try (intros [?|[? ?]]; try done; subst; done) ].
Qed.

Lemma foreach_accepts (opts : list (string * string)) :
  forall props : VhostUserChardevProps,
  Forall supported_opt opts ->
  exists props',
    qemu_opt_foreach opts props = (0, props', None) /\
    (is_socket props' = true <->
       is_socket props = true \/ ("backend", "socket") ∈ opts) /\
    (is_unix props' = true <->
       is_unix props = true \/ exists v, ("path", v) ∈ opts).
Proof.
  induction opts as [|[name value] opts IH]; intros props Hall.
  - exists props. split; [done|].
    split; (split; [by left|]); intros [?|H]; try done.
    + by apply elem_of_nil in H.
    + destruct H as [v H]. by apply elem_of_nil in H.
  - apply Forall_cons in Hall as [Hsup Hall].
    destruct (chardev_opts_step props name value)
      as [(_ & props1 & Hcall & Hsock & Hunix)|[Hn _]]; [|done].
    destruct (IH props1 Hall) as (props2 & Hrun & Hsock2 & Hunix2).
    exists props2. cbn [qemu_opt_foreach]. rewrite Hcall. cbn.
    split; [done|]. rewrite Hsock2, Hsock, Hunix2, Hunix. split.
    + rewrite elem_of_cons. split.
      * intros [[Hs|[Hn Hv]]|Hin]; subst; auto.
      * intros [Hs|[Heq|Hin]]; auto. injection Heq as Hn Hv. subst. auto.
    + split.
      * intros [[Hu|Hn]|[v Hin]]; auto.
        -- subst. right. exists value. by left.
        -- right. exists v. by right.
      * intros [Hu|[v Hin]]; auto. apply elem_of_cons in Hin as [Heq|Hin].
        -- injection Heq as Hn Hv. subst. auto.
        -- right. by exists v.
Qed.

(** The first option that is not accepted stops the iteration and is
    the one reported. *)
Lemma foreach_rejects (pre : list (string * string)) :
  forall (props : VhostUserChardevProps) (name value : string)
         (post : list (string * string)),
  Forall supported_opt pre ->
  ¬ supported_opt (name, value) ->
  exists props',
    qemu_opt_foreach (pre ++ (name, value) :: post) props
      = (-1, props', Some (ErrOption name value)).
Proof.
  induction pre as [|[n v] pre IH]; intros props name value post Hall Hbad.
  - cbn [app qemu_opt_foreach].
    destruct (chardev_opts_step props name value)
      as [[Hs _]|[_ Hcall]]; [done|].
    rewrite Hcall. by exists props.
  - apply Forall_cons in Hall as [Hsup Hall].
    destruct (chardev_opts_step props n v)
      as [(_ & props1 & Hcall & _)|[Hn _]]; [|done].
    cbn [app qemu_opt_foreach]. rewrite Hcall. cbn.
    by apply IH.
Qed.

(** Either every option is accepted or there is a first one that is
    not. *)
Lemma first_unsupported (opts : list (string * string)) :
  Forall supported_opt opts \/
  exists pre name value post,
    opts = pre ++ (name, value) :: post /\
    Forall supported_opt pre /\ ¬ supported_opt (name, value).
Proof.
  induction opts as [|[n v] opts IH]; [left; constructor|].
  destruct (chardev_opts_step (mk_props false false false) n v)
    as [[Hs _]|[Hn _]].
  - destruct IH as [Hall|(pre & name & value & post & -> & Hpre & Hbad)].
    + left. by constructor.
    + right. exists ((n, v) :: pre), name, value, post.
      split_and!; try done. by constructor.
  - right. exists [], n, v, opts. split_and!; try done.
Qed.

End VhostUserFacts.

(** * Properties of the vhost-user client *)

Section VhostExtras.
Import VhostUser VhostUserFacts.
Context (vhost_net_init : Z -> Z -> Z) (vhost_net_get_max_queues : Z -> Z).


(** X11 -- Stop.  Stopping a running backend hands the net of each of
    the first [queues] peers, in order and once, to [vhost_net_cleanup],
    skipping the [NULL] ones, and marks the backend stopped; the peers
    keep the pointers of the nets cleaned up.  Stopping a stopped
    backend does nothing, so a second stop changes nothing more. *)
Theorem vhost_user_stop_cleans_each_net (s : VhostUserState)
    (log : list event) :
  0 <= queues s <= Z.of_nat (length (peers s)) ->
  exists s' log',
    vhost_user_stop s log = SkbRing.Done (s', log') /\
    s' = set_running s false /\
    log' =
      (if running s then
         log ++ (EvCleanup <$>
                   filter (fun net => net ≠ NULL)
                     (vhost_net <$> take (Z.to_nat (queues s)) (peers s)))
       else log) /\
    vhost_user_stop s' log' = SkbRing.Done (s', log').
Proof.
  intros Hq. rewrite stop_spec by done.
  destruct (running s) eqn:Hrun.
  - eexists _, _. split_and!; try done.
  - exists s, log. split_and!; try done.
    + destruct s; cbn in *. by subst.
    + unfold vhost_user_stop. by rewrite Hrun.
Qed.

(** X12 -- Start, then stop.  After a start that returns 0, the net of
    queue [i] is the one initialised for the client of peer [i]; a
    second start returns 0 and does nothing; and a stop cleans up
    exactly the nets the start created, the [NULL] ones left out, each
    once and in the order of their creation. *)
Theorem start_then_stop (s s1 : VhostUserState) (log log1 : list event) :
  running s = false ->
  1 <= queues s ->
  Z.of_nat (length (peers s)) = queues s ->
  vhost_user_start vhost_net_init vhost_net_get_max_queues s log
    = SkbRing.Done (0, s1, log1) ->
  (forall (i : nat) (p : VhostUserNetPeer), peers s !! i = Some p ->
     vhost_user_get_vhost_net s1 (Z.of_nat i)
       = SkbRing.Done (vhost_net_init (chr s) (nc p))) /\
  vhost_user_start vhost_net_init vhost_net_get_max_queues s1 log1
    = SkbRing.Done (0, s1, log1) /\
  vhost_user_stop s1 log1 =
    SkbRing.Done
      (set_running s1 false,
       log1 ++ (EvCleanup <$>
                  filter (fun net => net ≠ NULL)
                    ((fun p => vhost_net_init (chr s) (nc p)) <$> peers s))).
Proof.
  intros Hrun Hq Hlen Hstart.
  pose proof (start_spec vhost_net_init vhost_net_get_max_queues s log
                Hrun Hq Hlen) as Hspec.
  cbv zeta in Hspec.
  destruct Hspec as (ret & s' & log' & Hstart' & Hok & Hbad & _).
  rewrite Hstart in Hstart'. injection Hstart' as <- <- <-.
  match type of Hbad with ¬ ?ok -> _ =>
    destruct (decide ok) as [Hyes|Hno];
      [|destruct (Hbad Hno) as [? _]; done] end.
  destruct (Hok Hyes) as (_ & Hs1 & _). clear Hok Hbad. split_and!.
  - intros i p Hp. unfold vhost_user_get_vhost_net, peer_load.
    destruct (Z.ltb_spec (Z.of_nat i) 0) as [|_]; [lia|].
    rewrite Nat2Z.id, Hs1. cbn. rewrite list_lookup_fmap, Hp. done.
  - unfold vhost_user_start. by rewrite Hs1.
  - rewrite stop_spec by (rewrite Hs1; cbn; rewrite length_fmap; lia).
    rewrite Hs1. cbn. do 3 f_equal.
    rewrite take_ge by (rewrite length_fmap; lia).
    rewrite <- list_fmap_compose. done.
Qed.

End VhostExtras.

Section VhostMoreExtras.
Import VhostUser VhostUserFacts.

(** X13 -- Cleanup after stop.  [vhost_user_stop] leaves in the peers
    the pointers of the nets it has cleaned up.  So when a running
    backend is stopped and the client of a queue whose net is not
    [NULL] is then cleaned up, [vhost_net_cleanup] is called on that
    net by the stop and once more by [vhost_user_cleanup]. *)
Theorem cleanup_after_stop_repeats (s : VhostUserState) (log : list event)
    (nc_ptr i : Z) (p : VhostUserNetPeer) :
  running s = true ->
  0 <= i < queues s ->
  queues s <= Z.of_nat (length (peers s)) ->
  peers s !! Z.to_nat i = Some p ->
  vhost_net p ≠ NULL ->
  exists s1 evs1 res evs2,
    vhost_user_stop s log = SkbRing.Done (s1, log ++ evs1) /\
    EvCleanup (vhost_net p) ∈ evs1 /\
    vhost_user_cleanup s1 nc_ptr i (log ++ evs1)
      = SkbRing.Done (res, log ++ evs1 ++ EvCleanup (vhost_net p) :: evs2).
Proof.
  intros Hrun Hi Hlen Hp Hnet.
  rewrite stop_spec, Hrun by lia.
  set (evs1 := EvCleanup <$> filter (fun net => net ≠ NULL)
                 (vhost_net <$> take (Z.to_nat (queues s)) (peers s))).
  assert (Hload : peer_load (set_running s false) i = SkbRing.Done p).
  { unfold peer_load. destruct (Z.ltb_spec i 0) as [|_]; [lia|].
    cbn. by rewrite Hp. }
  assert (Hin : EvCleanup (vhost_net p) ∈ evs1).
  { subst evs1. apply list_elem_of_fmap_2, list_elem_of_filter.
    split; [done|]. apply list_elem_of_fmap_2.
    apply (list_elem_of_lookup_2 _ (Z.to_nat i)).
    rewrite lookup_take_lt by lia. done. }
  assert (Hclean : forall res evs2,
            (if i =? queues s - 1 then (None, [EvPurge nc_ptr; EvFree])
             else (Some (set_running s false), [EvPurge nc_ptr]))
              = (res, evs2) ->
            vhost_user_cleanup (set_running s false) nc_ptr i (log ++ evs1)
              = SkbRing.Done
                  (res, log ++ evs1 ++ EvCleanup (vhost_net p) :: evs2)).
  { intros res evs2 Hres. unfold vhost_user_cleanup. rewrite Hload. cbn.
    destruct (Z.eqb_spec (vhost_net p) NULL) as [|_]; [done|].
    destruct (i =? queues s - 1); injection Hres as <- <-;
      by rewrite <- !app_assoc. }
  destruct (i =? queues s - 1).
  - exists (set_running s false), evs1, None, [EvPurge nc_ptr; EvFree].
    split_and!; try done. by apply Hclean.
  - exists (set_running s false), evs1, (Some (set_running s false)),
      [EvPurge nc_ptr].
    split_and!; try done. by apply Hclean.
Qed.

(** X14 -- Which character devices are taken.
    [net_vhost_parse_chardev] returns a device exactly when one of that
    name exists, each of its options is [backend=socket], [path] or
    [server], and both a [backend=socket] and a [path] option are
    present.  It returns either a device or an error, never both and
    never neither; and when some option is not accepted, the first such
    option is the one reported. *)
Theorem parse_chardev_takes_unix_sockets_only
    (qemu_chr_find : string -> option CharDriverState) (chardev : string) :
  let res := net_vhost_parse_chardev qemu_chr_find chardev in
  (forall c,
     res = (Some c, None) <->
     qemu_chr_find chardev = Some c /\
     Forall supported_opt (chr_opts c) /\
     ("backend", "socket") ∈ chr_opts c /\
     (exists v, ("path", v) ∈ chr_opts c)) /\
  (res.1 = None <-> res.2 ≠ None) /\
  (forall c pre name value post,
     qemu_chr_find chardev = Some c ->
     chr_opts c = pre ++ (name, value) :: post ->
     Forall supported_opt pre ->
     ¬ supported_opt (name, value) ->
     res = (None, Some (ErrOption name value))).
Proof.
  intros res. subst res. unfold net_vhost_parse_chardev.
  destruct (qemu_chr_find chardev) as [c|] eqn:Hfind.
  2: { split_and!; [|done|done].
       intros c. split; [done|]. by intros [? _]. }
  destruct (first_unsupported (chr_opts c))
    as [Hall|(pre & name & value & post & Hopts & Hpre & Hbad)].
  - destruct (foreach_accepts (chr_opts c) (mk_props false false false) Hall)
      as (props & -> & Hsock & Hunix).
    cbn in Hsock, Hunix. cbn [negb Z.eqb].
    assert (Hnone : forall pre name value post,
              chr_opts c = pre ++ (name, value) :: post ->
              Forall supported_opt pre -> ¬ supported_opt (name, value) ->
              False).
    { intros pre name value post Hopts _ Hbad. apply Hbad.
      rewrite Forall_forall in Hall. apply Hall. rewrite Hopts.
      apply elem_of_app. right. by left. }
    destruct (is_socket props) eqn:Hs; destruct (is_unix props) eqn:Hu; cbn.
    + split_and!.
      * intros c'. split.
        -- intros [= <-]. split_and!; try done.
           ++ destruct Hsock as [[|]]; done.
           ++ destruct Hunix as [[|]]; done.
        -- by intros ([= <-] & _).
      * done.
      * intros c' pre name value post [= <-] Hopts Hpre Hbad.
        by destruct (Hnone pre name value post).
    + split_and!.
      * intros c'. split; [done|]. intros ([= <-] & _ & _ & Hv).
        destruct Hunix as [_ Hunix]. by specialize (Hunix (or_intror Hv)).
      * done.
      * intros c' pre name value post [= <-] Hopts Hpre Hbad.
        by destruct (Hnone pre name value post).
    + split_and!.
      * intros c'. split; [done|]. intros ([= <-] & _ & Hv & _).
        destruct Hsock as [_ Hsock]. by specialize (Hsock (or_intror Hv)).
      * done.
      * intros c' pre name value post [= <-] Hopts Hpre Hbad.
        by destruct (Hnone pre name value post).
    + split_and!.
      * intros c'. split; [done|]. intros ([= <-] & _ & Hv & _).
        destruct Hsock as [_ Hsock]. by specialize (Hsock (or_intror Hv)).
      * done.
      * intros c' pre name value post [= <-] Hopts Hpre Hbad.
        by destruct (Hnone pre name value post).
  - destruct (foreach_rejects pre (mk_props false false false)
                name value post Hpre Hbad) as (props & Hrun).
    rewrite Hopts, Hrun. cbn. split_and!.
    + intros c'. split; [done|]. intros ([= <-] & Hall & _).
      destruct Hbad. rewrite Forall_forall in Hall. apply Hall.
      rewrite Hopts. apply elem_of_app. right. by left.
    + done.
    + intros c' pre' name' value' post' [= <-] Hopts' Hpre' Hbad'.
      destruct (foreach_rejects pre' (mk_props false false false)
                  name' value' post' Hpre' Hbad') as (props' & Hrun').
      rewrite <- Hopts', Hopts, Hrun in Hrun'. by injection Hrun' as _ <- <-.
Qed.

End VhostMoreExtras.

Section VhostRuns.
Import VhostUser VhostUserFacts VhostExamples.


(** [vhost_user_stop_cleans_each_net] on the running backend. *)
Lemma vhost_user_stop_cleans_each_net_witness :
  vhost_user_stop vhost3_up []
  = SkbRing.Done (set_running vhost3_up false,
                  [EvCleanup 101; EvCleanup 201; EvCleanup 301]).
Proof.
  destruct (vhost_user_stop_cleans_each_net vhost3_up [])
    as (s' & log' & -> & -> & -> & _); [cbn; lia|done].
Defined.

(** [start_then_stop] on the stopped backend of three queues. *)
Lemma start_then_stop_witness :
  vhost_user_get_vhost_net vhost3_up 1 = SkbRing.Done 201 /\
  vhost_user_stop vhost3_up [EvInit 7 100; EvInit 7 200; EvInit 7 300]
  = SkbRing.Done
      (set_running vhost3_up false,
       [EvInit 7 100; EvInit 7 200; EvInit 7 300;
        EvCleanup 101; EvCleanup 201; EvCleanup 301]).
Proof.
  destruct (start_then_stop init_ok max_queues_8 vhost3 vhost3_up []
              [EvInit 7 100; EvInit 7 200; EvInit 7 300])
    as (Hget & _ & Hstop); [done|done|done|done|].
  split; [exact (Hget 1%nat (mk_peer 200 0) eq_refl)|exact Hstop].
Defined.

(** [cleanup_after_stop_repeats] on the running backend, for the client
    of queue 1. *)
Lemma cleanup_after_stop_repeats_witness :
  exists s1 evs1 res evs2,
    vhost_user_stop vhost3_up [] = SkbRing.Done (s1, [] ++ evs1) /\
    EvCleanup 201 ∈ evs1 /\
    vhost_user_cleanup s1 200 1 ([] ++ evs1)
      = SkbRing.Done (res, [] ++ evs1 ++ EvCleanup 201 :: evs2).
Proof.
  apply (cleanup_after_stop_repeats vhost3_up [] 200 1 (mk_peer 200 201));
    try done; cbn; lia.
Defined.

(** [parse_chardev_takes_unix_sockets_only] on a unix socket device and
    on a UDP one. *)
Lemma parse_chardev_takes_unix_sockets_only_witness :
  net_vhost_parse_chardev chr_find "chr0" = (chr_find "chr0", None) /\
  net_vhost_parse_chardev chr_find "chr1"
    = (None, Some (ErrOption "backend" "udp")).
Proof.
  split.
  - destruct (parse_chardev_takes_unix_sockets_only chr_find "chr0")
      as (Hgood & _).
    apply Hgood. split_and!.
    + reflexivity.
    + each_elem ltac:(unfold supported_opt; cbn; tauto).
    + by left.
    + exists "/tmp/vhost.sock". right. by left.
  - destruct (parse_chardev_takes_unix_sockets_only chr_find "chr1")
      as (_ & _ & Hbad).
    apply (Hbad (mk_chr "chr1" [("backend", "udp"); ("port", "4000")])
             [] "backend" "udp" [("port", "4000")]).
    + reflexivity.
    + reflexivity.
    + constructor.
    + intros [[_ Hv]|[Hn|Hn]]; discriminate.
Defined.

End VhostRuns.

(** * Facts about the XDP tunnel sample *)

Module XdpTunnelFacts.
Import SkbRing XdpTunnel.

Lemma same_frame_trans (x2 x1 x : xdp_md) :
  same_frame x2 x1 -> same_frame x1 x -> same_frame x2 x.
Proof.
  intros (Hd2 & He2 & Hwf2) (Hd1 & He1 & _).
  split_and!; [congruence|congruence|done].
Qed.

Lemma in_packet_true (x : xdp_md) (a : Z) :
  wf x -> data x <= a < data_end x -> in_packet x a = true.
Proof.
  intros (_ & Hd & _) Ha. unfold in_packet.
  apply andb_true_intro. split; [apply andb_true_intro; split|].
  - apply Z.leb_le. lia.
  - apply Z.leb_le. lia.
  - apply Z.ltb_lt. lia.
Qed.

Lemma load8_ok (x : xdp_md) (a : Z) :
  wf x -> data x <= a < data_end x ->
  exists b, load8 x a = Done b /\ 0 <= b < 256.
Proof.
  intros Hwf Ha. pose proof Hwf as (Hb & Hd & He).
  unfold load8. rewrite in_packet_true by done.
  destruct (buf x !! Z.to_nat a) as [b|] eqn:Hl.
  - exists b. split; [done|].
    rewrite Forall_forall in Hb. apply Hb.
    by apply list_elem_of_lookup_2 in Hl.
  - apply lookup_ge_None in Hl. lia.
Qed.

Lemma store8_ok (x : xdp_md) (a v : Z) :
  wf x -> data x <= a < data_end x ->
  exists x', store8 x a v = Done x' /\ same_frame x' x.
Proof.
  intros Hwf Ha. pose proof Hwf as (Hb & Hd & He).
  unfold store8. rewrite in_packet_true by done.
  rewrite bool_decide_eq_true_2 by lia. cbn.
  eexists. split; [done|]. unfold same_frame, wf. cbn.
  split_and!; try done.
  - apply Forall_insert; [done|]. apply Z.mod_pos_bound. lia.
  - by rewrite length_insert.
Qed.

Ltac run := cbn [mbind outcome_bind].

Section Host.
Context (le : bool).

Lemma word16_bound (b0 b1 : Z) :
  0 <= b0 < 256 -> 0 <= b1 < 256 -> 0 <= word16 le b0 b1 < 65536.
Proof. unfold word16. destruct le; lia. Qed.

Lemma load16_ok (x : xdp_md) (a : Z) :
  wf x -> data x <= a -> a + 2 <= data_end x ->
  exists w, load16 le x a = Done w /\ 0 <= w < 65536.
Proof.
  intros Hwf Ha He. unfold load16.
  destruct (load8_ok x a Hwf) as (b0 & -> & Hb0); [lia|].
  run.
  destruct (load8_ok x (a + 1) Hwf) as (b1 & -> & Hb1); [lia|].
  run.
  cbn. eexists. split; [done|]. by apply word16_bound.
Qed.

Lemma store16_ok (x : xdp_md) (a v : Z) :
  wf x -> data x <= a -> a + 2 <= data_end x ->
  exists x', store16 le x a v = Done x' /\ same_frame x' x.
Proof.
  intros Hwf Ha He. unfold store16.
  destruct (store8_ok x a (byte0 le v) Hwf) as (x1 & -> & Hd1 & He1 & Hwf1);
    [lia|].
  run.
  destruct (store8_ok x1 (a + 1) (byte1 le v) Hwf1)
    as (x2 & -> & Hd2 & He2 & Hwf2); [lia|].
  run.
  cbn. exists x2. split; [done|]. split_and!; try done; congruence.
Qed.

Lemma load32_ok (x : xdp_md) (a : Z) :
  wf x -> data x <= a -> a + 4 <= data_end x ->
  exists w, load32 le x a = Done w.
Proof.
  intros Hwf Ha He. unfold load32.
  destruct (load16_ok x a Hwf) as (w0 & -> & _); [lia|lia|].
  run.
  destruct (load16_ok x (a + 2) Hwf) as (w1 & -> & _); [lia|lia|].
  run.
  cbn. by eexists.
Qed.

Lemma store32_ok (x : xdp_md) (a v : Z) :
  wf x -> data x <= a -> a + 4 <= data_end x ->
  exists x', store32 le x a v = Done x' /\ same_frame x' x.
Proof.
  intros Hwf Ha He. unfold store32. cbv zeta.
  destruct (store16_ok x a (if le then v mod 65536
                            else (v / 65536) mod 65536) Hwf)
    as (x1 & -> & Hd1 & He1 & Hwf1); [lia|lia|].
  run.
  destruct (store16_ok x1 (a + 2) (if le then (v / 65536) mod 65536
                                   else v mod 65536) Hwf1)
    as (x2 & -> & Hd2 & He2 & Hwf2); [lia|lia|].
  run.
  cbn. exists x2. split; [done|]. split_and!; try done; congruence.
Qed.

Lemma memcpy_ok (n : nat) : forall (x : xdp_md) (dst src : Z),
  wf x ->
  data x <= dst -> dst + Z.of_nat n <= data_end x ->
  data x <= src -> src + Z.of_nat n <= data_end x ->
  exists x', memcpy x dst src n = Done x' /\ same_frame x' x.
Proof.
  induction n as [|n IH]; intros x dst src Hwf Hd1 Hd2 Hs1 Hs2.
  - exists x. split; [done|]. by split_and!.
  - cbn [memcpy].
    destruct (load8_ok x src Hwf) as (b & -> & _); [lia|].
    run.
    destruct (store8_ok x dst b Hwf) as (x1 & -> & Hd & He & Hwf1); [lia|].
    run.
    cbn.
    destruct (IH x1 (dst + 1) (src + 1) Hwf1) as (x2 & -> & Hd' & He' & Hwf2);
      try lia.
    exists x2. split; [done|]. split_and!; try done; congruence.
Qed.

Lemma memcpy_from_ok (bytes : list Z) : forall (x : xdp_md) (dst : Z),
  wf x ->
  data x <= dst -> dst + Z.of_nat (length bytes) <= data_end x ->
  exists x', memcpy_from x dst bytes = Done x' /\ same_frame x' x.
Proof.
  induction bytes as [|b bytes IH]; intros x dst Hwf Hd1 Hd2.
  - exists x. split; [done|]. by split_and!.
  - cbn [memcpy_from]. cbn [length] in Hd2.
    destruct (store8_ok x dst b Hwf) as (x1 & -> & Hd & He & Hwf1); [lia|].
    run.
    cbn.
    destruct (IH x1 (dst + 1) Hwf1) as (x2 & -> & Hd' & He' & Hwf2);
      try lia.
    exists x2. split; [done|]. split_and!; try done; congruence.
Qed.

Lemma csum_loop_ok (n : nat) : forall (x : xdp_md) (a csum : Z),
  wf x -> data x <= a -> a + 2 * Z.of_nat n <= data_end x ->
  exists c, csum_loop le x a n csum = Done c.
Proof.
  induction n as [|n IH]; intros x a csum Hwf Ha He.
  - by eexists.
  - cbn [csum_loop].
    destruct (load16_ok x a Hwf) as (w & -> & _); [lia|lia|]. cbn.
    run.
    apply IH; [done|lia|lia].
Qed.

(** [get_dport] returns; it returns -1 only when the transport header
    does not fit in the packet. *)
Lemma get_dport_ok (x : xdp_md) (trans_data protocol : Z) :
  wf x -> data x <= trans_data ->
  exists dport,
    get_dport le x trans_data (data_end x) protocol = Done dport /\
    (dport = -1 <->
       (protocol = IPPROTO_TCP /\
        data_end x < trans_data + sizeof_tcphdr) \/
       (protocol = IPPROTO_UDP /\
        data_end x < trans_data + sizeof_udphdr)).
Proof.
  intros Hwf Ht. unfold get_dport.
  unfold IPPROTO_TCP, IPPROTO_UDP, sizeof_tcphdr, sizeof_udphdr.
  destruct (Z.eqb_spec protocol 6) as [->|Hn6].
  - destruct (Z.ltb_spec (data_end x) (trans_data + 20)).
    + exists (-1). split; [done|]. split; [|done]. intros _. by left.
    + destruct (load16_ok x (trans_data + 2) Hwf) as (w & -> & Hw);
        [lia|lia|].
    run.
      exists w. split; [done|]. split; [lia|]. intros [[_ ?]|[? _]]; lia.
  - destruct (Z.eqb_spec protocol 17) as [->|Hn17].
    + destruct (Z.ltb_spec (data_end x) (trans_data + 8)).
      * exists (-1). split; [done|]. split; [|done]. intros _. by right.
      * destruct (load16_ok x (trans_data + 2) Hwf) as (w & -> & Hw);
          [lia|lia|].
      run.
        exists w. split; [done|]. split; [lia|]. intros [[? _]|[_ ?]]; lia.
    + exists 0. split; [done|]. split; [done|]. intros [[? _]|[? _]]; lia.
Qed.

Lemma set_ethhdr_ok (x : xdp_md) (new_eth old_eth h_proto : Z) :
  wf x ->
  data x <= new_eth -> new_eth + 14 <= data_end x ->
  data x <= old_eth -> old_eth + 14 <= data_end x ->
  exists x', set_ethhdr le x new_eth old_eth h_proto = Done x' /\
             same_frame x' x.
Proof.
  intros Hwf Hn1 Hn2 Ho1 Ho2. unfold set_ethhdr.
  destruct (memcpy_ok 6 x (new_eth + 6) old_eth Hwf)
    as (x1 & -> & Hd1 & He1 & Hwf1); try lia. cbn [mbind outcome_bind].
  run.
  destruct (memcpy_from_ok [255; 255; 255; 255; 255; 255] x1 new_eth Hwf1)
    as (x2 & -> & Hd2 & He2 & Hwf2); try (cbn [length]; lia).
  run.
  cbn [mbind outcome_bind].
  destruct (store16_ok x2 (new_eth + 12) h_proto Hwf2)
    as (x3 & -> & Hd3 & He3 & Hwf3); try lia.
  run.
  exists x3. split; [done|]. split_and!; try done; congruence.
Qed.

End Host.

(** ** Running the program on a window of the buffer *)


Lemma load8_win (pre win : list Z) (d e a : Z) (k : nat) (b : Z) :
  a = Z.of_nat (length pre) + Z.of_nat k ->
  d <= a < e ->
  win !! k = Some b ->
  load8 (mk_xdp (pre ++ win) d e) a = Done b.
Proof.
  intros -> Ha Hk. unfold load8, in_packet. cbn.
  destruct (Z.leb_spec 0 (Z.of_nat (length pre) + Z.of_nat k)); [|lia].
  destruct (Z.leb_spec d (Z.of_nat (length pre) + Z.of_nat k)); [|lia].
  destruct (Z.ltb_spec (Z.of_nat (length pre) + Z.of_nat k) e); [|lia].
  cbn. rewrite lookup_app_r by lia.
  replace (Z.to_nat (Z.of_nat (length pre) + Z.of_nat k) - length pre)%nat
    with k by lia.
  by rewrite Hk.
Qed.

Lemma store8_win (pre win : list Z) (d e a v : Z) (k : nat) :
  a = Z.of_nat (length pre) + Z.of_nat k ->
  d <= a < e ->
  (k < length win)%nat ->
  store8 (mk_xdp (pre ++ win) d e) a v
  = Done (mk_xdp (pre ++ <[k := v mod 256]> win) d e).
Proof.
  intros -> Ha Hk. unfold store8, in_packet, set_buf. cbn.
  destruct (Z.leb_spec 0 (Z.of_nat (length pre) + Z.of_nat k)); [|lia].
  destruct (Z.leb_spec d (Z.of_nat (length pre) + Z.of_nat k)); [|lia].
  destruct (Z.ltb_spec (Z.of_nat (length pre) + Z.of_nat k) e); [|lia].
  cbn. rewrite bool_decide_eq_true_2 by (rewrite length_app; lia).
  do 2 f_equal. rewrite insert_app_r_alt by lia. f_equal. f_equal. lia.
Qed.

Ltac offset pre a :=
  match a with
  | Z.of_nat (length pre) => constr:(0)
  | ?b + ?c => let k := offset pre b in constr:(k + c)
  end.

Ltac win_load pre :=
  match goal with
  | |- context [load8 (mk_xdp (pre ++ ?win) ?d ?e) ?a] =>
      let k := offset pre a in
      let kn := eval cbv in (Z.to_nat k) in
      let r := eval cbn [lookup list_lookup] in (win !! kn) in
      match r with
      | Some ?v => rewrite (load8_win pre win d e a kn v) by (lia || reflexivity)
      end
  end.

Ltac win_store pre :=
  match goal with
  | |- context [store8 (mk_xdp (pre ++ ?win) ?d ?e) ?a ?v] =>
      let k := offset pre a in
      let kn := eval cbv in (Z.to_nat k) in
      rewrite (store8_win pre win d e a v kn) by (cbn [length]; lia);
      cbn [insert list_insert]
  end.

Ltac win_step pre := first [win_load pre | win_store pre]; run.

Section Bytes.
Context (le : bool).

Lemma ethertype_ip : (word16 le 8 0 =? htons le ETH_P_IP) = true.
Proof. by destruct le. Qed.

Lemma ethertype_ip_only (b0 b1 : Z) :
  0 <= b0 < 256 -> 0 <= b1 < 256 ->
  (word16 le b0 b1 =? htons le ETH_P_IP) = true -> b0 = 8 /\ b1 = 0.
Proof.
  intros H0 H1 Heq. apply Z.eqb_eq in Heq.
  destruct le;
    [change (htons true ETH_P_IP) with 8 in Heq
    |change (htons false ETH_P_IP) with 2048 in Heq];
    unfold word16 in Heq; lia.
Qed.

Lemma byte0_htons (v : Z) :
  byte0 le (htons le v) mod 256 = (v mod 65536) / 256.
Proof.
  unfold byte0, htons. destruct le; Z.div_mod_to_equations; lia.
Qed.

Lemma byte1_htons (v : Z) : byte1 le (htons le v) mod 256 = v mod 256.
Proof.
  unfold byte1, htons. destruct le; Z.div_mod_to_equations; lia.
Qed.

Lemma ntohs_word16 (b0 b1 : Z) :
  0 <= b0 < 256 -> 0 <= b1 < 256 -> ntohs le (word16 le b0 b1) = 256 * b0 + b1.
Proof.
  intros H0 H1. unfold ntohs, htons, word16.
  destruct le; Z.div_mod_to_equations; lia.
Qed.

Lemma byte0_zero : byte0 le 0 mod 256 = 0.
Proof. by destruct le. Qed.
Lemma byte1_zero : byte1 le 0 mod 256 = 0.
Proof. by destruct le. Qed.

Lemma byte0_ones :
  byte0 le (if le then 4294967295 mod 65536
            else (4294967295 / 65536) mod 65536) mod 256 = 255.
Proof. by destruct le. Qed.
Lemma byte1_ones :
  byte1 le (if le then 4294967295 mod 65536
            else (4294967295 / 65536) mod 65536) mod 256 = 255.
Proof. by destruct le. Qed.
Lemma byte0_ones' :
  byte0 le (if le then (4294967295 / 65536) mod 65536
            else 4294967295 mod 65536) mod 256 = 255.
Proof. by destruct le. Qed.
Lemma byte1_ones' :
  byte1 le (if le then (4294967295 / 65536) mod 65536
            else 4294967295 mod 65536) mod 256 = 255.
Proof. by destruct le. Qed.

End Bytes.

(** The two nibble stores leave [0x45] whatever the byte was. *)
Lemma version_ihl (b : Z) :
  Z.lor (Z.land (Z.lor (Z.land b 15) (Z.shiftl 4 4) mod 256) 240)
        (Z.shiftr 20 2) mod 256 = 69.
Proof.
  assert (Hlow : 0 <= Z.land b 15 < 16).
  { change 15 with (Z.ones 4). rewrite Z.land_ones by lia.
    apply Z.mod_pos_bound. lia. }
  generalize dependent (Z.land b 15). intros r Hr.
  assert (r = 0 \/ r = 1 \/ r = 2 \/ r = 3 \/ r = 4 \/ r = 5 \/ r = 6 \/
          r = 7 \/ r = 8 \/ r = 9 \/ r = 10 \/ r = 11 \/ r = 12 \/
          r = 13 \/ r = 14 \/ r = 15) as Hcases by lia.
  repeat (destruct Hcases as [->|Hcases]; [reflexivity|]).
  by subst r.
Qed.

(** The run of the program on an IPv4 packet with room before it: the
    buffer is [pre], twenty bytes [h0 .. h19] of room, the Ethernet
    header [e0 .. e11, 8, 0], the IP header [i0 .. i19], and the rest. *)
Lemma tx_run (le : bool) (helper : xdp_md -> Z -> Z * xdp_md)
    (pre rest : list Z) (rxcnt : list Z)
    (h0 h1 h2 h3 h4 h5 h6 h7 h8 h9 h10 h11 h12 h13 h14 h15 h16 h17 h18 h19
     e0 e1 e2 e3 e4 e5 e6 e7 e8 e9 e10 e11
     i0 i1 i2 i3 i4 i5 i6 i7 i8 i9 i10 i11 i12 i13 i14 i15 i16 i17 i18 i19
     : Z) (L : Z) :
  let P := Z.of_nat (length pre) in
  let win :=
    [h0; h1; h2; h3; h4; h5; h6; h7; h8; h9; h10; h11; h12; h13; h14; h15;
     h16; h17; h18; h19;
     e0; e1; e2; e3; e4; e5; e6; e7; e8; e9; e10; e11; 8; 0;
     i0; i1; i2; i3; i4; i5; i6; i7; i8; i9; i10; i11; i12; i13; i14; i15;
     i16; i17; i18; i19] ++ rest in
  let x := mk_xdp (pre ++ win) (P + 20) (P + 54 + L) in
  wf x ->
  0 <= L ->
  (i9 = IPPROTO_TCP -> 20 <= L) ->
  (i9 = IPPROTO_UDP -> 8 <= L) ->
  helper x (0 - 20) = (0, mk_xdp (pre ++ win) P (P + 54 + L)) ->
  let tl := (256 * i2 + i3 + 20) mod 65536 in
  let ck :=
    csum_fold
      (host_sum le [69; 0; tl / 256; tl mod 256; h18; h19; 0; 0; 8; 4; 0; 0;
                    255; 255; 255; 255; 255; 255; 255; 255]) in
  _xdp_tx_iptunnel le helper x rxcnt
  = Done (XDP_TX,
          mk_xdp
            (pre ++
             [255; 255; 255; 255; 255; 255; e0; e1; e2; e3; e4; e5; 8; 0;
              69; 0; tl / 256; tl mod 256; h18; h19; 0; 0; 8; 4;
              byte0 le ck mod 256; byte1 le ck mod 256;
              255; 255; 255; 255; 255; 255; 255; 255;
              i0; i1; i2; i3; i4; i5; i6; i7; i8; i9; i10; i11; i12; i13;
              i14; i15; i16; i17; i18; i19] ++ rest)
            P (P + 54 + L),
          count_tx rxcnt i9).
Proof.
  intros P win x Hwf HL Htcp Hudp Hhelper tl ck.
  assert (Hall : Forall (fun b => 0 <= b < 256) win).
  { destruct Hwf as (Hall & _). subst x. cbn [buf] in Hall.
    by apply Forall_app in Hall as [_ Hall]. }
  pose proof (Forall_lookup_1 _ _ 18%nat h18 Hall eq_refl) as Hh18.
  pose proof (Forall_lookup_1 _ _ 19%nat h19 Hall eq_refl) as Hh19.
  pose proof (Forall_lookup_1 _ _ 20%nat e0 Hall eq_refl) as He0.
  pose proof (Forall_lookup_1 _ _ 21%nat e1 Hall eq_refl) as He1.
  pose proof (Forall_lookup_1 _ _ 22%nat e2 Hall eq_refl) as He2.
  pose proof (Forall_lookup_1 _ _ 23%nat e3 Hall eq_refl) as He3.
  pose proof (Forall_lookup_1 _ _ 24%nat e4 Hall eq_refl) as He4.
  pose proof (Forall_lookup_1 _ _ 25%nat e5 Hall eq_refl) as He5.
  pose proof (Forall_lookup_1 _ _ 36%nat i2 Hall eq_refl) as Hi2.
  pose proof (Forall_lookup_1 _ _ 37%nat i3 Hall eq_refl) as Hi3.
  cbv beta in Hh18, Hh19, He0, He1, He2, He3, He4, He5, Hi2, Hi3.
  clear Hall.
  unfold _xdp_tx_iptunnel, handle_ipv4, sizeof_ethhdr, sizeof_iphdr.
  subst x win P. cbn [data data_end app] in *.
  set (P := Z.of_nat (length pre)) in *.
  destruct (Z.ltb_spec (P + 54 + L) (P + 20 + 14)) as [|_]; [lia|].
  destruct (Z.ltb_spec (P + 54 + L) (P + 20 + 14 + 20)) as [|_]; [lia|].
  subst P.
  unfold set_ethhdr. cbn [memcpy memcpy_from].
  unfold load32, store32. unfold load16, store16.
  repeat win_step pre.
  rewrite ethertype_ip. run.
  match goal with |- context [get_dport le ?x ?a ?e ?p] =>
    destruct (get_dport_ok le x a p Hwf) as (dport & Hdp & Hiff);
      [cbn [data]; lia|]
  end.
  cbn [data data_end] in Hdp, Hiff. rewrite Hdp.
  unfold sizeof_tcphdr, sizeof_udphdr in Hiff.
  run.
  destruct (Z.eqb_spec dport (-1)) as [Hbad|_].
  { apply Hiff in Hbad as [[Ht ?]|[Hu ?]];
      [specialize (Htcp Ht)|specialize (Hudp Hu)]; lia. }
  run.
  rewrite Hhelper. cbv beta iota zeta. cbn [data data_end negb Z.eqb].
  repeat match goal with
         | |- context [?a <? ?b] => destruct (Z.ltb_spec a b); [lia|]
         end.
  cbn [orb].
  repeat win_step pre.
  (* the header as it is summed *)
  change (255 mod 256) with 255. change (0 mod 256) with 0.
  change (8 mod 256) with 8. change (IPPROTO_IPIP mod 256) with 4.
  rewrite !byte0_htons, !byte1_htons, version_ihl.
  rewrite byte0_zero, byte1_zero.
  rewrite byte0_ones, byte1_ones, byte0_ones', byte1_ones'.
  change ((ETH_P_IP mod 65536) / 256) with 8.
  change (ETH_P_IP mod 256) with 0.
  rewrite (Z.mod_small e0), (Z.mod_small e1), (Z.mod_small e2),
    (Z.mod_small e3), (Z.mod_small e4), (Z.mod_small e5) by lia.
  rewrite ntohs_word16 by lia.
  replace ((256 * i2 + i3 + 20) mod 256) with (tl mod 256)
    by (subst tl; Z.div_mod_to_equations; lia).
  fold tl.
  change (Z.to_nat (Z.shiftr 20 1)) with 10%nat. cbn [csum_loop].
  unfold load16.
  repeat win_step pre.
  match goal with |- context [csum_fold ?c] =>
    replace c with
      (host_sum le [69; 0; tl / 256; tl mod 256; h18; h19; 0; 0; 8; 4; 0; 0;
                    255; 255; 255; 255; 255; 255; 255; 255])
  end.
  2: { cbn [host_sum]. unfold word16.
       assert (Htl : 0 <= tl < 65536)
         by (subst tl; apply Z.mod_pos_bound; lia).
       clearbody tl. clear -Hh18 Hh19 Htl.
       destruct le; Z.div_mod_to_equations; lia. }
  fold ck. reflexivity.
Qed.

(** The outer header the program writes, with the given checksum bytes:
    [tot] is the total length, [id] the two bytes found where the
    identification goes. *)
Lemma tx_run_lists (le : bool) (helper : xdp_md -> Z -> Z * xdp_md)
    (pre hr mac iph rest rxcnt : list Z) (L : Z) :
  length hr = 20%nat -> length mac = 12%nat -> length iph = 20%nat ->
  let P := Z.of_nat (length pre) in
  let x := mk_xdp (pre ++ hr ++ (mac ++ [8; 0]) ++ iph ++ rest)
             (P + 20) (P + 54 + L) in
  let proto := default 0 (iph !! 9%nat) in
  wf x ->
  0 <= L ->
  (proto = IPPROTO_TCP -> 20 <= L) ->
  (proto = IPPROTO_UDP -> 8 <= L) ->
  helper x (0 - 20) = (0, mk_xdp (buf x) P (P + 54 + L)) ->
  let tl :=
    (256 * default 0 (iph !! 2%nat) + default 0 (iph !! 3%nat) + 20)
      mod 65536 in
  let outer ck :=
    [69; 0; tl / 256; tl mod 256] ++ drop 18 hr ++ [0; 0; 8; 4] ++ ck
      ++ replicate 8 255 in
  let ck := csum_fold (host_sum le (outer [0; 0])) in
  _xdp_tx_iptunnel le helper x rxcnt
  = Done (XDP_TX,
          mk_xdp
            (pre ++ (replicate 6 255 ++ take 6 mac ++ [8; 0])
                 ++ outer [byte0 le ck mod 256; byte1 le ck mod 256]
                 ++ iph ++ rest)
            P (P + 54 + L),
          count_tx rxcnt proto).
Proof.
  intros Hhr Hmac Hiph.
  do 20 (destruct hr as [|? hr]; [done|]). destruct hr; [|done].
  do 12 (destruct mac as [|? mac]; [done|]). destruct mac; [|done].
  do 20 (destruct iph as [|? iph]; [done|]). destruct iph; [|done].
  cbv zeta. cbn [app lookup list_lookup default drop take replicate buf].
  intros Hwf HL Htcp Hudp Hhelper.
  by apply tx_run.
Qed.

Lemma packet_length (x : xdp_md) :
  wf x -> data x <= data_end x ->
  Z.of_nat (length (packet x)) = data_end x - data x.
Proof.
  intros (_ & Hd & He) Hle. unfold packet.
  rewrite length_take, length_drop. lia.
Qed.

(** A byte of the packet, through [load8] and through [packet]. *)
Lemma load8_packet (x : xdp_md) (k : nat) :
  wf x -> data x + Z.of_nat k < data_end x ->
  exists b,
    packet x !! k = Some b /\
    load8 x (data x + Z.of_nat k) = Done b /\
    0 <= b < 256.
Proof.
  intros Hwf Hk. pose proof Hwf as (_ & Hd & He).
  destruct (load8_ok x (data x + Z.of_nat k) Hwf) as (b & Hl & Hb); [lia|].
  exists b. split_and!; try done; try lia.
  unfold load8 in Hl. rewrite in_packet_true in Hl by (done || lia).
  destruct (buf x !! Z.to_nat (data x + Z.of_nat k)) as [b'|] eqn:Hlook;
    [|done].
  injection Hl as ->. unfold packet.
  rewrite lookup_take_lt by lia. rewrite lookup_drop.
  rewrite <- Hlook. f_equal. lia.
Qed.

(** The packet of a buffer given in three parts. *)
Lemma packet_app (pre pkt post : list Z) :
  packet (mk_xdp (pre ++ pkt ++ post) (Z.of_nat (length pre))
            (Z.of_nat (length pre) + Z.of_nat (length pkt))) = pkt.
Proof.
  unfold packet. cbn.
  rewrite Nat2Z.id, drop_app_length.
  replace (Z.to_nat (Z.of_nat (length pre) + Z.of_nat (length pkt)
                     - Z.of_nat (length pre))) with (length pkt) by lia.
  by rewrite take_app_length.
Qed.

(** A buffer with twenty bytes of room before the packet, in parts. *)
Lemma buffer_split (x : xdp_md) (pkt : list Z) :
  wf x ->
  20 <= data x <= data_end x ->
  packet x = pkt ->
  exists pre hr post,
    buf x = pre ++ hr ++ pkt ++ post /\
    Z.of_nat (length pre) = data x - 20 /\
    length hr = 20%nat /\
    data_end x = data x + Z.of_nat (length pkt) /\
    pre = take (Z.to_nat (data x - 20)) (buf x) /\
    post = drop (Z.to_nat (data_end x)) (buf x) /\
    drop 18 hr = take 2 (drop (Z.to_nat (data x - 2)) (buf x)).
Proof.
  intros Hwf Hd Hpkt. pose proof Hwf as (_ & _ & He).
  pose proof (packet_length x Hwf ltac:(lia)) as Hlen. rewrite Hpkt in Hlen.
  exists (take (Z.to_nat (data x - 20)) (buf x)),
         (take 20 (drop (Z.to_nat (data x - 20)) (buf x))),
         (drop (Z.to_nat (data_end x)) (buf x)).
  split_and!; try done.
  - rewrite <- Hpkt. unfold packet.
    rewrite <- (take_drop (Z.to_nat (data x - 20)) (buf x)) at 1. f_equal.
    rewrite <- (take_drop 20 (drop (Z.to_nat (data x - 20)) (buf x))) at 1.
    f_equal. rewrite drop_drop.
    replace (Z.to_nat (data x - 20) + 20)%nat with (Z.to_nat (data x))
      by lia.
    rewrite <- (take_drop (Z.to_nat (data_end x - data x))
                  (drop (Z.to_nat (data x)) (buf x))) at 1.
    f_equal. rewrite drop_drop. f_equal. lia.
  - rewrite length_take. lia.
  - rewrite length_take, length_drop. lia.
  - lia.
  - rewrite !take_drop_commute, drop_drop.
    replace (Z.to_nat (data x - 20) + 18)%nat with (Z.to_nat (data x - 2))
      by lia.
    do 2 f_equal. lia.
Qed.

(** The run on a buffer whose packet is an IPv4 frame with twenty bytes
    of room before it. *)
Lemma tx_packet (le : bool) (helper : xdp_md -> Z -> Z * xdp_md)
    (x : xdp_md) (rxcnt mac iph l4 : list Z) :
  wf x ->
  20 <= data x ->
  packet x = mac ++ [8; 0] ++ iph ++ l4 ->
  length mac = 12%nat -> length iph = 20%nat ->
  let proto := default 0 (iph !! 9%nat) in
  (proto = IPPROTO_TCP -> (20 <= length l4)%nat) ->
  (proto = IPPROTO_UDP -> (8 <= length l4)%nat) ->
  helper x (0 - sizeof_iphdr)
    = (0, mk_xdp (buf x) (data x - 20) (data_end x)) ->
  let tl :=
    (256 * default 0 (iph !! 2%nat) + default 0 (iph !! 3%nat) + 20)
      mod 65536 in
  let pre := take (Z.to_nat (data x - 20)) (buf x) in
  let post := drop (Z.to_nat (data_end x)) (buf x) in
  exists a b,
    take 2 (drop (Z.to_nat (data x - 2)) (buf x)) = [a; b] /\
    0 <= a < 256 /\ 0 <= b < 256 /\
    Z.of_nat (length pre) = data x - 20 /\
    data_end x = data x + 34 + Z.of_nat (length l4) /\
    let outer ck :=
      [69; 0; tl / 256; tl mod 256; a; b; 0; 0; 8; 4] ++ ck
        ++ replicate 8 255 in
    let ck := csum_fold (host_sum le (outer [0; 0])) in
    _xdp_tx_iptunnel le helper x rxcnt
    = Done (XDP_TX,
            mk_xdp
              (pre ++ (replicate 6 255 ++ take 6 mac ++ [8; 0])
                   ++ outer [byte0 le ck mod 256; byte1 le ck mod 256]
                   ++ iph ++ l4 ++ post)
              (data x - 20) (data_end x),
            count_tx rxcnt proto).
Proof.
  intros Hwf Hd Hpkt Hmac Hiph proto Htcp Hudp Hhelper tl pre post.
  assert (Hlen : Z.of_nat (length (packet x)) = 34 + Z.of_nat (length l4)).
  { rewrite Hpkt, !length_app. cbn [length]. lia. }
  assert (Hde : data x <= data_end x).
  { destruct (Z.le_gt_cases (data x) (data_end x)) as [|Hgt]; [done|].
    unfold packet in Hlen.
    replace (Z.to_nat (data_end x - data x)) with 0%nat in Hlen by lia.
    rewrite take_0 in Hlen. cbn [length] in Hlen. lia. }
  destruct (buffer_split x _ Hwf ltac:(lia) Hpkt)
    as (pre' & hr & post' & Hbuf & Hpre & Hhr & Hend & -> & -> & Hid).
  fold pre post in Hbuf, Hpre.
  rewrite <- Hid.
  assert (Hhrb : Forall (fun b => 0 <= b < 256) hr).
  { destruct Hwf as (Hall & _). rewrite Hbuf in Hall.
    apply Forall_app in Hall as [_ Hall].
    by apply Forall_app in Hall as [Hall _]. }
  assert (exists hr18 a b, hr = hr18 ++ [a; b] /\ length hr18 = 18%nat)
    as (hr18 & a & b & -> & Hhr18).
  { exists (take 18 hr).
    do 20 (destruct hr as [|? hr]; [done|]). destruct hr; [|done].
    by eexists _, _. }
  apply Forall_app in Hhrb as [_ Hab].
  apply Forall_cons in Hab as [Ha Hab]. apply Forall_cons in Hab as [Hb _].
  exists a, b. split_and!; try done; try lia.
  { by rewrite drop_app_length'. }
  { rewrite packet_length in Hlen by done. lia. }
  cbv zeta.
  pose proof (tx_run_lists le helper pre (hr18 ++ [a; b]) mac iph
                (l4 ++ post) rxcnt (Z.of_nat (length l4))
                Hhr Hmac Hiph) as Hrun.
  cbv zeta in Hrun.
  rewrite drop_app_length' in Hrun by done.
  replace (Z.of_nat (length pre) + 20) with (data x) in Hrun by lia.
  replace (Z.of_nat (length pre) + 54 + Z.of_nat (length l4))
    with (data_end x) in Hrun
    by (rewrite packet_length in Hlen by done; lia).
  rewrite Hpre in Hrun.
  assert (Hx : mk_xdp (pre ++ (hr18 ++ [a; b]) ++ (mac ++ [8; 0]) ++ iph
                          ++ l4 ++ post) (data x) (data_end x) = x).
  { replace (pre ++ (hr18 ++ [a; b]) ++ (mac ++ [8; 0]) ++ iph ++ l4 ++ post)
      with (buf x) by (rewrite Hbuf at 1; by rewrite <- !app_assoc).
    by destruct x. }
  rewrite Hx in Hrun.
  rewrite Hrun; try done; try lia.
Qed.

Lemma land_65535 (v : Z) : Z.land v 65535 = v mod 65536.
Proof. change 65535 with (Z.ones 16). by rewrite Z.land_ones. Qed.

Lemma shiftr_16 (v : Z) : Z.shiftr v 16 = v / 65536.
Proof. by rewrite Z.shiftr_div_pow2. Qed.

(** The checksum stored in the outer header is right exactly when the
    one folding step of the program leaves no carry. *)
Lemma outer_checksum (le : bool) (tl a b : Z) :
  0 <= tl < 65536 -> 0 <= a < 256 -> 0 <= b < 256 ->
  let outer ck :=
    [69; 0; tl / 256; tl mod 256; a; b; 0; 0; 8; 4] ++ ck
      ++ replicate 8 255 in
  let csum := host_sum le (outer [0; 0]) in
  let ck := csum_fold csum in
  ip_checksum_ok (outer [byte0 le ck mod 256; byte1 le ck mod 256])
  = bool_decide (Z.land csum 65535 + Z.shiftr csum 16 < 65536).
Proof.
  intros Htl Ha Hb outer csum ck. subst outer csum ck.
  unfold ip_checksum_ok, fold16, csum_fold.
  cbn [app replicate sum16 host_sum].
  rewrite !land_65535, !shiftr_16.
  change (2 ^ 32) with 4294967296.
  unfold word16, byte0, byte1.
  case_bool_decide as Hfold.
  - apply Z.eqb_eq. destruct le; Z.div_mod_to_equations; lia.
  - apply Z.eqb_neq. destruct le; Z.div_mod_to_equations; lia.
Qed.

End XdpTunnelFacts.

Section XdpSafety.
Import SkbRing XdpTunnel XdpTunnelFacts.
Context (little_endian : bool).
Context (bpf_xdp_adjust_head : xdp_md -> Z -> Z * xdp_md).

(** X15 -- The program stays inside the packet.  On any well-formed
    buffer, whatever [bpf_xdp_adjust_head] returns and whatever it makes
    of the packet (as long as the packet stays inside the buffer),
    [_xdp_tx_iptunnel] makes no access outside [data, data_end): it
    always returns, with one of the actions [XDP_DROP], [XDP_PASS] and
    [XDP_TX], and it leaves the packet well formed, with the bounds it
    had or those the helper gave it. *)
Theorem xdp_stays_inside_packet (x : xdp_md) (rxcnt : list Z) :
  wf x ->
  (forall x0 delta, wf x0 -> wf (bpf_xdp_adjust_head x0 delta).2) ->
  exists act x' rxcnt',
    _xdp_tx_iptunnel little_endian bpf_xdp_adjust_head x rxcnt
      = Done (act, x', rxcnt') /\
    (act = XDP_DROP \/ act = XDP_PASS \/ act = XDP_TX) /\
    (same_frame x' x \/
     same_frame x' (bpf_xdp_adjust_head x (0 - sizeof_iphdr)).2).
Proof.
  intros Hwf Hhelper.
  assert (Hsame : same_frame x x) by (by split_and!).
  unfold _xdp_tx_iptunnel, sizeof_ethhdr.
  destruct (Z.ltb_spec (data_end x) (data x + 14)) as [|Heth].
  { exists XDP_DROP, x, rxcnt. split_and!; auto. }
  destruct (load16_ok little_endian x (data x + 12) Hwf)
    as (h_proto & -> & _); [lia|lia|]. run.
  destruct (h_proto =? htons little_endian ETH_P_IP).
  2: { exists XDP_PASS, x, rxcnt. split_and!; auto. }
  unfold handle_ipv4, sizeof_ethhdr, sizeof_iphdr.
  destruct (Z.ltb_spec (data_end x) (data x + 14 + 20)) as [|Hip].
  { exists XDP_DROP, x, rxcnt. split_and!; auto. }
  destruct (load8_ok x (data x + 14 + 9) Hwf) as (protocol & -> & _);
    [lia|]. run.
  destruct (get_dport_ok little_endian x (data x + 14 + 20) protocol Hwf)
    as (dport & -> & _); [lia|]. run.
  destruct (dport =? -1).
  { exists XDP_DROP, x, rxcnt. split_and!; auto. }
  destruct (load32_ok little_endian x (data x + 14 + 16) Hwf)
    as (daddr & ->); [lia|lia|]. run.
  destruct (load16_ok little_endian x (data x + 14 + 2) Hwf)
    as (tot_len & -> & _); [lia|lia|]. run.
  pose proof (Hhelper x (0 - 20) Hwf) as Hwf1.
  destruct (bpf_xdp_adjust_head x (0 - 20)) as [rc x1]. cbn [snd] in *.
  assert (Hsame1 : same_frame x1 x1) by (by split_and!).
  destruct (negb (rc =? 0)).
  { exists XDP_DROP, x1, rxcnt. split_and!; auto. }
  destruct (Z.ltb_spec (data_end x1) (data x1 + 14)) as [|Hb1]; cbn [orb].
  { exists XDP_DROP, x1, rxcnt. split_and!; auto. }
  destruct (Z.ltb_spec (data_end x1) (data x1 + 20 + 14)) as [|Hb2];
    cbn [orb].
  { exists XDP_DROP, x1, rxcnt. split_and!; auto. }
  destruct (Z.ltb_spec (data_end x1) (data x1 + 14 + 20)) as [|Hb3].
  { exists XDP_DROP, x1, rxcnt. split_and!; auto. }
  pose proof Hwf1 as (_ & Hd1 & _).
  destruct (set_ethhdr_ok little_endian x1 (data x1) (data x1 + 20)
              (htons little_endian ETH_P_IP) Hwf1)
    as (x2 & -> & Hd2 & He2 & Hwf2); try lia. run.
  destruct (load8_ok x2 (data x1 + 14) Hwf2) as (b1 & -> & _); [lia|]. run.
  destruct (store8_ok x2 (data x1 + 14) (Z.lor (Z.land b1 15) (Z.shiftl 4 4))
              Hwf2) as (x3 & -> & Hd3 & He3 & Hwf3); [lia|]. run.
  destruct (load8_ok x3 (data x1 + 14) Hwf3) as (b2 & -> & _); [lia|]. run.
  destruct (store8_ok x3 (data x1 + 14)
              (Z.lor (Z.land b2 240) (Z.shiftr 20 2)) Hwf3)
    as (x4 & -> & Hd4 & He4 & Hwf4); [lia|]. run.
  destruct (store16_ok little_endian x4 (data x1 + 14 + 6) 0 Hwf4)
    as (x5 & -> & Hd5 & He5 & Hwf5); [lia|lia|]. run.
  destruct (store8_ok x5 (data x1 + 14 + 9) IPPROTO_IPIP Hwf5)
    as (x6 & -> & Hd6 & He6 & Hwf6); [lia|]. run.
  destruct (store16_ok little_endian x6 (data x1 + 14 + 10) 0 Hwf6)
    as (x7 & -> & Hd7 & He7 & Hwf7); [lia|lia|]. run.
  destruct (store8_ok x7 (data x1 + 14 + 1) 0 Hwf7)
    as (x8 & -> & Hd8 & He8 & Hwf8); [lia|]. run.
  destruct (store16_ok little_endian x8 (data x1 + 14 + 2)
              (htons little_endian (ntohs little_endian tot_len + 20)) Hwf8)
    as (x9 & -> & Hd9 & He9 & Hwf9); [lia|lia|]. run.
  destruct (store32_ok little_endian x9 (data x1 + 14 + 16) 4294967295 Hwf9)
    as (x10 & -> & Hd10 & He10 & Hwf10); [lia|lia|]. run.
  destruct (store32_ok little_endian x10 (data x1 + 14 + 12) 4294967295
              Hwf10)
    as (x11 & -> & Hd11 & He11 & Hwf11); [lia|lia|]. run.
  destruct (store8_ok x11 (data x1 + 14 + 8) 8 Hwf11)
    as (x12 & -> & Hd12 & He12 & Hwf12); [lia|]. run.
  destruct (csum_loop_ok little_endian (Z.to_nat (Z.shiftr 20 1)) x12
              (data x1 + 14) 0 Hwf12) as (csum & ->);
    [lia|change (Z.of_nat (Z.to_nat (Z.shiftr 20 1))) with 10; lia|]. run.
  destruct (store16_ok little_endian x12 (data x1 + 14 + 10)
              (csum_fold csum) Hwf12)
    as (x13 & -> & Hd13 & He13 & Hwf13); [lia|lia|]. run.
  exists XDP_TX, x13, (count_tx rxcnt protocol).
  split_and!; auto. right. split_and!; [lia|lia|done].
Qed.

End XdpSafety.

Section XdpExtras.
Import SkbRing XdpTunnel XdpTunnelFacts.
Context (little_endian : bool).
Context (bpf_xdp_adjust_head : xdp_md -> Z -> Z * xdp_md).

(** X16 -- What the program leaves alone.  A frame too short for an
    Ethernet header is dropped; a frame whose type is not IPv4
    ([0x0800]) is passed; an IPv4 frame too short for an IP header, or
    for the TCP or UDP header that the protocol byte announces right
    behind it, is dropped.  In all these cases the buffer and the
    counters stay as they were. *)
Theorem xdp_leaves_other_packets_alone (x : xdp_md) (rxcnt : list Z) :
  wf x ->
  let len := data_end x - data x in
  let ipv4 :=
    packet x !! 12%nat = Some 8 /\ packet x !! 13%nat = Some 0 in
  let short :=
    len < 34 \/
    (packet x !! 23%nat = Some IPPROTO_TCP /\ len < 54) \/
    (packet x !! 23%nat = Some IPPROTO_UDP /\ len < 42) in
  let run := _xdp_tx_iptunnel little_endian bpf_xdp_adjust_head x rxcnt in
  (len < 14 -> run = Done (XDP_DROP, x, rxcnt)) /\
  (14 <= len -> ¬ ipv4 -> run = Done (XDP_PASS, x, rxcnt)) /\
  (14 <= len -> ipv4 -> short -> run = Done (XDP_DROP, x, rxcnt)).
Proof.
  intros Hwf len ipv4 short run. subst len ipv4 short run.
  unfold _xdp_tx_iptunnel, sizeof_ethhdr. split_and!.
  - intros Hlen.
    by destruct (Z.ltb_spec (data_end x) (data x + 14)); [|lia].
  - intros Hlen Hno.
    destruct (Z.ltb_spec (data_end x) (data x + 14)); [lia|].
    destruct (load8_packet x 12 Hwf) as (b0 & Hp0 & Hl0 & Hb0); [lia|].
    destruct (load8_packet x 13 Hwf) as (b1 & Hp1 & Hl1 & Hb1); [lia|].
    unfold load16.
    replace (data x + 12 + 1) with (data x + Z.of_nat 13) by lia.
    change 12 with (Z.of_nat 12). rewrite Hl0, Hl1. run.
    destruct (word16 little_endian b0 b1 =? htons little_endian ETH_P_IP)
      eqn:Heq; [|done].
    destruct (ethertype_ip_only little_endian b0 b1 Hb0 Hb1 Heq)
      as [-> ->].
    by destruct Hno.
  - intros Hlen [Hp0 Hp1] Hshort.
    destruct (Z.ltb_spec (data_end x) (data x + 14)); [lia|].
    destruct (load8_packet x 12 Hwf) as (b0 & Hp0' & Hl0 & _); [lia|].
    destruct (load8_packet x 13 Hwf) as (b1 & Hp1' & Hl1 & _); [lia|].
    assert (b0 = 8) as -> by congruence.
    assert (b1 = 0) as -> by congruence.
    unfold load16.
    replace (data x + 12 + 1) with (data x + Z.of_nat 13) by lia.
    change 12 with (Z.of_nat 12). rewrite Hl0, Hl1. run.
    rewrite ethertype_ip.
    unfold handle_ipv4, sizeof_ethhdr, sizeof_iphdr.
    destruct (Z.ltb_spec (data_end x) (data x + 14 + 20)) as [|Hip];
      [done|].
    destruct (load8_packet x 23 Hwf) as (p & Hp & Hl & _); [lia|].
    replace (data x + 14 + 9) with (data x + Z.of_nat 23) by lia.
    rewrite Hl. run.
    destruct (get_dport_ok little_endian x (data x + 14 + 20) p Hwf)
      as (dport & -> & Hiff); [lia|]. run.
    assert (dport = -1) as ->.
    { apply Hiff. unfold sizeof_tcphdr, sizeof_udphdr.
      destruct Hshort as [?|[[Hp' ?]|[Hp' ?]]]; [lia| |].
      - left. split; [congruence|lia].
      - right. split; [congruence|lia]. }
    done.
Qed.

(** X17 -- Encapsulation.  Take an IPv4 frame (two addresses of six
    bytes, the type [0x0800], a header of twenty bytes, the rest) whose
    TCP or UDP header, if the protocol byte announces one, fits, with
    twenty bytes of room before it that the helper grants.  The program
    answers [XDP_TX], counts the inner protocol, and leaves a packet
    twenty bytes longer: the broadcast address as destination, the old
    destination as source, the type [0x0800]; an outer header with
    version 4, length 5, service 0, total length the inner one plus 20
    (modulo 2^16), as identification the two bytes already found
    there, no fragment, time to live 8, protocol 4, a checksum, and
    255.255.255.255 as source and as destination; then the inner
    header and the rest, untouched.  Nothing outside the new packet
    changes. *)
Theorem xdp_encapsulates (x : xdp_md) (rxcnt mac iph l4 : list Z) :
  wf x ->
  20 <= data x ->
  packet x = mac ++ [8; 0] ++ iph ++ l4 ->
  length mac = 12%nat -> length iph = 20%nat ->
  let proto := default 0 (iph !! 9%nat) in
  (proto = IPPROTO_TCP -> (20 <= length l4)%nat) ->
  (proto = IPPROTO_UDP -> (8 <= length l4)%nat) ->
  bpf_xdp_adjust_head x (0 - sizeof_iphdr)
    = (0, mk_xdp (buf x) (data x - 20) (data_end x)) ->
  let tot :=
    (256 * default 0 (iph !! 2%nat) + default 0 (iph !! 3%nat) + 20)
      mod 65536 in
  let id := take 2 (drop (Z.to_nat (data x - 2)) (buf x)) in
  exists x' c0 c1,
    _xdp_tx_iptunnel little_endian bpf_xdp_adjust_head x rxcnt
      = Done (XDP_TX, x', count_tx rxcnt proto) /\
    data x' = data x - 20 /\
    data_end x' = data_end x /\
    packet x' =
      replicate 6 255 ++ take 6 mac ++ [8; 0]
        ++ [69; 0; tot / 256; tot mod 256] ++ id
        ++ [0; 0; 8; 4; c0; c1] ++ replicate 8 255
        ++ iph ++ l4 /\
    take (Z.to_nat (data x')) (buf x') = take (Z.to_nat (data x')) (buf x) /\
    drop (Z.to_nat (data_end x)) (buf x')
      = drop (Z.to_nat (data_end x)) (buf x).
Proof.
  intros Hwf Hd Hpkt Hmac Hiph proto Htcp Hudp Hhelper tot id.
  destruct (tx_packet little_endian bpf_xdp_adjust_head x rxcnt mac iph l4
              Hwf Hd Hpkt Hmac Hiph Htcp Hudp Hhelper)
    as (a & b & Hid & Ha & Hb & Hpre & Hend & Hrun).
  cbv zeta beta in Hrun. fold tot proto in Hrun.
  subst id. rewrite Hid.
  match type of Hrun with context [csum_fold ?s] =>
    set (ck := csum_fold s) in Hrun
  end.
  set (c0 := byte0 little_endian ck mod 256) in Hrun.
  set (c1 := byte1 little_endian ck mod 256) in Hrun.
  match type of Hrun with _ = Done (_, ?xr, _) => exists xr, c0, c1 end.
  split; [exact Hrun|]. cbn [data data_end buf].
  set (pre := take (Z.to_nat (data x - 20)) (buf x)) in *.
  set (post := drop (Z.to_nat (data_end x)) (buf x)) in *.
  set (pkt := replicate 6 255 ++ take 6 mac ++ [8; 0]
                ++ [69; 0; tot / 256; tot mod 256] ++ [a; b]
                ++ [0; 0; 8; 4; c0; c1] ++ replicate 8 255 ++ iph ++ l4).
  assert (Hlen : Z.of_nat (length pkt) = 54 + Z.of_nat (length l4)).
  { subst pkt. rewrite !length_app, length_take. cbn [length replicate].
    lia. }
  assert (Hbuf' : forall ck0 ck1,
    pre ++ (replicate 6 255 ++ take 6 mac ++ [8; 0])
        ++ ([69; 0; tot / 256; tot mod 256; a; b; 0; 0; 8; 4]
              ++ [ck0; ck1] ++ replicate 8 255)
        ++ iph ++ l4 ++ post
    = pre ++ (replicate 6 255 ++ take 6 mac ++ [8; 0]
                ++ [69; 0; tot / 256; tot mod 256] ++ [a; b]
                ++ [0; 0; 8; 4; ck0; ck1] ++ replicate 8 255 ++ iph ++ l4)
          ++ post).
  { intros ck0 ck1. f_equal. by rewrite <- !app_assoc. }
  rewrite Hbuf'. fold pkt. split_and!; try done.
  - replace (data x - 20) with (Z.of_nat (length pre)) by lia.
    replace (data_end x)
      with (Z.of_nat (length pre) + Z.of_nat (length pkt)) by lia.
    apply packet_app.
  - replace (Z.to_nat (data x - 20)) with (length pre) by lia.
    by rewrite take_app_length.
  - replace (Z.to_nat (data_end x)) with (length pre + length pkt)%nat
      by lia.
    by rewrite drop_app_add', drop_app_length.
Qed.

(** X18 -- The checksum of the outer header.  After such an
    encapsulation the outer header passes the Internet checksum test
    exactly when the sum of its ten 16-bit words, taken with the
    checksum field zero and as the machine reads them, folds into 16
    bits in one step: when the low half plus the high half of the sum
    stays below 2^16.  The program folds only once, so in the other
    case the stored checksum is off by one. *)
Theorem xdp_outer_checksum (x : xdp_md) (rxcnt mac iph l4 : list Z)
    (act : Z) (x' : xdp_md) (rxcnt' : list Z) :
  wf x ->
  20 <= data x ->
  packet x = mac ++ [8; 0] ++ iph ++ l4 ->
  length mac = 12%nat -> length iph = 20%nat ->
  let proto := default 0 (iph !! 9%nat) in
  (proto = IPPROTO_TCP -> (20 <= length l4)%nat) ->
  (proto = IPPROTO_UDP -> (8 <= length l4)%nat) ->
  bpf_xdp_adjust_head x (0 - sizeof_iphdr)
    = (0, mk_xdp (buf x) (data x - 20) (data_end x)) ->
  _xdp_tx_iptunnel little_endian bpf_xdp_adjust_head x rxcnt
    = Done (act, x', rxcnt') ->
  let header := take 20 (drop 14 (packet x')) in
  let csum :=
    host_sum little_endian (<[10%nat := 0]> (<[11%nat := 0]> header)) in
  ip_checksum_ok header
  = bool_decide (Z.land csum 65535 + Z.shiftr csum 16 < 65536).
Proof.
  intros Hwf Hd Hpkt Hmac Hiph proto Htcp Hudp Hhelper Hrun' header csum.
  destruct (tx_packet little_endian bpf_xdp_adjust_head x rxcnt mac iph l4
              Hwf Hd Hpkt Hmac Hiph Htcp Hudp Hhelper)
    as (a & b & Hid & Ha & Hb & Hpre & Hend & Hrun).
  cbv zeta beta in Hrun. rewrite Hrun' in Hrun.
  match type of Hrun with _ = Done (_, ?xr, _) =>
    assert (Hx' : x' = xr) by congruence
  end.
  clear Hrun Hrun'. subst x'.
  set (tot := (256 * default 0 (iph !! 2%nat) + default 0 (iph !! 3%nat)
               + 20) mod 65536) in *.
  assert (Htot : 0 <= tot < 65536) by (apply Z.mod_pos_bound; lia).
  set (pre := take (Z.to_nat (data x - 20)) (buf x)) in *.
  set (post := drop (Z.to_nat (data_end x)) (buf x)) in *.
  subst header csum. cbv beta.
  lazymatch goal with
  | |- context [packet (mk_xdp (pre ++ ?p ++ ?h ++ iph ++ l4 ++ post) _ _)] =>
      set (P := p); set (H := h)
  end.
  assert (HP : length P = 14%nat).
  { subst P. rewrite !length_app, length_take. cbn [length replicate]. lia. }
  assert (HH : length H = 20%nat) by done.
  assert (Hp : packet (mk_xdp (pre ++ P ++ H ++ iph ++ l4 ++ post)
                         (data x - 20) (data_end x))
               = P ++ H ++ iph ++ l4).
  { replace (pre ++ P ++ H ++ iph ++ l4 ++ post)
      with (pre ++ (P ++ H ++ iph ++ l4) ++ post)
      by (by rewrite <- !app_assoc).
    replace (data_end x)
      with (Z.of_nat (length pre)
            + Z.of_nat (length (P ++ H ++ iph ++ l4)))
      by (rewrite !length_app; lia).
    replace (data x - 20) with (Z.of_nat (length pre)) by lia.
    apply packet_app. }
  rewrite Hp, (drop_app_length' P), (take_app_length' H) by done.
  subst H.
  cbn [app drop take insert list_insert].
  by apply (outer_checksum little_endian tot a b).
Qed.

End XdpExtras.

Section XdpRuns.
Import SkbRing XdpTunnel XdpTunnelFacts XdpExamples.

Lemma udp_frame_wf : wf udp_frame.
Proof.
  unfold wf. cbv [udp_frame buf data data_end mac_bytes ip_bytes udp_bytes].
  cbn [replicate app length]. split_and!; [|lia|lia].
  each_elem ltac:(lia).
Qed.

Lemma arp_frame_wf : wf arp_frame.
Proof.
  unfold wf. cbv [arp_frame buf data data_end mac_bytes ip_bytes udp_bytes].
  cbn [replicate app length]. split_and!; [|lia|lia].
  each_elem ltac:(lia).
Qed.

Lemma adjust_head_wf (x : xdp_md) (delta : Z) :
  wf x -> wf (adjust_head x delta).2.
Proof.
  intros (Hb & Hd & He). unfold adjust_head.
  destruct (Z.leb_spec 0 (data x + delta)); [|by split_and!].
  destruct (Z.leb_spec (data x + delta) (data_end x - 14));
    by split_and!.
Qed.

(** [xdp_stays_inside_packet] on the UDP frame, with the helper of the
    kernel. *)
Lemma xdp_stays_inside_packet_witness :
  exists act x' rxcnt',
    _xdp_tx_iptunnel true adjust_head udp_frame rxcnt0
      = Done (act, x', rxcnt') /\
    (act = XDP_DROP \/ act = XDP_PASS \/ act = XDP_TX) /\
    (same_frame x' udp_frame \/
     same_frame x' (adjust_head udp_frame (0 - sizeof_iphdr)).2).
Proof.
  apply (xdp_stays_inside_packet true adjust_head udp_frame rxcnt0).
  - apply udp_frame_wf.
  - apply adjust_head_wf.
Defined.

(** [xdp_leaves_other_packets_alone] on the ARP frame. *)
Lemma xdp_leaves_other_packets_alone_witness :
  _xdp_tx_iptunnel true adjust_head arp_frame rxcnt0
  = Done (XDP_PASS, arp_frame, rxcnt0).
Proof.
  destruct (xdp_leaves_other_packets_alone true adjust_head arp_frame rxcnt0
              arp_frame_wf) as (_ & Hpass & _).
  apply Hpass.
  - cbn. lia.
  - intros [_ Hno]. vm_compute in Hno. discriminate.
Defined.

(** [xdp_encapsulates] on the UDP frame. *)
Lemma xdp_encapsulates_witness :
  exists x' c0 c1,
    _xdp_tx_iptunnel true adjust_head udp_frame rxcnt0
      = Done (XDP_TX, x', count_tx rxcnt0 17) /\
    data x' = 4 /\
    data_end x' = 70 /\
    packet x' =
      [255; 255; 255; 255; 255; 255; 1; 2; 3; 4; 5; 6; 8; 0;
       69; 0; 0; 52; 0; 0; 0; 0; 8; 4; c0; c1;
       255; 255; 255; 255; 255; 255; 255; 255]
      ++ ip_bytes ++ udp_bytes.
Proof.
  destruct (xdp_encapsulates true adjust_head udp_frame rxcnt0
              mac_bytes ip_bytes udp_bytes)
    as (x' & c0 & c1 & Hrun & Hd & He & Hp & _).
  - apply udp_frame_wf.
  - cbn. lia.
  - reflexivity.
  - reflexivity.
  - reflexivity.
  - intros Hp. vm_compute in Hp. discriminate.
  - intros _. cbn. lia.
  - reflexivity.
  - exists x', c0, c1. split_and!; [exact Hrun|exact Hd|exact He|exact Hp].
Defined.

(** [xdp_outer_checksum] on the UDP frame: the checksum is right. *)
Lemma xdp_outer_checksum_witness :
  match _xdp_tx_iptunnel true adjust_head udp_frame rxcnt0 with
  | Done (_, x', _) => ip_checksum_ok (take 20 (drop 14 (packet x'))) = true
  | Fail _ => False
  end.
Proof.
  destruct (_xdp_tx_iptunnel true adjust_head udp_frame rxcnt0)
    as [[[act x'] rxcnt']|f] eqn:Hrun.
  - rewrite (xdp_outer_checksum true adjust_head udp_frame rxcnt0
               mac_bytes ip_bytes udp_bytes act x' rxcnt').
    + vm_compute in Hrun. injection Hrun as <- <- <-. reflexivity.
    + apply udp_frame_wf.
    + cbn. lia.
    + reflexivity.
    + reflexivity.
    + reflexivity.
    + intros Hp. vm_compute in Hp. discriminate.
    + intros _. cbn. lia.
    + reflexivity.
    + exact Hrun.
  - vm_compute in Hrun. discriminate.
Defined.

End XdpRuns.

Section FrontendExtras.
Import VhostFrontend.

(** X19 -- The frontend must be a virtio network device.  The check of
    the devices for the backend called [name] returns 0 exactly when
    every device that names this backend as its [netdev] and gives a
    [driver] has a driver whose name starts with [virtio-net-]; in the
    other case it returns -1 with the error set.  Devices without a
    [driver] or without a [netdev] option, and devices of other
    backends, are never refused. *)
Theorem frontend_must_be_virtio_net
    (devices : list (option string * option string)) (name : string) :
  let ok :=
    forall d, (Some d, Some name) ∈ devices ->
              String.prefix "virtio-net-" d = true in
  (ok -> qemu_opts_foreach devices name = (0, None)) /\
  (¬ ok -> qemu_opts_foreach devices name = (-1, Some ErrNotVirtioNet)).
Proof.
  induction devices as [|[driver netdev] devices [IHok IHbad]]; cbv zeta.
  - split; [done|]. intros Hno. destruct Hno. intros d Hd.
    by apply elem_of_nil in Hd.
  - cbn [qemu_opts_foreach]. unfold net_vhost_check_net.
    destruct driver as [d|], netdev as [n|];
      try (split; [intros Hok; apply IHok; intros d' Hd'; apply Hok;
                   by right
                  |intros Hno; apply IHbad; intros Hok; apply Hno;
                   intros d' Hd'; apply elem_of_cons in Hd' as [Heq|Hd'];
                   [done|by apply Hok]]).
    destruct (String.eqb_spec n name) as [->|Hne]; cbn [andb].
    + destruct (String.prefix "virtio-net-" d) eqn:Hpre; cbn [negb].
      * split.
        -- intros Hok. apply IHok. intros d' Hd'. apply Hok. by right.
        -- intros Hno. apply IHbad. intros Hok. apply Hno.
           intros d' Hd'. apply elem_of_cons in Hd' as [Heq|Hd'].
           ++ by injection Heq as ->.
           ++ by apply Hok.
      * split; [|done]. intros Hok.
        specialize (Hok d ltac:(by left)). congruence.
    + split.
      * intros Hok. apply IHok. intros d' Hd'. apply Hok. by right.
      * intros Hno. apply IHbad. intros Hok. apply Hno.
        intros d' Hd'. apply elem_of_cons in Hd' as [Heq|Hd'].
        -- by injection Heq as _ ->.
        -- by apply Hok.
Qed.

(** [frontend_must_be_virtio_net] on three devices, the last of which
    puts an e1000 in front of the backend. *)
Lemma frontend_must_be_virtio_net_witness :
  qemu_opts_foreach
    [(Some "virtio-net-pci", Some "net0"); (Some "e1000", Some "net1");
     (Some "e1000", Some "net0")] "net0"
  = (-1, Some ErrNotVirtioNet) /\
  qemu_opts_foreach
    [(Some "virtio-net-pci", Some "net0"); (Some "e1000", Some "net1");
     (None, Some "net0")] "net0"
  = (0, None).
Proof.
  split.
  - apply frontend_must_be_virtio_net. intros Hok.
    specialize (Hok "e1000"). cbn in Hok. discriminate Hok.
    do 2 right. by left.
  - apply frontend_must_be_virtio_net. intros d Hd.
    repeat (apply elem_of_cons in Hd as [Hd|Hd]; [by simplify_eq|]).
    by apply elem_of_nil in Hd.
Defined.

End FrontendExtras.

Module BatchFacts.
Import CoreRing CoreRingFacts.

Section Prefix.
Context {M E : Type} (fns : ring_fns M).
Context (load : M -> Z -> E) (entry_valid : E -> bool).
Context (n : Z) (Hok : table_ok fns load entry_valid n).

(** With a budget that the ring can fill, the batch loop is the run of
    that many single consumes into the successive buffers. *)
Lemma batched_loop_prefix (fuel : nat) :
  forall (s : state M) (q1 q2 : list E) (array i : Z),
  size (ring s) = n ->
  holds fns load entry_valid s (q1 ++ q2) ->
  length q1 = fuel ->
  Forall (user_buf fns s) (batch_bufs (entry_size (ring s)) array fuel) ->
  consume_batched_loop fns fuel s array i =
    (i + Z.of_nat fuel,
     (consume_seq fns s (batch_bufs (entry_size (ring s)) array fuel)).2).
Proof.
  induction fuel as [|fuel IH]; intros s q1 q2 array i Hn Hh Hlen Hbufs.
  - cbn. by rewrite Z.add_0_r.
  - destruct q1 as [|e q1]; [done|]. cbn [length] in Hlen. apply Nat.succ_inj in Hlen.
    cbn [batch_bufs] in *.
    apply Forall_cons in Hbufs as [Hbp Hbufs].
    destruct (holds_consume fns load entry_valid n Hok s e (q1 ++ q2) array
                Hn Hh Hbp) as (Hret & Hh1 & _).
    pose proof (consume_size fns s array) as Hsz1.
    pose proof (consume_entry_size fns s array) as Hes1.
    assert (Hbufs1 : Forall (user_buf fns (__core_ring_consume fns s array).2)
              (batch_bufs (entry_size (ring s))
                 (array + entry_size (ring s)) fuel)).
    { eapply Forall_impl; [exact Hbufs|]. intros a.
      apply (consume_user_buf fns load entry_valid n Hok). }
    cbn [consume_batched_loop]. rewrite consume_seq_cons.
    destruct (__core_ring_consume fns s array) as [ret s1].
    cbn [fst snd] in *. subst ret.
    destruct Hbp as [Hnull _].
    destruct (Z.eqb_spec array NULL) as [|_]; [done|].
    rewrite Hes1.
    rewrite (IH s1 q1 q2) by (congruence || done || by rewrite Hes1).
    rewrite Hes1.
    destruct (consume_seq fns s1 _) as [rets s2]. cbn [fst snd].
    f_equal. lia.
Qed.

End Prefix.

End BatchFacts.

Section BatchExtras.
Import CoreRing CoreRingFacts BatchFacts.
Context {M E : Type} (fns : ring_fns M).
Context (load : M -> Z -> E) (entry_valid : E -> bool).

(** X20 -- A batch stops at its budget.  On a well-formed ring holding
    at least [n] entries, [__core_ring_consume_batched] with the budget
    [n] returns [n], fills the [n] caller buffers [array],
    [array + entry_size], ... (when distinct) with the [n] oldest
    entries in order, and leaves the others in the ring; with a budget
    of zero or less it returns 0 and touches nothing. *)
Theorem batched_consume_stops_at_budget (s : state M) (q : list E)
    (array n : Z) :
  table_ok fns load entry_valid (CoreRing.size (ring s)) ->
  CoreRing.holds fns load entry_valid s q ->
  n <= Z.of_nat (length q) ->
  let bufs := batch_bufs (entry_size (ring s)) array (Z.to_nat n) in
  Forall (user_buf fns s) bufs ->
  NoDup bufs ->
  let batch := __core_ring_consume_batched fns s array n in
  batch.1 = Z.max 0 n /\
  load (mem batch.2) <$> bufs = take (Z.to_nat n) q /\
  CoreRing.holds fns load entry_valid batch.2 (drop (Z.to_nat n) q) /\
  (n <= 0 -> batch.2 = s).
Proof.
  intros Hok Hh Hn bufs Hbufs Hnd batch. subst batch bufs.
  unfold __core_ring_consume_batched.
  set (k := Z.to_nat n) in *.
  assert (Hlen : length (take k q) = k) by (rewrite length_take; lia).
  rewrite <- (take_drop k q) in Hh.
  rewrite (batched_loop_prefix fns load entry_valid _ Hok k s
             (take k q) (drop k q) array 0 eq_refl Hh Hlen Hbufs).
  destruct (holds_consume_seq fns load entry_valid _ Hok (take k q)
              (batch_bufs (entry_size (ring s)) array k) s (drop k q))
    as (_ & Hh1 & _ & Hfill & _); try done.
  { by rewrite batch_bufs_length. }
  cbn [fst snd]. split_and!; [lia|by apply Hfill|done|].
  intros Hle. replace k with 0%nat by lia. done.
Qed.

End BatchExtras.

Section BatchRuns.
Import CoreRing CoreRingFacts PtrTable PtrTableFacts Examples.

(** [batched_consume_stops_at_budget] on the ring holding two pointers,
    with a budget of one and the buffer at 2000. *)
Lemma batched_consume_stops_at_budget_witness :
  (__core_ring_consume_batched fns64 state4_two 2000 1).1 = 1 /\
  read (mem (__core_ring_consume_batched fns64 state4_two 2000 1).2) 2000
    = 11 /\
  CoreRing.holds fns64 read ptr_valid
    (__core_ring_consume_batched fns64 state4_two 2000 1).2 [22].
Proof.
  destruct (batched_consume_stops_at_budget fns64 read ptr_valid state4_two
              [11; 22] 2000 1 (ptr_table_ok 64 _) (proj1 state4_two_holds))
    as (Hret & Hfill & Hh & _).
  - cbn. lia.
  - each_elem ltac:(apply state4_two_user_buf; lia).
  - apply NoDup_singleton.
  - split_and!; [exact Hret| |exact Hh].
    exact (f_equal (hd 0) Hfill).
Defined.

End BatchRuns.
